(** * The recording orchestrator of rrweb ([src/record/index.ts])

    A shallow embedding of the [Recorder] class and of the module-level
    [record] entry point, together with the properties of the emit
    pipeline, of the checkpoint sequence and of the public surface that
    the specification states.

    The recorder is single-threaded, event-driven JavaScript.  Every
    function of the source becomes a computation in a small state and
    exception monad over a [World] that gathers the module-level
    variables ([mutationBuffers], [mirror.map], [recorder]), the fields
    and closure variables of the one live [Recorder] instance, and a
    trace of the externally visible effects in the order in which they
    happen.  Calls into the host ([Date.now], the structural serializer,
    the window geometry) read immutable oracles of a [Host].

    What the recorder only calls is kept abstract: the consumer callback
    is taken to return normally without calling back into the recorder,
    and each of its calls is an effect of the trace; the serializer is an
    oracle, and its per-node hooks into the iframe manager are left out;
    the mutation buffers of [./observer], whose code is not at hand,
    follow the state machine that the specification gives them.  The
    emit pipeline re-enters itself (an emission may resume or unlock a
    buffer, whose flush emits, which may take a checkpoint, which emits
    and unlocks), so [wrappedEmit] and the flush of a buffer are defined
    by recursion on fuel; they are shown to return for every amount of
    fuel above a bound computed from the world.

    Beyond the statements of the specification, the development covers
    the rest of the constructor's option handling ([slimDOMOptions],
    [sampling], [recordLog], the options of the serializer), invariants
    of the emit pipeline (the counter and the stored full snapshot, the
    [isCheckout] flag, the locks, the one exception it can throw), and
    the start and the end of a session. *)

From Stdlib Require Import ZArith List Bool Lia.
From stdpp Require Import base option list gmap strings.

Local Open Scope string_scope.
Local Open Scope list_scope.
Local Open Scope nat_scope.

(** ** Events ([../types]) *)

(** Modelled from the spec: the [EventType] enumeration of [../types], whose
    declaration is not part of the sources at hand; section 3 of the
    specification lists the event kinds. *)
Inductive EventType : Set :=
| DomContentLoaded
| Load
| FullSnapshot
| IncrementalSnapshot
| Meta
| Custom.

(** Modelled from the spec: the [IncrementalSource] enumeration of [../types];
    the members are the sources named by the detector callbacks of
    [Recorder.observe] plus the two pointer-move sources that
    [mousemoveCb] receives as an argument. *)
Inductive IncrementalSource : Set :=
| Mutation
| MouseMove
| MouseInteraction
| Scroll
| ViewportResize
| Input
| TouchMove
| MediaInteraction
| StyleSheetRule
| CanvasMutation
| Font
| Log.

Global Instance EventType_eq_dec : EqDecision EventType.
Proof. solve_decision. Defined.

Global Instance IncrementalSource_eq_dec : EqDecision IncrementalSource.
Proof. solve_decision. Defined.

(** A serialized node tree as returned by the structural serializer. *)
#[local] Set Warnings "-register-all".
Inductive serializedNode : Set :=
| SNode (id : Z) (tagName : string) (childNodes : list serializedNode).

(** The identity registry: node identifier to live node. *)
Abbreviation idNodeMap := (gmap Z string).

(** The [data] member of an event.  Detector payloads are opaque to the
    orchestrator, which only spreads them next to [source]. *)
Inductive eventData : Type :=
| emptyData
| metaData (href : string) (width height : Z)
| fullSnapshotData (node : serializedNode) (left top : Z)
| incrementalData (source : IncrementalSource) (payload : string)
| customData (tag : string) (payload : string).

Record event : Type := mkEvent {
  type : EventType;
  data : eventData
}.

Record eventWithTime : Type := mkEventWithTime {
  event_of :> event;
  timestamp : Z
}.

(** [e.data.source], [undefined] on events that carry no source. *)
Definition source (d : eventData) : option IncrementalSource :=
  match d with
  | incrementalData s _ => Some s
  | _ => None
  end.

(** ** Options ([recordOptions]) *)

(** [MaskInputOptions] of the serializer: a partial map from the kind of
    an input to a flag. *)
Abbreviation MaskInputOptions := (gmap string bool).

(** The consumer callback is a host function; only its presence matters
    to the recorder, its invocations are recorded in the trace. *)
Inductive callback : Set := HostFunction (name : string).

Record recordOptions : Type := mkOptions {
  emit : option callback;
  checkoutEveryNms : option Z;
  checkoutEveryNth : option Z;
  maskAllInputs : option bool;
  maskInputOptions : option MaskInputOptions;
  packFn : option (eventWithTime -> string)
}.

(** What the consumer receives: the event itself, or its packed form. *)
Inductive emitted : Type :=
| Plain (e : eventWithTime)
| Packed (s : string).

(** ** Mutation buffers ([./observer]) *)

(** Modelled from the spec: the [MutationBuffer] class of [./observer] is
    not part of the sources at hand.  Section 4.2 gives its state: active
    or paused ([frozen]), unlocked or [locked], and a queue of detected
    mutations that are withheld, oldest first. *)
Record MutationBuffer : Type := mkBuffer {
  frozen : bool;
  locked : bool;
  pending : list string
}.

(** ** The host and the world *)

Inductive ReadyState : Set := loading | interactive | complete.

(** The host environment the recorder reads from.  [dateNow k] is the
    value of the [k]-th call of [Date.now()], [snapshotResult k] the pair
    returned by the [k]-th call of the serializer. *)
Record Host : Type := mkHost {
  dateNow : nat -> Z;
  snapshotResult : nat -> option serializedNode * idNodeMap;
  location_href : string;
  windowWidth : Z;
  windowHeight : Z;
  pageXOffset : option Z;
  pageYOffset : option Z;
  documentElement_scrollLeft : Z;
  documentElement_scrollTop : Z;
  body_parentElement_scrollLeft : option Z;
  body_parentElement_scrollTop : option Z;
  body_scrollLeft : Z;
  body_scrollTop : Z;
  readyState : ReadyState
}.

(** A [listenerHandler]: the detach function returned by [on] or by
    [initObservers]. *)
Inductive listenerHandler : Set :=
| removeListener (eventName : string)
| detachObservers (doc : nat).

(** Everything observable that the recorder does, in program order. *)
Inductive Effect : Type :=
| EOnEmit (payload : emitted) (isCheckout : option bool)
| EFreeze (i : nat)
| EUnfreeze (i : nat)
| ELock (i : nat)
| EUnlock (i : nat)
| ESnapshot (call : nat)
| ESetMirror (m : idNodeMap)
| EWarn (msg : string).

Record World : Type := mkWorld {
  (* host counters *)
  clockReads : nat;
  snapshotCalls : nat;
  (* module state of ./observer and ../utils *)
  mutationBuffers : list MutationBuffer;
  mirror_map : idNodeMap;
  (* host registrations made by the recorder *)
  listeners : gset string;
  observed : gset nat;
  (* module state of index.ts *)
  recorder : option recordOptions;
  (* the live Recorder instance *)
  recording : bool;
  lastFullSnapshotEvent : option eventWithTime;
  incrementalSnapshotCount : Z;
  handlers : list listenerHandler;
  (* effects so far *)
  trace : list Effect
}.

(** A freshly loaded module: nothing registered, no recorder. *)
Definition freshWorld : World :=
  {| clockReads := 0; snapshotCalls := 0;
     mutationBuffers := []; mirror_map := ∅;
     listeners := ∅; observed := ∅;
     recorder := None;
     recording := false; lastFullSnapshotEvent := None;
     incrementalSnapshotCount := 0; handlers := [];
     trace := [] |}.

Definition set_clockReads (n : nat) (w : World) : World :=
  {| clockReads := n; snapshotCalls := snapshotCalls w;
     mutationBuffers := mutationBuffers w; mirror_map := mirror_map w;
     listeners := listeners w; observed := observed w;
     recorder := recorder w;
     recording := recording w;
     lastFullSnapshotEvent := lastFullSnapshotEvent w;
     incrementalSnapshotCount := incrementalSnapshotCount w;
     handlers := handlers w; trace := trace w |}.

Definition set_snapshotCalls (n : nat) (w : World) : World :=
  {| clockReads := clockReads w; snapshotCalls := n;
     mutationBuffers := mutationBuffers w; mirror_map := mirror_map w;
     listeners := listeners w; observed := observed w;
     recorder := recorder w;
     recording := recording w;
     lastFullSnapshotEvent := lastFullSnapshotEvent w;
     incrementalSnapshotCount := incrementalSnapshotCount w;
     handlers := handlers w; trace := trace w |}.

Definition set_mutationBuffers (bs : list MutationBuffer) (w : World) : World :=
  {| clockReads := clockReads w; snapshotCalls := snapshotCalls w;
     mutationBuffers := bs; mirror_map := mirror_map w;
     listeners := listeners w; observed := observed w;
     recorder := recorder w;
     recording := recording w;
     lastFullSnapshotEvent := lastFullSnapshotEvent w;
     incrementalSnapshotCount := incrementalSnapshotCount w;
     handlers := handlers w; trace := trace w |}.

Definition set_mirror_map (m : idNodeMap) (w : World) : World :=
  {| clockReads := clockReads w; snapshotCalls := snapshotCalls w;
     mutationBuffers := mutationBuffers w; mirror_map := m;
     listeners := listeners w; observed := observed w;
     recorder := recorder w;
     recording := recording w;
     lastFullSnapshotEvent := lastFullSnapshotEvent w;
     incrementalSnapshotCount := incrementalSnapshotCount w;
     handlers := handlers w; trace := trace w |}.

Definition set_listeners (l : gset string) (w : World) : World :=
  {| clockReads := clockReads w; snapshotCalls := snapshotCalls w;
     mutationBuffers := mutationBuffers w; mirror_map := mirror_map w;
     listeners := l; observed := observed w;
     recorder := recorder w;
     recording := recording w;
     lastFullSnapshotEvent := lastFullSnapshotEvent w;
     incrementalSnapshotCount := incrementalSnapshotCount w;
     handlers := handlers w; trace := trace w |}.

Definition set_observed (o : gset nat) (w : World) : World :=
  {| clockReads := clockReads w; snapshotCalls := snapshotCalls w;
     mutationBuffers := mutationBuffers w; mirror_map := mirror_map w;
     listeners := listeners w; observed := o;
     recorder := recorder w;
     recording := recording w;
     lastFullSnapshotEvent := lastFullSnapshotEvent w;
     incrementalSnapshotCount := incrementalSnapshotCount w;
     handlers := handlers w; trace := trace w |}.

Definition set_lastFullSnapshotEvent (e : option eventWithTime) (w : World) : World :=
  {| clockReads := clockReads w; snapshotCalls := snapshotCalls w;
     mutationBuffers := mutationBuffers w; mirror_map := mirror_map w;
     listeners := listeners w; observed := observed w;
     recorder := recorder w;
     recording := recording w;
     lastFullSnapshotEvent := e;
     incrementalSnapshotCount := incrementalSnapshotCount w;
     handlers := handlers w; trace := trace w |}.

Definition set_incrementalSnapshotCount (n : Z) (w : World) : World :=
  {| clockReads := clockReads w; snapshotCalls := snapshotCalls w;
     mutationBuffers := mutationBuffers w; mirror_map := mirror_map w;
     listeners := listeners w; observed := observed w;
     recorder := recorder w;
     recording := recording w;
     lastFullSnapshotEvent := lastFullSnapshotEvent w;
     incrementalSnapshotCount := n;
     handlers := handlers w; trace := trace w |}.

Definition set_handlers (hs : list listenerHandler) (w : World) : World :=
  {| clockReads := clockReads w; snapshotCalls := snapshotCalls w;
     mutationBuffers := mutationBuffers w; mirror_map := mirror_map w;
     listeners := listeners w; observed := observed w;
     recorder := recorder w;
     recording := recording w;
     lastFullSnapshotEvent := lastFullSnapshotEvent w;
     incrementalSnapshotCount := incrementalSnapshotCount w;
     handlers := hs; trace := trace w |}.

Definition set_trace (t : list Effect) (w : World) : World :=
  {| clockReads := clockReads w; snapshotCalls := snapshotCalls w;
     mutationBuffers := mutationBuffers w; mirror_map := mirror_map w;
     listeners := listeners w; observed := observed w;
     recorder := recorder w;
     recording := recording w;
     lastFullSnapshotEvent := lastFullSnapshotEvent w;
     incrementalSnapshotCount := incrementalSnapshotCount w;
     handlers := handlers w; trace := t |}.

(** [recorder = new Recorder(emit, options)]: the module variable is
    overwritten and the instance starts with its field initialisers
    ([recording = false], [incrementalSnapshotCount = 0],
    [lastFullSnapshotEvent] declared without a value). *)
Definition set_newRecorder (o : recordOptions) (w : World) : World :=
  {| clockReads := clockReads w; snapshotCalls := snapshotCalls w;
     mutationBuffers := mutationBuffers w; mirror_map := mirror_map w;
     listeners := listeners w; observed := observed w;
     recorder := Some o;
     recording := false;
     lastFullSnapshotEvent := None;
     incrementalSnapshotCount := 0;
     handlers := handlers w; trace := trace w |}.

(** ** The monad of recorder computations *)

Inductive JsError : Set :=
| Error (message : string)
| TypeError (message : string).

(** A computation returns, throws, or runs out of fuel. *)
Inductive Outcome (A : Type) : Type :=
| Done (a : A) (w : World)
| Throws (err : JsError) (w : World)
| OutOfFuel.

Arguments Done {A} a w.
Arguments Throws {A} err w.
Arguments OutOfFuel {A}.

Definition M (A : Type) : Type := World -> Outcome A.

Global Instance M_ret : MRet M := λ A a w, Done a w.

Global Instance M_bind : MBind M := λ A B k m w,
  match m w with
  | Done a w' => k a w'
  | Throws err w' => Throws err w'
  | OutOfFuel => OutOfFuel
  end.

Definition throw {A : Type} (err : JsError) : M A := λ w, Throws err w.

(** [try { m } catch (error) { h error }]. *)
Definition tryCatch {A : Type} (m : M A) (h : JsError -> M A) : M A := λ w,
  match m w with
  | Throws err w' => h err w'
  | r => r
  end.

Definition gets {A : Type} (f : World -> A) : M A := λ w, Done (f w) w.

Definition modify (f : World -> World) : M unit := λ w, Done tt (f w).

Definition perform (eff : Effect) : M unit :=
  modify (λ w, set_trace (trace w ++ [eff]) w).

(** [xs.forEach(f)]. *)
Fixpoint forEach {A : Type} (f : A -> M unit) (xs : list A) : M unit :=
  match xs with
  | [] => mret tt
  | x :: xs' => f x ;; forEach f xs'
  end.

(** The final world of an outcome, when there is one. *)
Definition finalWorld {A : Type} (r : Outcome A) : option World :=
  match r with
  | Done _ w => Some w
  | Throws _ w => Some w
  | OutOfFuel => None
  end.

(** ** Mutation buffer operations ([./observer]) *)

Definition setFrozen (v : bool) (b : MutationBuffer) : MutationBuffer :=
  {| frozen := v; locked := locked b; pending := pending b |}.

Definition setLocked (v : bool) (b : MutationBuffer) : MutationBuffer :=
  {| frozen := frozen b; locked := v; pending := pending b |}.

Definition setPending (q : list string) (b : MutationBuffer) : MutationBuffer :=
  {| frozen := frozen b; locked := locked b; pending := q |}.

(** In-place update of [mutationBuffers[i]]. *)
Definition updateBuffer (i : nat) (f : MutationBuffer -> MutationBuffer) : M unit :=
  modify (λ w, set_mutationBuffers (alter f i (mutationBuffers w)) w).

(** [mutationBuffers.forEach(f)]: the indices present when the loop
    starts, each buffer read from the array when its turn comes. *)
Definition forEachBuffer (f : nat -> M unit) : M unit := λ w,
  forEach f (seq 0 (length (mutationBuffers w))) w.

(** Modelled from the spec: [MutationBuffer.isFrozen] of [./observer]. *)
Definition isFrozen (b : MutationBuffer) : bool := frozen b.

(** Modelled from the spec: [MutationBuffer.freeze] of [./observer]; the
    buffer becomes paused. *)
Definition freeze (i : nat) : M unit :=
  updateBuffer i (setFrozen true) ;; perform (EFreeze i).

(** Modelled from the spec: [MutationBuffer.lock] of [./observer]; the
    buffer becomes serialize-locked. *)
Definition lock (i : nat) : M unit :=
  updateBuffer i (setLocked true) ;; perform (ELock i).

(** [mutationBuffers[0]?.isFrozen()], [undefined] being falsy. *)
Definition mainBufferFrozen (w : World) : bool :=
  match mutationBuffers w !! 0 with
  | Some b => isFrozen b
  | None => false
  end.

(** ** The recorder ([Recorder], for given constructor options) *)

Section Recorder.

Variable host : Host.
Variable options : recordOptions.

(** [Date.now()]. *)
Definition now : M Z := λ w,
  Done (dateNow host (clockReads w)) (set_clockReads (S (clockReads w)) w).

(** [wrapEvent(e)]: [{...e, timestamp: Date.now()}]. *)
Definition wrapEvent (e : event) : M eventWithTime :=
  t ← now; mret {| event_of := e; timestamp := t |}.

(** [_ || _] on numbers, [0] being falsy. *)
Definition orZ (a b : Z) : Z := if decide (a = 0%Z) then b else a.

(** [initialOffset.left] of [takeFullSnapshot]; an absent
    [parentElement] yields [undefined], which is falsy. *)
Definition initialOffset_left : Z :=
  match pageXOffset host with
  | Some x => x
  | None =>
      orZ (documentElement_scrollLeft host)
        (orZ (default 0%Z (body_parentElement_scrollLeft host))
           (orZ (body_scrollLeft host) 0%Z))
  end.

Definition initialOffset_top : Z :=
  match pageYOffset host with
  | Some y => y
  | None =>
      orZ (documentElement_scrollTop host)
        (orZ (default 0%Z (body_parentElement_scrollTop host))
           (orZ (body_scrollTop host) 0%Z))
  end.

(** [snapshot(document, ...)]: the serializer is called and answers
    with a node (or none) and an identity registry. *)
Definition snapshot : M (option serializedNode * idNodeMap) := λ w,
  let k := snapshotCalls w in
  Done (snapshotResult host k)
    (set_trace (trace w ++ [ESnapshot k]) (set_snapshotCalls (S k) w)).

(** [(packFn ? packFn(e) : e)]. *)
Definition delivered (e : eventWithTime) : emitted :=
  match packFn options with
  | Some pack => Packed (pack e)
  | None => Plain e
  end.

(** [onEmit((packFn ? packFn(e) : e), isCheckout)]. *)
Definition onEmit (e : eventWithTime) (isCheckout : option bool) : M unit :=
  perform (EOnEmit (delivered e) isCheckout).

(** The condition under which [wrappedEmit] resumes the buffers. *)
Definition resumes (e : eventWithTime) (w : World) : bool :=
  mainBufferFrozen w
  && negb (bool_decide (type e = FullSnapshot))
  && negb (bool_decide (type e = IncrementalSnapshot)
           && bool_decide (source (data e) = Some Mutation)).

(** [checkoutEveryNth && incrementalSnapshotCount >= checkoutEveryNth]. *)
Definition exceedCount (count : Z) : bool :=
  match checkoutEveryNth options with
  | Some n => negb (bool_decide (n = 0%Z)) && bool_decide (n ≤ count)%Z
  | None => false
  end.

(** [checkoutEveryNms &&
     e.timestamp - lastFullSnapshotEvent.timestamp > checkoutEveryNms];
    reading [timestamp] of [undefined] throws. *)
Definition exceedTime (e : eventWithTime) : M bool :=
  match checkoutEveryNms options with
  | Some ms =>
      if decide (ms = 0%Z) then mret false
      else
        last ← gets lastFullSnapshotEvent;
        match last with
        | Some l => mret (bool_decide (ms < timestamp e - timestamp l)%Z)
        | None =>
            throw (TypeError "Cannot read property 'timestamp' of undefined")
        end
  | None => mret false
  end.

Definition mutationEvent (m : string) : event :=
  {| type := IncrementalSnapshot; data := incrementalData Mutation m |}.

(** The bodies of the two mutually recursive paths, [wrappedEmit] and a
    buffer's flush, over the functions they re-enter. *)
Section Bodies.

Variable wrappedEmit_rec : eventWithTime -> option bool -> M unit.
Variable bufferEmit_rec : nat -> M unit.

(** The [mutationCb] given to [initObservers] and to the
    [IframeManager]. *)
Definition mutationCb (m : string) : M unit :=
  e ← wrapEvent (mutationEvent m); wrappedEmit_rec e None.

(** Modelled from the spec: [MutationBuffer.emit] of [./observer].  A
    buffer forwards nothing while it is paused or locked; otherwise
    it drains its queue, oldest mutation first, through
    [mutationCb]. *)
Definition bufferEmit_body (i : nat) : M unit := λ w,
  match mutationBuffers w !! i with
  | Some b =>
      if frozen b || locked b then Done tt w
      else
        match pending b with
        | [] => Done tt w
        | m :: q =>
            (updateBuffer i (setPending q) ;;
             mutationCb m ;;
             bufferEmit_rec i) w
        end
  | None => Done tt w
  end.

(** Modelled from the spec: [MutationBuffer.unfreeze] of [./observer];
    the buffer becomes active again and flushes. *)
Definition unfreeze (i : nat) : M unit :=
  updateBuffer i (setFrozen false) ;; perform (EUnfreeze i) ;; bufferEmit_rec i.

(** Modelled from the spec: [MutationBuffer.unlock] of [./observer];
    the lock lifts and the buffer flushes. *)
Definition unlock (i : nat) : M unit :=
  updateBuffer i (setLocked false) ;; perform (EUnlock i) ;; bufferEmit_rec i.

(** The body of [takeFullSnapshot(isCheckout)]; the failure branch is
    [return console.warn('Failed to snapshot the document')]. *)
Definition takeFullSnapshot_body (isCheckout : bool) : M unit :=
  e ← wrapEvent {| type := Meta;
                   data := metaData (location_href host)
                             (windowWidth host) (windowHeight host) |};
  wrappedEmit_rec e (Some isCheckout) ;;
  forEachBuffer lock ;;
  r ← snapshot;
  match r with
  | (None, _) => perform (EWarn "Failed to snapshot the document")
  | (Some node, idNodeMap) =>
      modify (set_mirror_map idNodeMap) ;;
      perform (ESetMirror idNodeMap) ;;
      e ← wrapEvent {| type := FullSnapshot;
                       data := fullSnapshotData node
                                 initialOffset_left initialOffset_top |};
      wrappedEmit_rec e None ;;
      forEachBuffer unlock
  end.

(** The statements of [wrappedEmit] that follow the call of
    [onEmit]: the bookkeeping of the checkout cadence. *)
Definition checkoutBookkeeping (e : eventWithTime) : M unit :=
  if decide (type e = FullSnapshot) then
    modify (set_lastFullSnapshotEvent (Some e)) ;;
    modify (set_incrementalSnapshotCount 0)
  else if decide (type e = IncrementalSnapshot) then
    modify (λ w, set_incrementalSnapshotCount
                   (incrementalSnapshotCount w + 1) w) ;;
    count ← gets incrementalSnapshotCount;
    exceedT ← exceedTime e;
    if exceedCount count || exceedT then takeFullSnapshot_body true
    else mret tt
  else mret tt.

(** The body of [this.wrappedEmit = (e, isCheckout) => ...]. *)
Definition wrappedEmit_body (e : eventWithTime) (isCheckout : option bool)
  : M unit :=
  doResume ← gets (resumes e);
  (if doResume : bool then forEachBuffer unfreeze else mret tt) ;;
  onEmit e isCheckout ;;
  checkoutBookkeeping e.

End Bodies.

(** [this.wrappedEmit] and the flush of a buffer; the fuel bounds the
    depth of re-entrance. *)
Fixpoint wrappedEmit (fuel : nat) : eventWithTime -> option bool -> M unit :=
  match fuel with
  | O => λ _ _ _, OutOfFuel
  | S f => wrappedEmit_body (wrappedEmit f) (bufferEmit f)
  end
with bufferEmit (fuel : nat) : nat -> M unit :=
  match fuel with
  | O => λ _ _, OutOfFuel
  | S f => bufferEmit_body (wrappedEmit f) (bufferEmit f)
  end.

(** [Recorder.takeFullSnapshot(isCheckout = false)]. *)
Definition takeFullSnapshot (fuel : nat) (isCheckout : bool) : M unit :=
  takeFullSnapshot_body (wrappedEmit fuel) (bufferEmit fuel) isCheckout.

(** A detector callback of [Recorder.observe] other than [mutationCb]:
    [(p) => this.wrappedEmit(wrapEvent({type: IncrementalSnapshot,
    data: {source, ...p}}))]. *)
Definition detectorCb (fuel : nat) (src : IncrementalSource) (p : string)
  : M unit :=
  e ← wrapEvent {| type := IncrementalSnapshot; data := incrementalData src p |};
  wrappedEmit fuel e None.

(** Modelled from the spec: the mutation detector of [./observer] hands a
    detected mutation to the buffer of its document, which queues it
    behind the ones it withholds and forwards what it may. *)
Definition detectMutation (fuel : nat) (i : nat) (m : string) : M unit :=
  updateBuffer i (λ b, setPending (pending b ++ [m]) b) ;;
  bufferEmit fuel i.

(** Modelled from the spec: [on] of [../utils] registers a listener and
    returns the function that removes it. *)
Definition on (eventName : string) : M listenerHandler :=
  modify (λ w, set_listeners ({[eventName]} ∪ listeners w) w) ;;
  mret (removeListener eventName).

(** Modelled from the spec: [initObservers] of [./observer] attaches a
    fresh mutation buffer and the change detectors to a document and
    returns their detach function. *)
Definition initObservers (doc : nat) : M listenerHandler :=
  modify (λ w, set_mutationBuffers
                 (mutationBuffers w ++ [mkBuffer false false []]) w) ;;
  modify (λ w, set_observed ({[doc]} ∪ observed w) w) ;;
  mret (detachObservers doc).

(** [this.observe(doc)]. *)
Definition observe (doc : nat) : M listenerHandler := initObservers doc.

(** Modelled from the spec: calling a detach function removes what was
    registered. *)
Definition callHandler (h : listenerHandler) : M unit :=
  match h with
  | removeListener n => modify (λ w, set_listeners (listeners w ∖ {[n]}) w)
  | detachObservers d => modify (λ w, set_observed (observed w ∖ {[d]}) w)
  end.

(** [handlers.push(h)]. *)
Definition pushHandler (h : listenerHandler) : M unit :=
  modify (λ w, set_handlers (handlers w ++ [h]) w).

(** The main document is document [0]. *)
Definition document : nat := 0.

(** [init] of [Recorder.record]. *)
Definition init (fuel : nat) : M unit :=
  takeFullSnapshot fuel false ;;
  h ← observe document; pushHandler h.

(** The listener of [DOMContentLoaded]. *)
Definition domContentLoadedListener (fuel : nat) : M unit :=
  e ← wrapEvent {| type := DomContentLoaded; data := emptyData |};
  wrappedEmit fuel e None.

(** The listener of [load] on the window. *)
Definition loadListener (fuel : nat) : M unit :=
  e ← wrapEvent {| type := Load; data := emptyData |};
  wrappedEmit fuel e None ;;
  init fuel.

(** The callback given to [iframeManager.addLoadListener]. *)
Definition iframeLoadListener (contentDocument : nat) : M unit :=
  h ← observe contentDocument; pushHandler h.

(** The function returned by [Recorder.record]:
    [() => { handlers.forEach((h) => h()); }]. *)
Definition disposer : M unit :=
  hs ← gets handlers; forEach callHandler hs.

Definition errorMessage (err : JsError) : string :=
  match err with
  | Error m => ("Error: " ++ m)%string
  | TypeError m => ("TypeError: " ++ m)%string
  end.

(** [Recorder.record()]; the result is the disposer, or [undefined]
    when the body threw.  [iframeManager.addLoadListener] only stores its
    callback, [iframeLoadListener]. *)
Definition Recorder_record (fuel : nat) : M (option (M unit)) :=
  tryCatch
    (modify (set_handlers []) ;;
     h ← on "DOMContentLoaded"; pushHandler h ;;
     (match readyState host with
      | interactive | complete => init fuel
      | loading => h ← on "load"; pushHandler h
      end) ;;
     mret (Some disposer))
    (λ error, perform (EWarn (errorMessage error)) ;; mret None).

(** [Recorder.addCustomEvent(tag, payload)]. *)
Definition Recorder_addCustomEvent (fuel : nat) (tag payload : string)
  : M unit :=
  isRecording ← gets recording;
  if negb isRecording then
    throw (Error "please add custom event after start recording")
  else
    e ← wrapEvent {| type := Custom; data := customData tag payload |};
    wrappedEmit fuel e None.

(** [Recorder.freezePage()]. *)
Definition Recorder_freezePage : M unit := forEachBuffer freeze.

End Recorder.

(** ** The constructor's option handling *)

(** The object literal of the constructor that masks every input kind. *)
Definition maskEveryInput : MaskInputOptions :=
  list_to_map
    [("color", true); ("date", true); ("datetime-local", true);
     ("email", true); ("month", true); ("number", true); ("range", true);
     ("search", true); ("tel", true); ("text", true); ("time", true);
     ("url", true); ("week", true); ("textarea", true); ("select", true)].

(** The constant [maskInputOptions] of the constructor. *)
Definition Recorder_maskInputOptions (o : recordOptions) : MaskInputOptions :=
  if decide (maskAllInputs o = Some true) then maskEveryInput
  else
    match maskInputOptions o with
    | Some given => given
    | None => ∅
    end.

(** Whether values of inputs of a kind are masked: [maskInputOptions[kind]],
    an absent key being falsy. *)
Definition masks (m : MaskInputOptions) (kind : string) : bool :=
  default false (m !! kind).

(** ** The module-level entry points *)

(** [record(options)]. *)
Definition record (host : Host) (fuel : nat) (options : recordOptions)
  : M (option (M unit)) :=
  match emit options with
  | None => throw (Error "emit function is required")
  | Some _ =>
      modify (set_newRecorder options) ;;
      Recorder_record host options fuel
  end.

(** [record.addCustomEvent(tag, payload)]. *)
Definition record_addCustomEvent (host : Host) (fuel : nat)
  (tag payload : string) : M unit :=
  r ← gets recorder;
  match r with
  | None => throw (Error "please add custom event after start recording")
  | Some options => Recorder_addCustomEvent host options fuel tag payload
  end.

(** [record.freezePage()]. *)
Definition record_freezePage : M unit :=
  r ← gets recorder;
  match r with
  | None => throw (TypeError "Cannot read property 'freezePage' of undefined")
  | Some _ => Recorder_freezePage
  end.

(** ** Fuel *)

(** The number of mutations withheld by all buffers: every re-entrance
    of the emit pipeline consumes one of them. *)
Definition totalPending (w : World) : nat :=
  sum_list ((λ b, length (pending b)) <$> mutationBuffers w).

(** Fuel that suffices for any call in a world. *)
Definition enoughFuel (w : World) : nat := 3 * totalPending w + 4.

(** ** Worlds along the way *)

Section Worlds.

Variable host : Host.
Variable options : recordOptions.

(** The world once every buffer has been locked. *)
Definition lockedWorld (w : World) : World :=
  set_trace (trace w ++ (ELock <$> seq 0 (length (mutationBuffers w))))
    (set_mutationBuffers (setLocked true <$> mutationBuffers w) w).

(** The world once [onEmit] has been called. *)
Definition emittedWorld (e : eventWithTime) (c : option bool) (w : World) : World :=
  set_trace (trace w ++ [EOnEmit (delivered options e) c]) w.

Definition metaEvent (t : Z) : eventWithTime :=
  {| event_of := {| type := Meta;
                    data := metaData (location_href host)
                              (windowWidth host) (windowHeight host) |};
     timestamp := t |}.

Definition fullSnapshotEvent (node : serializedNode) (t : Z) : eventWithTime :=
  {| event_of := {| type := FullSnapshot;
                    data := fullSnapshotData node (initialOffset_left host)
                              (initialOffset_top host) |};
     timestamp := t |}.

(** The world once the [Meta] event of a checkpoint has been emitted
    while the main buffer is active. *)
Definition metaEmittedWorld (c : bool) (w : World) : World :=
  emittedWorld (metaEvent (dateNow host (clockReads w))) (Some c)
    (set_clockReads (S (clockReads w)) w).

(** From the world [w1] in which the [Meta] event has been emitted: the
    world once the buffers are locked and the serializer has been
    called. *)
Definition serializingWorld (w1 : World) : World :=
  let w2 := lockedWorld w1 in
  set_trace (trace w2 ++ [ESnapshot (snapshotCalls w1)])
    (set_snapshotCalls (S (snapshotCalls w1)) w2).

(** And the world once the registry is installed and the [FullSnapshot]
    event has been emitted, before the locks are released. *)
Definition snapshotEmittedWorld (node : serializedNode) (m : idNodeMap)
  (w1 : World) : World :=
  let w3 := set_trace (trace (serializingWorld w1) ++ [ESetMirror m])
              (set_mirror_map m (serializingWorld w1)) in
  let e := fullSnapshotEvent node (dateNow host (clockReads w1)) in
  set_incrementalSnapshotCount 0
    (set_lastFullSnapshotEvent (Some e)
       (emittedWorld e None (set_clockReads (S (clockReads w1)) w3))).

(** The world once an incremental snapshot has reached the consumer and
    has been counted. *)
Definition countedWorld (e : eventWithTime) (c : option bool) (w : World) : World :=
  set_incrementalSnapshotCount (incrementalSnapshotCount w + 1)
    (emittedWorld e c w).

End Worlds.

(** The world in which [Recorder.record] reaches its [readyState] test:
    the handler list is fresh and holds the remover of the
    [DOMContentLoaded] listener. *)
Definition startWorld (w : World) : World :=
  set_handlers [removeListener "DOMContentLoaded"]
    (set_listeners ({["DOMContentLoaded"]} ∪ listeners w) (set_handlers [] w)).

(** The world after [handlers.push(this.observe(document))]. *)
Definition observedWorld (w : World) : World :=
  set_handlers (handlers w ++ [detachObservers document])
    (set_observed ({[document]} ∪ observed w)
       (set_mutationBuffers (mutationBuffers w ++ [mkBuffer false false []]) w)).

(** The world after [handlers.push(on('load', ..., window))]. *)
Definition loadingWorld (w : World) : World :=
  set_handlers (handlers w ++ [removeListener "load"])
    (set_listeners ({["load"]} ∪ listeners w) w).

Definition documentReady (host : Host) : bool :=
  match readyState host with
  | loading => false
  | interactive | complete => true
  end.

(** ** What the disposer detaches *)

(** The listener names and the documents that a list of handlers
    detaches. *)
Fixpoint removedNames (hs : list listenerHandler) : gset string :=
  match hs with
  | [] => ∅
  | removeListener n :: hs' => {[n]} ∪ removedNames hs'
  | detachObservers _ :: hs' => removedNames hs'
  end.

Fixpoint detachedDocs (hs : list listenerHandler) : gset nat :=
  match hs with
  | [] => ∅
  | removeListener _ :: hs' => detachedDocs hs'
  | detachObservers d :: hs' => {[d]} ∪ detachedDocs hs'
  end.

(** The world once every handler of [hs] has been called. *)
Definition detach (hs : list listenerHandler) (w : World) : World :=
  set_observed (observed w ∖ detachedDocs hs)
    (set_listeners (listeners w ∖ removedNames hs) w).

(** [m] called [k] times in a row. *)
Definition callTimes (k : nat) (m : M unit) : M unit :=
  forEach (λ _, m) (seq 0 k).

(** ** The input kinds *)

(** The input kinds that [MaskInputOptions] knows. *)
Definition inputKinds : list string :=
  ["color"; "date"; "datetime-local"; "email"; "month"; "number"; "range";
   "search"; "tel"; "text"; "time"; "url"; "week"; "textarea"; "select"].

(** ** Vocabulary of the proofs *)

(** A buffer after a call, compared with the buffer before: it was not
    paused by the call, and what it still withholds is the tail of what
    it withheld. *)
Definition bufferShrinks (b b' : MutationBuffer) : Prop :=
  (frozen b' = true → frozen b = true) ∧ pending b' `suffix_of` pending b.

(** The way the emit pipeline and a flush change the world: effects are
    appended to the trace, the buffers stay in place and only shrink,
    a stored last full snapshot stays defined, and nothing else of the
    recorder or of the registrations is touched. *)
Record extends (w w' : World) : Prop := mkExtends {
  ext_trace : trace w `prefix_of` trace w';
  ext_buffers : Forall2 bufferShrinks (mutationBuffers w) (mutationBuffers w');
  ext_last : is_Some (lastFullSnapshotEvent w) → is_Some (lastFullSnapshotEvent w');
  ext_clock : (clockReads w ≤ clockReads w')%nat;
  ext_snapshots : (snapshotCalls w ≤ snapshotCalls w')%nat;
  ext_recording : recording w' = recording w;
  ext_recorder : recorder w' = recorder w;
  ext_handlers : handlers w' = handlers w;
  ext_listeners : listeners w' = listeners w;
  ext_observed : observed w' = observed w
}.

(** A computation whose every outcome is an extension of the world it
    started in. *)
Definition preserves {A : Type} (m : M A) : Prop :=
  ∀ w, match finalWorld (m w) with Some w' => extends w w' | None => True end.

(** ** Outcomes that a computation avoids *)

Inductive Failure : Set := RunsOutOfFuel | ThrowsError.

Definition fails {A : Type} (k : Failure) (r : Outcome A) : Prop :=
  match k, r with
  | RunsOutOfFuel, OutOfFuel => True
  | ThrowsError, Throws _ _ => True
  | _, _ => False
  end.

(** [avoids k I m]: started in a world that satisfies [I], the
    computation [m] does not fail in the way [k]. *)
Definition avoids {A : Type} (k : Failure) (I : World → Prop) (m : M A) : Prop :=
  ∀ w, I w → ¬ fails k (m w).

(** A condition on worlds that extensions keep. *)
Definition stable (I : World → Prop) : Prop :=
  ∀ w w', extends w w' → I w → I w'.

(** The fuel [n] covers [c] levels of calls on top of three for each
    mutation that the buffers withhold. *)
Definition fuelCovers (c n : nat) (w : World) : Prop :=
  (3 * totalPending w + c ≤ n)%nat.

(** [refines m1 m2]: wherever [m1] does not run out of fuel, [m2] gives
    the same outcome. *)
Definition refines {A : Type} (m1 m2 : M A) : Prop :=
  ∀ w, m1 w ≠ OutOfFuel → m2 w = m1 w.

(** The time-based cadence can be evaluated: it is switched off, or a
    last full snapshot is stored. *)
Definition cadenceSafe (options : recordOptions) (w : World) : Prop :=
  checkoutEveryNms options = None ∨ checkoutEveryNms options = Some 0%Z ∨
  is_Some (lastFullSnapshotEvent w).

(** Buffer [i], if there is one, is active. *)
Definition activeAt (i : nat) (w : World) : Prop :=
  ∀ b, mutationBuffers w !! i = Some b → frozen b = false.

(** ** Concrete pages, options and worlds *)

(** A page with a given clock and serializer. *)
Definition pageWithClock (clock : nat → Z)
  (serializer : nat → option serializedNode * idNodeMap)
  (state : ReadyState) : Host :=
  {| dateNow := clock;
     snapshotResult := serializer;
     location_href := "https://example.org/";
     windowWidth := 1280; windowHeight := 720;
     pageXOffset := Some 0%Z; pageYOffset := Some 0%Z;
     documentElement_scrollLeft := 0; documentElement_scrollTop := 0;
     body_parentElement_scrollLeft := None;
     body_parentElement_scrollTop := None;
     body_scrollLeft := 0; body_scrollTop := 0;
     readyState := state |}.

(** A page whose clock advances by ten milliseconds per reading. *)
Definition page : (nat → option serializedNode * idNodeMap) → ReadyState → Host :=
  pageWithClock (λ k, (10 * Z.of_nat k)%Z).

Definition serializerWorks : nat → option serializedNode * idNodeMap :=
  λ _, (Some (SNode 1 "html" []), {[ 1%Z := "html" ]}).

Definition serializerFails : nat → option serializedNode * idNodeMap :=
  λ _, (None, ∅).

Definition consumer : callback := HostFunction "emit".

Definition plainOptions : recordOptions :=
  mkOptions (Some consumer) None None None None None.

(** Options with a time-based cadence of one second. *)
Definition everySecond : recordOptions :=
  mkOptions (Some consumer) (Some 1000%Z) None None None None.

(** Options with a count-based cadence. *)
Definition everyNth (n : Z) : recordOptions :=
  mkOptions (Some consumer) None (Some n) None None None.

(** An input event as the input detector's callback builds it. *)
Definition inputEvent (t : Z) : eventWithTime :=
  {| event_of := {| type := IncrementalSnapshot;
                    data := incrementalData Input "{}" |};
     timestamp := t |}.

(** A world in which the main document is being observed. *)
Definition observing : World := observedWorld freshWorld.

(** What an effect is, without its payload. *)
Inductive Step : Set :=
| Emits (ty : EventType) (isCheckout : option bool)
| EmitsPacked
| Pauses (i : nat)
| Resumes (i : nat)
| Locks (i : nat)
| Unlocks (i : nat)
| Serializes
| InstallsRegistry
| Warns.

Definition outline (eff : Effect) : Step :=
  match eff with
  | EOnEmit (Plain e) c => Emits (type e) c
  | EOnEmit (Packed _) _ => EmitsPacked
  | EFreeze i => Pauses i
  | EUnfreeze i => Resumes i
  | ELock i => Locks i
  | EUnlock i => Unlocks i
  | ESnapshot _ => Serializes
  | ESetMirror _ => InstallsRegistry
  | EWarn _ => Warns
  end.

(** The world of an outcome, or a default when there is none. *)
Definition worldOf {A : Type} (r : Outcome A) (d : World) : World :=
  default d (finalWorld r).

(** A world in which both the main document and an embedded one are
    observed, both buffers are paused and the main one withholds a
    mutation. *)
Definition pausedWorld : World :=
  set_mutationBuffers
    [mkBuffer true false ["childList"]; mkBuffer true false []] observing.

(** A world in which only the buffer of an embedded document is paused. *)
Definition embeddedPausedWorld : World :=
  set_mutationBuffers
    [mkBuffer false false []; mkBuffer true false ["childList"]] observing.

(** A session with a count-based cadence of one: the main document and
    an embedded one are observed, the page is frozen, a mutation of the
    main document is detected and withheld, then the user types. *)
Definition pausedSession : M unit :=
  record (page serializerWorks complete) 20 (everyNth 1) ;;
  iframeLoadListener 1 ;;
  Recorder_freezePage ;;
  detectMutation (page serializerWorks complete) (everyNth 1) 20 0 "childList" ;;
  detectorCb (page serializerWorks complete) (everyNth 1) 20 Input "{}".

(** A world with a stored full snapshot taken at time 10. *)
Definition snapshotTakenWorld : World :=
  set_lastFullSnapshotEvent
    (Some (fullSnapshotEvent (page serializerWorks complete)
             (SNode 1 "html" []) 10))
    observing.

(** A page whose third clock reading is exactly one second after its
    second. *)
Definition slowPage : Host :=
  pageWithClock (λ k, match k with O => 0%Z | S O => 10%Z | _ => 1010%Z end)
    serializerWorks complete.

(** ** The remaining options of the constructor *)

(** [SlimDOMOptions] of the serializer: a partial map from a kind of
    node to a flag. *)
Abbreviation SlimDOMOptions := (gmap string bool).

(** The values of the option [slimDOMOptions]: [true], ['all'], an
    object, or a falsy value. *)
Inductive slimDOMSetting : Type :=
| slimTrue
| slimAll
| slimObject (given : SlimDOMOptions)
| slimFalse.

(** A value of a key of [sampling]: [undefined] (a key may be present
    with this value), a number, or any other value. *)
Inductive samplingValue : Type :=
| SUndefined
| SNumber (n : Z)
| SOther (value : string).

Global Instance samplingValue_eq_dec : EqDecision samplingValue.
Proof. solve_decision. Defined.

(** [SamplingStrategy]: an object, from a kind of event to how it is
    sampled. *)
Abbreviation SamplingStrategy := (gmap string samplingValue).

(** A value of a key of [LogRecordOptions]: the levels, the length
    threshold, the logger (a host object), or [undefined]. *)
Inductive logValue : Type :=
| LUndefined
| LLevels (levels : list string)
| LNumber (n : Z)
| LLogger (name : string).

(** [LogRecordOptions]: an object with the keys [level],
    [lengthThreshold] and [logger], each of which may be absent. *)
Abbreviation LogRecordOptions := (gmap string logValue).

(** The values of the option [recordLog]: a boolean or an object. *)
Inductive recordLogSetting : Type :=
| logBool (b : bool)
| logObject (given : LogRecordOptions).

(** The keys of the options that the constructor reads besides those of
    [recordOptions] above; none of them enters the emit pipeline.  An
    absent key is [None]; the function-valued [maskInputFn] and [hooks]
    are handed on untouched and left out. *)
Record captureOptions : Type := mkCaptureOptions {
  blockClass : option string;
  blockSelector : option string;
  ignoreClass : option string;
  inlineStylesheet : option bool;
  slimDOMOptions : option slimDOMSetting;
  sampling : option SamplingStrategy;
  mousemoveWait : option Z;
  recordCanvas : option bool;
  collectFonts : option bool;
  recordLog : option recordLogSetting
}.

(** The object literal of the constructor for [slimDOMOptions === true]
    and [slimDOMOptions === 'all']. *)
Definition slimLiteral (all : bool) : SlimDOMOptions :=
  list_to_map
    [("script", true); ("comment", true); ("headFavicon", true);
     ("headWhitespace", true); ("headMetaSocial", true);
     ("headMetaRobots", true); ("headMetaHttpEquiv", true);
     ("headMetaVerification", true);
     ("headMetaAuthorship", all); ("headMetaDescKeywords", all)].

(** The constant [slimDOMOptions] of the constructor. *)
Definition Recorder_slimDOMOptions (c : captureOptions) : SlimDOMOptions :=
  match slimDOMOptions c with
  | Some slimTrue => slimLiteral false
  | Some slimAll => slimLiteral true
  | Some (slimObject given) => given
  | Some slimFalse | None => ∅
  end.

(** Whether nodes of a kind are dropped: [slimDOMOptions[kind]], an
    absent key being falsy. *)
Definition slims (m : SlimDOMOptions) (kind : string) : bool :=
  default false (m !! kind).

(** [o[key]]: reading a key that is absent yields [undefined]. *)
Definition readKey (o : SamplingStrategy) (key : string) : samplingValue :=
  default SUndefined (o !! key).

(** [sampling] once the deprecated [mousemoveWait] has been moved into
    it: [if (mousemoveWait !== undefined && sampling.mousemove ===
    undefined) sampling.mousemove = mousemoveWait]; [sampling] defaults
    to a fresh object.  The assignment updates the caller's object. *)
Definition Recorder_sampling (c : captureOptions) : SamplingStrategy :=
  let sampling := default ∅ (sampling c) in
  match mousemoveWait c with
  | Some wait =>
      if decide (readKey sampling "mousemove" = SUndefined)
      then <["mousemove" := SNumber wait]> sampling
      else sampling
  | None => sampling
  end.

(** [this.snapshotOptions]. *)
Record snapshotOptions : Type := mkSnapshotOptions {
  snapshot_blockClass : string;
  snapshot_inlineStylesheet : bool;
  snapshot_maskAllInputs : option bool;
  snapshot_slimDOM : SlimDOMOptions;
  snapshot_recordCanvas : bool;
  snapshot_blockSelector : option string
}.

Definition Recorder_snapshotOptions (o : recordOptions) (c : captureOptions)
  : snapshotOptions :=
  {| snapshot_blockClass := default "rr-block" (blockClass c);
     snapshot_inlineStylesheet := default true (inlineStylesheet c);
     snapshot_maskAllInputs := maskAllInputs o;
     snapshot_slimDOM := Recorder_slimDOMOptions c;
     snapshot_recordCanvas := default false (recordCanvas c);
     snapshot_blockSelector := blockSelector c |}.

(** [defaultLogOptions]. *)
Definition logLevels : list string :=
  ["assert"; "clear"; "count"; "countReset"; "debug"; "dir"; "dirxml";
   "error"; "group"; "groupCollapsed"; "groupEnd"; "info"; "log"; "table";
   "time"; "timeEnd"; "timeLog"; "trace"; "warn"].

Definition defaultLogOptions : LogRecordOptions :=
  list_to_map
    [("level", LLevels logLevels);
     ("lengthThreshold", LNumber 1000);
     ("logger", LLogger "console")].

(** [Object.assign(target, source)]: every own key of [source] is
    copied, with its value, over [target]. *)
Definition objectAssign (target source : LogRecordOptions) : LogRecordOptions :=
  source ∪ target.

(** The constant [logOptions] of the constructor; [recordLog] defaults to
    [false], and an object is truthy. *)
Definition Recorder_logOptions (c : captureOptions) : LogRecordOptions :=
  match default (logBool false) (recordLog c) with
  | logBool false => ∅
  | logBool true => defaultLogOptions
  | logObject given => objectAssign (objectAssign ∅ defaultLogOptions) given
  end.

(** The options among the arguments of [initObservers] in
    [Recorder.observe]. *)
Record observerOptions : Type := mkObserverOptions {
  observer_blockClass : string;
  observer_ignoreClass : string;
  observer_maskInputOptions : MaskInputOptions;
  observer_inlineStylesheet : bool;
  observer_sampling : SamplingStrategy;
  observer_recordCanvas : bool;
  observer_collectFonts : bool;
  observer_logOptions : LogRecordOptions;
  observer_blockSelector : option string;
  observer_slimDOMOptions : SlimDOMOptions
}.

Definition Recorder_observerOptions (o : recordOptions) (c : captureOptions)
  : observerOptions :=
  {| observer_blockClass := default "rr-block" (blockClass c);
     observer_ignoreClass := default "rr-ignore" (ignoreClass c);
     observer_maskInputOptions := Recorder_maskInputOptions o;
     observer_inlineStylesheet := default true (inlineStylesheet c);
     observer_sampling := Recorder_sampling c;
     observer_recordCanvas := default false (recordCanvas c);
     observer_collectFonts := default false (collectFonts c);
     observer_logOptions := Recorder_logOptions c;
     observer_blockSelector := blockSelector c;
     observer_slimDOMOptions := Recorder_slimDOMOptions c |}.

(** The keys of [LogRecordOptions]. *)
Definition logKeys : list string := ["level"; "lengthThreshold"; "logger"].

(** The kinds of node that [slimDOMOptions === true] drops, and the two
    more that only ['all'] drops. *)
Definition slimmedKinds : list string :=
  ["script"; "comment"; "headFavicon"; "headWhitespace"; "headMetaSocial";
   "headMetaRobots"; "headMetaHttpEquiv"; "headMetaVerification"].

Definition hiddenInfoKinds : list string :=
  ["headMetaAuthorship"; "headMetaDescKeywords"].

(** Options in which only [recordLog] is set. *)
Definition onlyRecordLog (l : recordLogSetting) : captureOptions :=
  mkCaptureOptions None None None None None None None None None (Some l).

(** ** Invariants of the emit pipeline *)

(** A computation whose every outcome, returned or thrown, is related to
    the world it started in. *)
Definition relates {A : Type} (R : World → World → Prop) (m : M A) : Prop :=
  ∀ w, match finalWorld (m w) with Some w' => R w w' | None => True end.

(** The world once [wrappedEmit] has called [onEmit] and has assigned
    its two variables, before it evaluates the cadence. *)
Definition bookkeptWorld (options : recordOptions) (e : eventWithTime)
  (c : option bool) (w : World) : World :=
  if decide (type e = FullSnapshot) then
    set_incrementalSnapshotCount 0
      (set_lastFullSnapshotEvent (Some e) (emittedWorld options e c w))
  else if decide (type e = IncrementalSnapshot) then countedWorld options e c w
  else emittedWorld options e c w.

(** A relation that every step of the emit pipeline keeps, for the
    emissions that [allowed] admits: it is a preorder, indifferent to the
    clock, the buffers, the registry and the serializer's call counter,
    kept by every effect that is not an emission, and kept by an
    emission together with its bookkeeping. *)
Record emitInvariant (host : Host) (options : recordOptions)
  (R : World → World → Prop)
  (allowed : eventWithTime → option bool → Prop) : Prop := mkEmitInvariant {
  inv_refl : ∀ w, R w w;
  inv_trans : ∀ w1 w2 w3, R w1 w2 → R w2 w3 → R w1 w3;
  inv_clock : ∀ w n, R w (set_clockReads n w);
  inv_buffers : ∀ w bs, R w (set_mutationBuffers bs w);
  inv_mirror : ∀ w m, R w (set_mirror_map m w);
  inv_snapshot : ∀ w n, R w (set_snapshotCalls n w);
  inv_effect : ∀ w eff, (∀ p c, eff ≠ EOnEmit p c) →
                        R w (set_trace (trace w ++ [eff]) w);
  inv_emit : ∀ e c w, allowed e c → R w (bookkeptWorld options e c w);
  inv_mutation : ∀ m t, allowed {| event_of := mutationEvent m; timestamp := t |} None;
  inv_meta : ∀ t, allowed (metaEvent host t) (Some true);
  inv_full : ∀ node t, allowed (fullSnapshotEvent host node t) None
}.

(** The counter and the stored full snapshot as the events handed to the
    consumer determine them. *)
Definition countStep (count : Z) (eff : Effect) : Z :=
  match eff with
  | EOnEmit (Plain e) _ =>
      if decide (type e = FullSnapshot) then 0%Z
      else if decide (type e = IncrementalSnapshot) then (count + 1)%Z
      else count
  | _ => count
  end.

Definition lastStep (l : option eventWithTime) (eff : Effect)
  : option eventWithTime :=
  match eff with
  | EOnEmit (Plain e) _ => if decide (type e = FullSnapshot) then Some e else l
  | _ => l
  end.

(** The effects [t] were appended, and the counter and the stored full
    snapshot followed the emissions among them. *)
Definition bookkept (w w' : World) : Prop :=
  ∃ t, trace w' = trace w ++ t ∧
       incrementalSnapshotCount w' = foldl countStep (incrementalSnapshotCount w) t ∧
       lastFullSnapshotEvent w' = foldl lastStep (lastFullSnapshotEvent w) t.

(** Effects were appended that all satisfy [P]. *)
Definition appends (P : Effect → Prop) (w w' : World) : Prop :=
  ∃ t, trace w' = trace w ++ t ∧ Forall P t.

(** An effect that hands the consumer an [isCheckout] flag hands it
    [true], with the [Meta] event of a checkpoint. *)
Definition flagOnlyOnMeta (host : Host) (options : recordOptions)
  (eff : Effect) : Prop :=
  match eff with
  | EOnEmit p (Some c) =>
      c = true ∧ ∃ t, p = delivered options (metaEvent host t)
  | _ => True
  end.

(** The emissions that the pipeline makes on its own. *)
Definition unflaggedOrMeta (host : Host) (e : eventWithTime) (c : option bool)
  : Prop :=
  c = None ∨ (c = Some true ∧ ∃ t, e = metaEvent host t).

(** ** More vocabulary of the proofs *)

(** Both cadences are switched off: each option is absent or [0]. *)
Definition cadenceOff (options : recordOptions) : Prop :=
  (checkoutEveryNms options = None ∨ checkoutEveryNms options = Some 0%Z) ∧
  (checkoutEveryNth options = None ∨ checkoutEveryNth options = Some 0%Z).

(** No checkpoint was taken: the serializer was not called, and the
    registry and the stored full snapshot are the same. *)
Definition uncheckpointed (w w' : World) : Prop :=
  snapshotCalls w' = snapshotCalls w ∧
  mirror_map w' = mirror_map w ∧
  lastFullSnapshotEvent w' = lastFullSnapshotEvent w.

(** A computation whose every returned world is related to the world it
    started in. *)
Definition relatesReturn {A : Type} (R : World → World → Prop) (m : M A) : Prop :=
  ∀ w a w', m w = Done a w' → R w w'.

(** A buffer after a call holds a lock only if it held it before. *)
Definition lockShrinks (b b' : MutationBuffer) : Prop :=
  locked b' = true → locked b = true.

Definition locksShrink (w w' : World) : Prop :=
  Forall2 lockShrinks (mutationBuffers w) (mutationBuffers w').

(** Buffer [i], if there is one, is unlocked. *)
Definition unlockedAt (i : nat) (w : World) : Prop :=
  ∀ b, mutationBuffers w !! i = Some b → locked b = false.

(** The serializer returns a node tree whenever it is called. *)
Definition serializerTotal (host : Host) : Prop :=
  ∀ k, is_Some (snapshotResult host k).1.

(** The world once every buffer has been paused. *)
Definition frozenWorld (w : World) : World :=
  set_trace (trace w ++ (EFreeze <$> seq 0 (length (mutationBuffers w))))
    (set_mutationBuffers (setFrozen true <$> mutationBuffers w) w).

(** A computation that throws nothing but errors of [P]. *)
Definition throwsOnly {A : Type} (P : JsError → World → Prop) (m : M A) : Prop :=
  ∀ w err w', m w = Throws err w' → P err w'.

(** The error of reading [lastFullSnapshotEvent.timestamp] while no full
    snapshot is stored. *)
Definition missingSnapshotError (err : JsError) (w : World) : Prop :=
  err = TypeError "Cannot read property 'timestamp' of undefined" ∧
  lastFullSnapshotEvent w = None.

Definition loadEvent (t : Z) : eventWithTime :=
  {| event_of := {| type := Load; data := emptyData |}; timestamp := t |}.

Definition domContentLoadedEvent (t : Z) : eventWithTime :=
  {| event_of := {| type := DomContentLoaded; data := emptyData |};
     timestamp := t |}.

(** The first of a list of numbers that is not [0], or [0]. *)
Definition firstNonZero (xs : list Z) : Z :=
  default 0%Z (head (filter (λ x, x ≠ 0%Z) xs)).

(** The effects of the first checkpoint of a session, taken at the
    clock reading [k] while nothing is observed yet. *)
Definition firstCheckpoint (host : Host) (options : recordOptions)
  (k calls : nat) : list Effect :=
  EOnEmit (delivered options (metaEvent host (dateNow host k))) (Some false) ::
  ESnapshot calls ::
  match snapshotResult host calls with
  | (Some node, idNodeMap) =>
      [ESetMirror idNodeMap;
       EOnEmit (delivered options
                  (fullSnapshotEvent host node (dateNow host (S k)))) None]
  | (None, _) => [EWarn "Failed to snapshot the document"]
  end.

(** A custom event as [addCustomEvent] builds it. *)
Definition customEvent (t : Z) : eventWithTime :=
  {| event_of := {| type := Custom; data := customData "tag" "{}" |};
     timestamp := t |}.

(** A world in which the main document is observed, its buffer is locked
    and withholds a mutation. *)
Definition lockedPendingWorld : World :=
  set_mutationBuffers [mkBuffer false true ["childList"]] snapshotTakenWorld.

(** * Reasoning about computations *)

Lemma bind_unfold {A B : Type} (m : M A) (k : A → M B) (w : World) :
  (m ≫= k) w =
  match m w with
  | Done a w' => k a w'
  | Throws err w' => Throws err w'
  | OutOfFuel => OutOfFuel
  end.
Proof. reflexivity. Qed.

Lemma bind_Done {A B : Type} (m : M A) (k : A → M B) w b w' :
  (m ≫= k) w = Done b w' → ∃ a w1, m w = Done a w1 ∧ k a w1 = Done b w'.
Proof.
  rewrite bind_unfold. destruct (m w) as [a w1|err w1|]; [eauto|done|done].
Qed.

(** One step of a computation whose head is a primitive. *)
Tactic Notation "mstep" :=
  rewrite bind_unfold;
  cbv beta iota delta [gets modify perform mret M_ret].

Tactic Notation "mstep" "in" hyp(H) :=
  rewrite bind_unfold in H;
  cbv beta iota delta [gets modify perform mret M_ret] in H.

Lemma bind_Done_intro {A B : Type} (m : M A) (k : A → M B) w a w1 :
  m w = Done a w1 → (m ≫= k) w = k a w1.
Proof. intros H. by rewrite bind_unfold, H. Qed.

Lemma forEach_cons {A : Type} (f : A → M unit) (x : A) (xs : list A) (w : World) :
  forEach f (x :: xs) w =
  match f x w with
  | Done _ w' => forEach f xs w'
  | Throws err w' => Throws err w'
  | OutOfFuel => OutOfFuel
  end.
Proof. reflexivity. Qed.

Lemma forEach_app {A : Type} (f : A → M unit) (xs ys : list A) (w : World) :
  forEach f (xs ++ ys) w = (forEach f xs ;; forEach f ys) w.
Proof.
  revert w. induction xs as [|x xs IH]; intros w; [done|].
  simpl. rewrite !bind_unfold. destruct (f x w) as [[] w1|err w1|]; [|done|done].
  rewrite IH. by rewrite bind_unfold.
Qed.

(** ** What re-entrant calls leave alone *)

Lemma bufferShrinks_refl b : bufferShrinks b b.
Proof. by split. Qed.

Lemma bufferShrinks_trans b1 b2 b3 :
  bufferShrinks b1 b2 → bufferShrinks b2 b3 → bufferShrinks b1 b3.
Proof. intros [? ?] [? ?]. split; [auto|by etrans]. Qed.

Lemma buffers_shrink_refl bs : Forall2 bufferShrinks bs bs.
Proof. apply Forall_Forall2_diag, Forall_forall. intros. apply bufferShrinks_refl. Qed.

Lemma buffers_shrink_trans bs1 bs2 bs3 :
  Forall2 bufferShrinks bs1 bs2 → Forall2 bufferShrinks bs2 bs3 →
  Forall2 bufferShrinks bs1 bs3.
Proof.
  intros H12. revert bs3. induction H12 as [|b1 b2 l1 l2 Hb _ IH]; intros bs3 H23.
  - by inversion H23.
  - inversion H23 as [|? b3 ? l3 Hb' Hl']; subst. constructor.
    + by eapply bufferShrinks_trans.
    + by apply IH.
Qed.

Global Instance extends_refl : Reflexive extends.
Proof. intros w. split; auto using buffers_shrink_refl. Qed.

Global Instance extends_trans : Transitive extends.
Proof.
  intros w1 w2 w3 [] []. split; try congruence; try lia.
  - by etrans.
  - by eapply buffers_shrink_trans.
  - auto.
Qed.

Lemma shrink_totalPending bs bs' :
  Forall2 bufferShrinks bs bs' →
  (sum_list ((λ b, length (pending b)) <$> bs') ≤
   sum_list ((λ b, length (pending b)) <$> bs))%nat.
Proof.
  induction 1 as [|b b' l l' [_ Hs] _ IH]; csimpl; [done|].
  apply suffix_length in Hs. lia.
Qed.

Lemma extends_totalPending w w' :
  extends w w' → (totalPending w' ≤ totalPending w)%nat.
Proof. intros []. by apply shrink_totalPending. Qed.

Lemma extends_length w w' :
  extends w w' → length (mutationBuffers w') = length (mutationBuffers w).
Proof. intros []. symmetry. by eapply Forall2_length. Qed.

Lemma preserves_Done {A : Type} (m : M A) w a w' :
  preserves m → m w = Done a w' → extends w w'.
Proof. intros H Hm. specialize (H w). by rewrite Hm in H. Qed.

Lemma preserves_Throws {A : Type} (m : M A) w err w' :
  preserves m → m w = Throws err w' → extends w w'.
Proof. intros H Hm. specialize (H w). by rewrite Hm in H. Qed.

Lemma preserves_ret {A : Type} (a : A) : preserves (mret a).
Proof. intros w. simpl. reflexivity. Qed.

Lemma preserves_throw {A : Type} err : preserves (@throw A err).
Proof. intros w. simpl. reflexivity. Qed.

Lemma preserves_gets {A : Type} (f : World → A) : preserves (gets f).
Proof. intros w. simpl. reflexivity. Qed.

Lemma preserves_bind {A B : Type} (m : M A) (k : A → M B) :
  preserves m → (∀ a, preserves (k a)) → preserves (m ≫= k).
Proof.
  intros Hm Hk w. rewrite bind_unfold. specialize (Hm w).
  destruct (m w) as [a w1|err w1|]; simpl in *; [|done|done].
  specialize (Hk a w1). destruct (k a w1); simpl in *; [by etrans|by etrans|done].
Qed.

Lemma preserves_forEach {A : Type} (f : A → M unit) (xs : list A) :
  (∀ x, preserves (f x)) → preserves (forEach f xs).
Proof.
  intros Hf. induction xs as [|x xs IH]; simpl.
  - apply preserves_ret.
  - apply preserves_bind; auto.
Qed.

Lemma preserves_forEachBuffer (f : nat → M unit) :
  (∀ i, preserves (f i)) → preserves (forEachBuffer f).
Proof. intros Hf w. unfold forEachBuffer. by apply preserves_forEach. Qed.

Lemma preserves_perform eff : preserves (perform eff).
Proof.
  intros w. simpl. split; simpl; auto using buffers_shrink_refl.
  by apply prefix_app_r.
Qed.

Lemma preserves_updateBuffer i f :
  (∀ b, bufferShrinks b (f b)) → preserves (updateBuffer i f).
Proof.
  intros Hf w. simpl. split; simpl; auto.
  apply Forall2_alter_r; [apply buffers_shrink_refl|].
  intros b b' H1 H2 _. assert (b = b') as -> by congruence. apply Hf.
Qed.

Section Frame.

Variable host : Host.
Variable options : recordOptions.

Lemma preserves_now : preserves (now host).
Proof. intros w. simpl. split; simpl; auto using buffers_shrink_refl. Qed.

Lemma preserves_wrapEvent e : preserves (wrapEvent host e).
Proof.
  apply preserves_bind; [apply preserves_now|]. intros. apply preserves_ret.
Qed.

Lemma preserves_snapshot : preserves (snapshot host).
Proof.
  intros w. simpl. split; simpl; auto using buffers_shrink_refl.
  by apply prefix_app_r.
Qed.

Lemma preserves_onEmit e c : preserves (onEmit options e c).
Proof. apply preserves_perform. Qed.

Lemma preserves_exceedTime e : preserves (exceedTime options e).
Proof.
  unfold exceedTime. destruct (checkoutEveryNms options) as [ms|];
    [|apply preserves_ret].
  destruct (decide (ms = 0%Z)); [apply preserves_ret|].
  apply preserves_bind; [apply preserves_gets|].
  intros [l|]; [apply preserves_ret|apply preserves_throw].
Qed.

Lemma preserves_set_mirror_map m : preserves (modify (set_mirror_map m)).
Proof. intros w. simpl. split; simpl; auto using buffers_shrink_refl. Qed.

Lemma preserves_set_last e :
  preserves (modify (set_lastFullSnapshotEvent (Some e))).
Proof. intros w. simpl. split; simpl; auto using buffers_shrink_refl. Qed.

Lemma preserves_set_count (f : World → Z) :
  preserves (modify (λ w, set_incrementalSnapshotCount (f w) w)).
Proof. intros w. simpl. split; simpl; auto using buffers_shrink_refl. Qed.

Lemma preserves_lock i : preserves (lock i).
Proof.
  apply preserves_bind; [|intros; apply preserves_perform].
  apply preserves_updateBuffer. intros b. split; [done|]. reflexivity.
Qed.

Section Bodies.

Variable wrappedEmit_rec : eventWithTime → option bool → M unit.
Variable bufferEmit_rec : nat → M unit.
Hypothesis wrappedEmit_rec_preserves : ∀ e c, preserves (wrappedEmit_rec e c).
Hypothesis bufferEmit_rec_preserves : ∀ i, preserves (bufferEmit_rec i).

Lemma preserves_mutationCb m : preserves (mutationCb host wrappedEmit_rec m).
Proof. apply preserves_bind; [apply preserves_wrapEvent|auto]. Qed.

Lemma preserves_bufferEmit_body i :
  preserves (bufferEmit_body host wrappedEmit_rec bufferEmit_rec i).
Proof.
  intros w. unfold bufferEmit_body.
  destruct (mutationBuffers w !! i) as [b|] eqn:Hb; [|simpl; reflexivity].
  destruct (frozen b || locked b); [simpl; reflexivity|].
  destruct (pending b) as [|m q] eqn:Hq; [simpl; reflexivity|].
  revert w Hb. 
  cut (∀ w, mutationBuffers w !! i = Some b →
         match finalWorld ((modify (λ w, set_mutationBuffers
                              (alter (setPending q) i (mutationBuffers w)) w) ;;
                            mutationCb host wrappedEmit_rec m ;;
                            bufferEmit_rec i) w)
         with Some w' => extends w w' | None => True end); [done|].
  intros w Hb.
  set (w0 := set_mutationBuffers (alter (setPending q) i (mutationBuffers w)) w).
  set (rest := mutationCb host wrappedEmit_rec m ;; bufferEmit_rec i).
  change (match finalWorld (rest w0) with
          | Some w' => extends w w'
          | None => True
          end).
  assert (extends w w0) as Hw0.
  { split; simpl; auto.
    apply Forall2_alter_r; [apply buffers_shrink_refl|].
    intros b1 b2 H1 H2 _. assert (b1 = b) as -> by congruence.
    assert (b2 = b) as -> by congruence.
    split; [done|]. simpl. rewrite Hq. by apply suffix_cons_r. }
  pose proof (preserves_bind _ (λ _, bufferEmit_rec i)
                (preserves_mutationCb m)
                (λ _, bufferEmit_rec_preserves i) w0) as H.
  fold rest in H.
  destruct (rest w0); simpl in *; [by etrans|by etrans|done].
Qed.

Lemma preserves_unfreeze i : preserves (unfreeze bufferEmit_rec i).
Proof.
  apply preserves_bind; [|intros; apply preserves_bind;
                           [apply preserves_perform|auto]].
  apply preserves_updateBuffer. intros b. split; [done|]. reflexivity.
Qed.

Lemma preserves_unlock i : preserves (unlock bufferEmit_rec i).
Proof.
  apply preserves_bind; [|intros; apply preserves_bind;
                           [apply preserves_perform|auto]].
  apply preserves_updateBuffer. intros b. split; [done|]. reflexivity.
Qed.

Lemma preserves_takeFullSnapshot_body c :
  preserves (takeFullSnapshot_body host wrappedEmit_rec bufferEmit_rec c).
Proof.
  unfold takeFullSnapshot_body.
  apply preserves_bind; [apply preserves_wrapEvent|intros e].
  apply preserves_bind; [auto|intros _].
  apply preserves_bind;
    [apply preserves_forEachBuffer, preserves_lock|intros _].
  apply preserves_bind; [apply preserves_snapshot|intros [[node|] m]].
  - apply preserves_bind; [apply preserves_set_mirror_map|intros _].
    apply preserves_bind; [apply preserves_perform|intros _].
    apply preserves_bind; [apply preserves_wrapEvent|intros e'].
    apply preserves_bind; [auto|intros _].
    apply preserves_forEachBuffer, preserves_unlock.
  - apply preserves_perform.
Qed.

Lemma preserves_checkoutBookkeeping e :
  preserves (checkoutBookkeeping host options wrappedEmit_rec bufferEmit_rec e).
Proof.
  unfold checkoutBookkeeping.
  destruct (decide (type e = FullSnapshot)).
  { apply preserves_bind; [apply preserves_set_last|intros _].
    apply (preserves_set_count (λ _, 0%Z)). }
  destruct (decide (type e = IncrementalSnapshot)); [|apply preserves_ret].
  apply preserves_bind; [apply preserves_set_count|intros _].
  apply preserves_bind; [apply preserves_gets|intros count].
  apply preserves_bind; [apply preserves_exceedTime|intros exceedT].
  destruct (exceedCount options count || exceedT); [|apply preserves_ret].
  apply preserves_takeFullSnapshot_body.
Qed.

Lemma preserves_wrappedEmit_body e c :
  preserves (wrappedEmit_body host options wrappedEmit_rec bufferEmit_rec e c).
Proof.
  unfold wrappedEmit_body.
  apply preserves_bind; [apply preserves_gets|intros doResume].
  apply preserves_bind.
  { destruct doResume; [|apply preserves_ret].
    apply preserves_forEachBuffer, preserves_unfreeze. }
  intros _. apply preserves_bind; [apply preserves_onEmit|intros _].
  apply preserves_checkoutBookkeeping.
Qed.

End Bodies.

Lemma preserves_timeout {A : Type} : preserves (λ _ : World, @OutOfFuel A).
Proof. by intros w. Qed.

(** The emit pipeline and the flush of a buffer only extend the world,
    whatever the fuel and however they end. *)
Lemma wrappedEmit_bufferEmit_preserve fuel :
  (∀ e c, preserves (wrappedEmit host options fuel e c)) ∧
  (∀ i, preserves (bufferEmit host options fuel i)).
Proof.
  induction fuel as [|f [IHw IHb]]; simpl.
  - split; intros; apply preserves_timeout.
  - split; intros.
    + by apply preserves_wrappedEmit_body.
    + by apply preserves_bufferEmit_body.
Qed.

Lemma preserves_wrappedEmit fuel e c :
  preserves (wrappedEmit host options fuel e c).
Proof. apply wrappedEmit_bufferEmit_preserve. Qed.

Lemma preserves_bufferEmit fuel i :
  preserves (bufferEmit host options fuel i).
Proof. apply wrappedEmit_bufferEmit_preserve. Qed.

Lemma preserves_takeFullSnapshot fuel c :
  preserves (takeFullSnapshot host options fuel c).
Proof.
  apply preserves_takeFullSnapshot_body;
    auto using preserves_wrappedEmit, preserves_bufferEmit.
Qed.

End Frame.

Section Avoids.

Variable k : Failure.
Variable I : World → Prop.
Hypothesis I_stable : stable I.

Lemma avoids_ret {A : Type} (a : A) : avoids k I (mret a).
Proof. intros w _ H. destruct k; exact H. Qed.

Lemma avoids_gets {A : Type} (f : World → A) : avoids k I (gets f).
Proof. intros w _ H. destruct k; exact H. Qed.

Lemma avoids_modify f : avoids k I (modify f).
Proof. intros w _ H. destruct k; exact H. Qed.

Lemma avoids_perform eff : avoids k I (perform eff).
Proof. apply avoids_modify. Qed.

Lemma avoids_bind {A B : Type} (m : M A) (c : A → M B) :
  avoids k I m → preserves m → (∀ a, avoids k I (c a)) →
  avoids k I (m ≫= c).
Proof.
  intros Hm Hp Hc w Hw. rewrite bind_unfold.
  specialize (Hm w Hw). specialize (Hp w).
  destruct (m w) as [a w1|err w1|]; simpl in *.
  - apply Hc. by eapply I_stable.
  - by destruct k.
  - by destruct k.
Qed.

Lemma avoids_forEach {A : Type} (f : A → M unit) (xs : list A) :
  (∀ x, avoids k I (f x)) → (∀ x, preserves (f x)) →
  avoids k I (forEach f xs).
Proof.
  intros Hf Hp. induction xs as [|x xs IH]; simpl.
  - apply avoids_ret.
  - apply avoids_bind; auto.
Qed.

Lemma avoids_forEachBuffer (f : nat → M unit) :
  (∀ i, avoids k I (f i)) → (∀ i, preserves (f i)) →
  avoids k I (forEachBuffer f).
Proof. intros Hf Hp w. unfold forEachBuffer. by apply avoids_forEach. Qed.

Lemma avoids_updateBuffer i f : avoids k I (updateBuffer i f).
Proof. apply avoids_modify. Qed.

Lemma avoids_lock i : avoids k I (lock i).
Proof.
  apply avoids_bind; [apply avoids_updateBuffer| |intros; apply avoids_perform].
  apply preserves_updateBuffer. intros b. split; [done|]. reflexivity.
Qed.

End Avoids.

Lemma avoids_weaken {A : Type} k (I J : World → Prop) (m : M A) :
  (∀ w, J w → I w) → avoids k I m → avoids k J m.
Proof. intros HJ Hm w Hw. apply Hm, HJ, Hw. Qed.

(** ** Termination *)

Lemma fuelCovers_stable c n : stable (fuelCovers c n).
Proof.
  intros w w' Hext. unfold fuelCovers.
  apply extends_totalPending in Hext. lia.
Qed.

Lemma totalPending_pop (bs : list MutationBuffer) i b m q :
  bs !! i = Some b → pending b = m :: q →
  S (sum_list ((λ b, length (pending b)) <$> alter (setPending q) i bs)) =
  sum_list ((λ b, length (pending b)) <$> bs).
Proof.
  revert i. induction bs as [|b0 bs IH]; intros [|i] Hb Hq; simplify_eq/=.
  - csimpl. rewrite Hq. simpl. lia.
  - csimpl. rewrite <- (IH i Hb Hq). lia.
Qed.

Section Termination.

Variable host : Host.
Variable options : recordOptions.

Lemma terminates_now k I : avoids k I (now host).
Proof. intros w _ H. destruct k; exact H. Qed.

Lemma avoids_wrapEvent k I e : stable I → avoids k I (wrapEvent host e).
Proof.
  intros HI. apply avoids_bind; auto using terminates_now, preserves_now.
  intros. apply avoids_ret.
Qed.

Lemma wrapEvent_bind {B : Type} ev (c : eventWithTime → M B) w :
  (wrapEvent host ev ≫= c) w =
  c {| event_of := ev; timestamp := dateNow host (clockReads w) |}
    (set_clockReads (S (clockReads w)) w).
Proof. reflexivity. Qed.

Lemma extends_tick w : extends w (set_clockReads (S (clockReads w)) w).
Proof. split; simpl; auto using buffers_shrink_refl. Qed.

Lemma avoids_wrapEvent_bind {B : Type} k I ev (c : eventWithTime → M B) :
  stable I →
  (∀ t, avoids k I (c {| event_of := ev; timestamp := t |})) →
  avoids k I (wrapEvent host ev ≫= c).
Proof.
  intros HI Hc w Hw. rewrite wrapEvent_bind. apply Hc.
  eapply HI; [apply extends_tick|done].
Qed.

Lemma avoids_snapshot k I : avoids k I (snapshot host).
Proof. intros w _ H. destruct k; exact H. Qed.

Lemma terminates_exceedTime I e :
  avoids RunsOutOfFuel I (exceedTime options e).
Proof.
  intros w _. unfold exceedTime.
  destruct (checkoutEveryNms options) as [ms|]; [|exact id].
  destruct (decide (ms = 0%Z)); [exact id|].
  rewrite bind_unfold. simpl. destruct (lastFullSnapshotEvent w); exact id.
Qed.

Section Bodies.

Variable n : nat.
Variable wrappedEmit_rec : eventWithTime → option bool → M unit.
Variable bufferEmit_rec : nat → M unit.
Hypothesis wrappedEmit_rec_preserves : ∀ e c, preserves (wrappedEmit_rec e c).
Hypothesis bufferEmit_rec_preserves : ∀ i, preserves (bufferEmit_rec i).
Hypothesis wrappedEmit_rec_terminates :
  ∀ e c, avoids RunsOutOfFuel (fuelCovers 3 n) (wrappedEmit_rec e c).
Hypothesis wrappedEmit_rec_terminates_other :
  ∀ (e : eventWithTime) c, type e ≠ IncrementalSnapshot →
         avoids RunsOutOfFuel (fuelCovers 2 n) (wrappedEmit_rec e c).
Hypothesis bufferEmit_rec_terminates :
  ∀ i, avoids RunsOutOfFuel (fuelCovers 1 n) (bufferEmit_rec i).

Lemma terminates_bufferEmit_body i :
  avoids RunsOutOfFuel (fuelCovers 0 n)
    (bufferEmit_body host wrappedEmit_rec bufferEmit_rec i).
Proof.
  intros w Hw. unfold bufferEmit_body.
  destruct (mutationBuffers w !! i) as [b|] eqn:Hb; [|exact id].
  destruct (frozen b || locked b); [exact id|].
  destruct (pending b) as [|m q] eqn:Hq; [exact id|].
  set (w0 := set_mutationBuffers (alter (setPending q) i (mutationBuffers w)) w).
  set (rest := mutationCb host wrappedEmit_rec m ;; bufferEmit_rec i).
  change (¬ fails RunsOutOfFuel (rest w0)).
  assert (fuelCovers 3 n w0) as Hw0.
  { unfold fuelCovers, totalPending in *. simpl.
    pose proof (totalPending_pop _ _ _ _ _ Hb Hq). lia. }
  revert Hw0. generalize w0. change (avoids RunsOutOfFuel (fuelCovers 3 n) rest).
  apply avoids_bind; [apply fuelCovers_stable| | |].
  - apply avoids_bind; [apply fuelCovers_stable| | |].
    + apply avoids_wrapEvent, fuelCovers_stable.
    + apply preserves_wrapEvent.
    + intros e. apply wrappedEmit_rec_terminates.
  - by apply preserves_mutationCb.
  - intros _. eapply avoids_weaken; [|apply bufferEmit_rec_terminates].
    unfold fuelCovers. intros; lia.
Qed.

Lemma terminates_unfreeze i :
  avoids RunsOutOfFuel (fuelCovers 1 n) (unfreeze bufferEmit_rec i).
Proof.
  apply avoids_bind; [apply fuelCovers_stable| | |].
  - apply avoids_updateBuffer.
  - apply preserves_updateBuffer. intros b. split; [done|]. reflexivity.
  - intros _. apply avoids_bind; [apply fuelCovers_stable| | |]; auto.
    + apply avoids_perform.
    + apply preserves_perform.
Qed.

Lemma terminates_unlock i :
  avoids RunsOutOfFuel (fuelCovers 1 n) (unlock bufferEmit_rec i).
Proof.
  apply avoids_bind; [apply fuelCovers_stable| | |].
  - apply avoids_updateBuffer.
  - apply preserves_updateBuffer. intros b. split; [done|]. reflexivity.
  - intros _. apply avoids_bind; [apply fuelCovers_stable| | |]; auto.
    + apply avoids_perform.
    + apply preserves_perform.
Qed.

Lemma terminates_takeFullSnapshot_body c :
  avoids RunsOutOfFuel (fuelCovers 2 n)
    (takeFullSnapshot_body host wrappedEmit_rec bufferEmit_rec c).
Proof.
  pose proof (fuelCovers_stable 2 n) as Hst.
  unfold takeFullSnapshot_body.
  apply avoids_wrapEvent_bind; [done|intros t].
  apply avoids_bind; [done|by apply wrappedEmit_rec_terminates_other
                     |auto|intros _].
  apply avoids_bind; [done| | |intros _].
  { apply avoids_forEachBuffer; auto using preserves_lock.
    intros. by apply avoids_lock. }
  { apply preserves_forEachBuffer, preserves_lock. }
  apply avoids_bind; [done|apply avoids_snapshot
                     |apply preserves_snapshot|intros [[node|] m]].
  - apply avoids_bind; [done|apply avoids_modify
                       |apply preserves_set_mirror_map|intros _].
    apply avoids_bind; [done|apply avoids_perform
                       |apply preserves_perform|intros _].
    apply avoids_wrapEvent_bind; [done|intros t'].
    apply avoids_bind; [done|by apply wrappedEmit_rec_terminates_other
                       |auto|intros _].
    apply avoids_forEachBuffer; [done| |by intros; apply preserves_unlock].
    intros i. eapply avoids_weaken; [|apply terminates_unlock].
    unfold fuelCovers. intros; lia.
  - apply avoids_perform.
Qed.

Lemma terminates_checkoutBookkeeping e :
  avoids RunsOutOfFuel (fuelCovers 2 n)
    (checkoutBookkeeping host options wrappedEmit_rec bufferEmit_rec e).
Proof.
  pose proof (fuelCovers_stable 2 n) as Hst.
  unfold checkoutBookkeeping.
  destruct (decide (type e = FullSnapshot)).
  { apply avoids_bind; [done|apply avoids_modify
                       |apply preserves_set_last|intros _].
    apply avoids_modify. }
  destruct (decide (type e = IncrementalSnapshot)); [|apply avoids_ret].
  apply avoids_bind; [done|apply avoids_modify
                     |apply preserves_set_count|intros _].
  apply avoids_bind; [done|apply avoids_gets
                     |apply preserves_gets|intros count].
  apply avoids_bind; [done|apply terminates_exceedTime
                     |apply preserves_exceedTime|intros exceedT].
  destruct (exceedCount options count || exceedT); [|apply avoids_ret].
  apply terminates_takeFullSnapshot_body.
Qed.

Lemma terminates_wrappedEmit_body e c :
  avoids RunsOutOfFuel (fuelCovers 2 n)
    (wrappedEmit_body host options wrappedEmit_rec bufferEmit_rec e c).
Proof.
  pose proof (fuelCovers_stable 2 n) as Hst.
  unfold wrappedEmit_body.
  apply avoids_bind; [done|apply avoids_gets
                     |apply preserves_gets|intros doResume].
  apply avoids_bind; [done| | |intros _].
  { destruct doResume; [|apply avoids_ret].
    apply avoids_forEachBuffer; [done| |by intros; apply preserves_unfreeze].
    intros i. eapply avoids_weaken; [|apply terminates_unfreeze].
    unfold fuelCovers. intros; lia. }
  { destruct doResume; [|apply preserves_ret].
    by apply preserves_forEachBuffer, preserves_unfreeze. }
  apply avoids_bind; [done|apply avoids_perform
                     |apply preserves_onEmit|intros _].
  apply terminates_checkoutBookkeeping.
Qed.

Lemma terminates_checkoutBookkeeping_other (e : eventWithTime) :
  type e ≠ IncrementalSnapshot →
  avoids RunsOutOfFuel (fuelCovers 1 n)
    (checkoutBookkeeping host options wrappedEmit_rec bufferEmit_rec e).
Proof.
  intros Hty. pose proof (fuelCovers_stable 1 n) as Hst.
  unfold checkoutBookkeeping.
  destruct (decide (type e = FullSnapshot)).
  { apply avoids_bind; [done|apply avoids_modify
                       |apply preserves_set_last|intros _].
    apply avoids_modify. }
  destruct (decide (type e = IncrementalSnapshot)); [done|apply avoids_ret].
Qed.

Lemma terminates_wrappedEmit_body_other (e : eventWithTime) c :
  type e ≠ IncrementalSnapshot →
  avoids RunsOutOfFuel (fuelCovers 1 n)
    (wrappedEmit_body host options wrappedEmit_rec bufferEmit_rec e c).
Proof.
  intros Hty. pose proof (fuelCovers_stable 1 n) as Hst.
  unfold wrappedEmit_body.
  apply avoids_bind; [done|apply avoids_gets
                     |apply preserves_gets|intros doResume].
  apply avoids_bind; [done| | |intros _].
  { destruct doResume; [|apply avoids_ret].
    apply avoids_forEachBuffer; [done| |by intros; apply preserves_unfreeze].
    apply terminates_unfreeze. }
  { destruct doResume; [|apply preserves_ret].
    by apply preserves_forEachBuffer, preserves_unfreeze. }
  apply avoids_bind; [done|apply avoids_perform
                     |apply preserves_onEmit|intros _].
  by apply terminates_checkoutBookkeeping_other.
Qed.

End Bodies.

Lemma avoids_shift {A : Type} c n (m : M A) :
  avoids RunsOutOfFuel (fuelCovers c n) m →
  avoids RunsOutOfFuel (fuelCovers (S c) (S n)) m.
Proof. apply avoids_weaken. unfold fuelCovers. intros; lia. Qed.

Lemma wrappedEmit_bufferEmit_terminate n :
  (∀ e c, avoids RunsOutOfFuel (fuelCovers 3 n) (wrappedEmit host options n e c)) ∧
  (∀ (e : eventWithTime) c, type e ≠ IncrementalSnapshot →
          avoids RunsOutOfFuel (fuelCovers 2 n) (wrappedEmit host options n e c)) ∧
  (∀ i, avoids RunsOutOfFuel (fuelCovers 1 n) (bufferEmit host options n i)).
Proof.
  induction n as [|n (IH3 & IH2 & IH1)].
  - repeat split; intros; intros w Hw; unfold fuelCovers in Hw; lia.
  - pose proof (preserves_wrappedEmit host options n) as Hpw.
    pose proof (preserves_bufferEmit host options n) as Hpb.
    repeat split; intros; simpl; apply avoids_shift.
    + by apply terminates_wrappedEmit_body.
    + by apply terminates_wrappedEmit_body_other.
    + by apply terminates_bufferEmit_body.
Qed.

(** With the fuel of [enoughFuel], no call runs out of fuel. *)
Lemma wrappedEmit_terminates fuel e c w :
  (enoughFuel w ≤ fuel)%nat → wrappedEmit host options fuel e c w ≠ OutOfFuel.
Proof.
  intros Hf Ht.
  destruct (wrappedEmit_bufferEmit_terminate fuel) as (H3 & _ & _).
  apply (H3 e c w); [unfold fuelCovers, enoughFuel in *; lia|].
  by rewrite Ht.
Qed.

Lemma bufferEmit_terminates fuel i w :
  (enoughFuel w ≤ fuel)%nat → bufferEmit host options fuel i w ≠ OutOfFuel.
Proof.
  intros Hf Ht.
  destruct (wrappedEmit_bufferEmit_terminate fuel) as (_ & _ & H1).
  apply (H1 i w); [unfold fuelCovers, enoughFuel in *; lia|].
  by rewrite Ht.
Qed.

Lemma takeFullSnapshot_terminates fuel c w :
  (enoughFuel w ≤ fuel)%nat → takeFullSnapshot host options fuel c w ≠ OutOfFuel.
Proof.
  intros Hf Ht.
  destruct (wrappedEmit_bufferEmit_terminate fuel) as (H3 & H2 & H1).
  apply (terminates_takeFullSnapshot_body fuel _ _
           (preserves_wrappedEmit host options fuel)
           (preserves_bufferEmit host options fuel) H2 H1 c w).
  - unfold fuelCovers, enoughFuel in *; lia.
  - unfold takeFullSnapshot in Ht. by rewrite Ht.
Qed.

End Termination.

(** ** More fuel changes nothing *)

Lemma refines_refl {A : Type} (m : M A) : refines m m.
Proof. by intros w _. Qed.

Lemma refines_trans {A : Type} (m1 m2 m3 : M A) :
  refines m1 m2 → refines m2 m3 → refines m1 m3.
Proof.
  intros H12 H23 w Hw. rewrite H23; [by apply H12|]. by rewrite H12.
Qed.

Lemma refines_bind {A B : Type} (m1 m2 : M A) (k1 k2 : A → M B) :
  refines m1 m2 → (∀ a, refines (k1 a) (k2 a)) →
  refines (m1 ≫= k1) (m2 ≫= k2).
Proof.
  intros Hm Hk w. rewrite !bind_unfold. intros Hw.
  rewrite Hm; [|by destruct (m1 w)].
  destruct (m1 w) as [a w1|err w1|]; [|done|done]. by apply Hk.
Qed.

Lemma refines_forEach {A : Type} (f1 f2 : A → M unit) (xs : list A) :
  (∀ x, refines (f1 x) (f2 x)) → refines (forEach f1 xs) (forEach f2 xs).
Proof.
  intros Hf. induction xs as [|x xs IH]; simpl.
  - apply refines_refl.
  - apply refines_bind; auto.
Qed.

Lemma refines_forEachBuffer (f1 f2 : nat → M unit) :
  (∀ i, refines (f1 i) (f2 i)) → refines (forEachBuffer f1) (forEachBuffer f2).
Proof. intros Hf w. unfold forEachBuffer. by apply refines_forEach. Qed.

Section Monotone.

Variable host : Host.
Variable options : recordOptions.

Section Bodies.

Variable we1 we2 : eventWithTime → option bool → M unit.
Variable be1 be2 : nat → M unit.
Hypothesis we_refines : ∀ e c, refines (we1 e c) (we2 e c).
Hypothesis be_refines : ∀ i, refines (be1 i) (be2 i).

Lemma refines_mutationCb m : refines (mutationCb host we1 m) (mutationCb host we2 m).
Proof. apply refines_bind; [apply refines_refl|auto]. Qed.

Lemma refines_bufferEmit_body i :
  refines (bufferEmit_body host we1 be1 i) (bufferEmit_body host we2 be2 i).
Proof.
  intros w. unfold bufferEmit_body.
  destruct (mutationBuffers w !! i) as [b|]; [|done].
  destruct (frozen b || locked b); [done|].
  destruct (pending b) as [|m q]; [done|].
  apply refines_bind; [apply refines_refl|intros _].
  apply refines_bind; [apply refines_mutationCb|auto].
Qed.

Lemma refines_unfreeze i : refines (unfreeze be1 i) (unfreeze be2 i).
Proof.
  apply refines_bind; [apply refines_refl|intros _].
  apply refines_bind; [apply refines_refl|auto].
Qed.

Lemma refines_unlock i : refines (unlock be1 i) (unlock be2 i).
Proof.
  apply refines_bind; [apply refines_refl|intros _].
  apply refines_bind; [apply refines_refl|auto].
Qed.

Lemma refines_takeFullSnapshot_body c :
  refines (takeFullSnapshot_body host we1 be1 c)
          (takeFullSnapshot_body host we2 be2 c).
Proof.
  unfold takeFullSnapshot_body.
  apply refines_bind; [apply refines_refl|intros e].
  apply refines_bind; [auto|intros _].
  apply refines_bind; [apply refines_refl|intros _].
  apply refines_bind; [apply refines_refl|intros [[node|] m]];
    [|apply refines_refl].
  apply refines_bind; [apply refines_refl|intros _].
  apply refines_bind; [apply refines_refl|intros _].
  apply refines_bind; [apply refines_refl|intros e'].
  apply refines_bind; [auto|intros _].
  apply refines_forEachBuffer, refines_unlock.
Qed.

Lemma refines_checkoutBookkeeping e :
  refines (checkoutBookkeeping host options we1 be1 e)
          (checkoutBookkeeping host options we2 be2 e).
Proof.
  unfold checkoutBookkeeping.
  destruct (decide (type e = FullSnapshot)); [apply refines_refl|].
  destruct (decide (type e = IncrementalSnapshot)); [|apply refines_refl].
  apply refines_bind; [apply refines_refl|intros _].
  apply refines_bind; [apply refines_refl|intros count].
  apply refines_bind; [apply refines_refl|intros exceedT].
  destruct (exceedCount options count || exceedT); [|apply refines_refl].
  apply refines_takeFullSnapshot_body.
Qed.

Lemma refines_wrappedEmit_body e c :
  refines (wrappedEmit_body host options we1 be1 e c)
          (wrappedEmit_body host options we2 be2 e c).
Proof.
  unfold wrappedEmit_body.
  apply refines_bind; [apply refines_refl|intros doResume].
  apply refines_bind.
  { destruct doResume; [|apply refines_refl].
    apply refines_forEachBuffer, refines_unfreeze. }
  intros _. apply refines_bind; [apply refines_refl|intros _].
  apply refines_checkoutBookkeeping.
Qed.

End Bodies.

Lemma wrappedEmit_bufferEmit_step n :
  (∀ e c, refines (wrappedEmit host options n e c)
                  (wrappedEmit host options (S n) e c)) ∧
  (∀ i, refines (bufferEmit host options n i)
                (bufferEmit host options (S n) i)).
Proof.
  induction n as [|n [IHw IHb]].
  - split; intros; by intros w Hw.
  - split; intros.
    + by apply (refines_wrappedEmit_body _ _ _ _ IHw IHb).
    + by apply (refines_bufferEmit_body _ _ _ _ IHw IHb).
Qed.

Lemma wrappedEmit_fuel_mono n n' e c :
  (n ≤ n')%nat →
  refines (wrappedEmit host options n e c) (wrappedEmit host options n' e c).
Proof.
  induction 1 as [|n' _ IH]; [apply refines_refl|].
  eapply refines_trans; [apply IH|apply wrappedEmit_bufferEmit_step].
Qed.

Lemma bufferEmit_fuel_mono n n' i :
  (n ≤ n')%nat →
  refines (bufferEmit host options n i) (bufferEmit host options n' i).
Proof.
  induction 1 as [|n' _ IH]; [apply refines_refl|].
  eapply refines_trans; [apply IH|apply wrappedEmit_bufferEmit_step].
Qed.

Lemma takeFullSnapshot_fuel_mono n n' c :
  (n ≤ n')%nat →
  refines (takeFullSnapshot host options n c)
          (takeFullSnapshot host options n' c).
Proof.
  intros Hn. apply refines_takeFullSnapshot_body; intros.
  - by apply wrappedEmit_fuel_mono.
  - by apply bufferEmit_fuel_mono.
Qed.

(** Any two amounts of fuel that both suffice give the same outcome. *)
Lemma wrappedEmit_fuel_irrelevant n n' e c w :
  (enoughFuel w ≤ n)%nat → (enoughFuel w ≤ n')%nat →
  wrappedEmit host options n e c w = wrappedEmit host options n' e c w.
Proof.
  intros Hn Hn'.
  rewrite (wrappedEmit_fuel_mono (enoughFuel w) n e c Hn w),
          (wrappedEmit_fuel_mono (enoughFuel w) n' e c Hn' w);
    auto using wrappedEmit_terminates.
Qed.

End Monotone.

(** ** Exceptions of the emit pipeline *)

Lemma cadenceSafe_stable options : stable (cadenceSafe options).
Proof.
  intros w w' Hext [H|[H|H]]; [by left|by right; left|].
  right; right. by apply Hext.
Qed.

Section NoThrow.

Variable host : Host.
Variable options : recordOptions.

Lemma noThrow_exceedTime e :
  avoids ThrowsError (cadenceSafe options) (exceedTime options e).
Proof.
  intros w Hw. unfold exceedTime.
  destruct (checkoutEveryNms options) as [ms|] eqn:Hms; [|exact id].
  destruct (decide (ms = 0%Z)) as [->|Hne]; [exact id|].
  rewrite bind_unfold. simpl.
  destruct (lastFullSnapshotEvent w) as [l|] eqn:Hl; [exact id|].
  destruct Hw as [H|[H|H]]; [congruence|congruence|].
  rewrite Hl in H. by destruct H.
Qed.

Section Bodies.

Variable wrappedEmit_rec : eventWithTime → option bool → M unit.
Variable bufferEmit_rec : nat → M unit.
Hypothesis wrappedEmit_rec_preserves : ∀ e c, preserves (wrappedEmit_rec e c).
Hypothesis bufferEmit_rec_preserves : ∀ i, preserves (bufferEmit_rec i).
Hypothesis wrappedEmit_rec_noThrow :
  ∀ e c, avoids ThrowsError (cadenceSafe options) (wrappedEmit_rec e c).
Hypothesis bufferEmit_rec_noThrow :
  ∀ i, avoids ThrowsError (cadenceSafe options) (bufferEmit_rec i).

Lemma noThrow_bufferEmit_body i :
  avoids ThrowsError (cadenceSafe options)
    (bufferEmit_body host wrappedEmit_rec bufferEmit_rec i).
Proof.
  pose proof (cadenceSafe_stable options) as Hst.
  intros w Hw. unfold bufferEmit_body.
  destruct (mutationBuffers w !! i) as [b|]; [|exact id].
  destruct (frozen b || locked b); [exact id|].
  destruct (pending b) as [|m q]; [exact id|].
  set (w0 := set_mutationBuffers (alter (setPending q) i (mutationBuffers w)) w).
  set (rest := mutationCb host wrappedEmit_rec m ;; bufferEmit_rec i).
  change (¬ fails ThrowsError (rest w0)).
  assert (cadenceSafe options w0) as Hw0 by exact Hw.
  revert Hw0. generalize w0.
  change (avoids ThrowsError (cadenceSafe options) rest).
  apply avoids_bind; [done| |by apply preserves_mutationCb|auto].
  apply avoids_wrapEvent_bind; auto.
Qed.

Lemma noThrow_unfreeze i :
  avoids ThrowsError (cadenceSafe options) (unfreeze bufferEmit_rec i).
Proof.
  pose proof (cadenceSafe_stable options) as Hst.
  apply avoids_bind; [done|apply avoids_updateBuffer| |].
  - apply preserves_updateBuffer. intros b. split; [done|]. reflexivity.
  - intros _. apply avoids_bind; auto using avoids_perform, preserves_perform.
Qed.

Lemma noThrow_unlock i :
  avoids ThrowsError (cadenceSafe options) (unlock bufferEmit_rec i).
Proof.
  pose proof (cadenceSafe_stable options) as Hst.
  apply avoids_bind; [done|apply avoids_updateBuffer| |].
  - apply preserves_updateBuffer. intros b. split; [done|]. reflexivity.
  - intros _. apply avoids_bind; auto using avoids_perform, preserves_perform.
Qed.

Lemma noThrow_takeFullSnapshot_body c :
  avoids ThrowsError (cadenceSafe options)
    (takeFullSnapshot_body host wrappedEmit_rec bufferEmit_rec c).
Proof.
  pose proof (cadenceSafe_stable options) as Hst.
  unfold takeFullSnapshot_body.
  apply avoids_wrapEvent_bind; [done|intros t].
  apply avoids_bind; [done|auto|auto|intros _].
  apply avoids_bind; [done| | |intros _].
  { apply avoids_forEachBuffer; auto using preserves_lock.
    intros. by apply avoids_lock. }
  { apply preserves_forEachBuffer, preserves_lock. }
  apply avoids_bind; [done|apply avoids_snapshot
                     |apply preserves_snapshot|intros [[node|] m]].
  - apply avoids_bind; [done|apply avoids_modify
                       |apply preserves_set_mirror_map|intros _].
    apply avoids_bind; [done|apply avoids_perform
                       |apply preserves_perform|intros _].
    apply avoids_wrapEvent_bind; [done|intros t'].
    apply avoids_bind; [done|auto|auto|intros _].
    apply avoids_forEachBuffer; [done| |by intros; apply preserves_unlock].
    apply noThrow_unlock.
  - apply avoids_perform.
Qed.

Lemma noThrow_checkoutBookkeeping e :
  avoids ThrowsError (cadenceSafe options)
    (checkoutBookkeeping host options wrappedEmit_rec bufferEmit_rec e).
Proof.
  pose proof (cadenceSafe_stable options) as Hst.
  unfold checkoutBookkeeping.
  destruct (decide (type e = FullSnapshot)).
  { apply avoids_bind; [done|apply avoids_modify
                       |apply preserves_set_last|intros _].
    apply avoids_modify. }
  destruct (decide (type e = IncrementalSnapshot)); [|apply avoids_ret].
  apply avoids_bind; [done|apply avoids_modify
                     |apply preserves_set_count|intros _].
  apply avoids_bind; [done|apply avoids_gets
                     |apply preserves_gets|intros count].
  apply avoids_bind; [done|apply noThrow_exceedTime
                     |apply preserves_exceedTime|intros exceedT].
  destruct (exceedCount options count || exceedT); [|apply avoids_ret].
  apply noThrow_takeFullSnapshot_body.
Qed.

Lemma noThrow_wrappedEmit_body e c :
  avoids ThrowsError (cadenceSafe options)
    (wrappedEmit_body host options wrappedEmit_rec bufferEmit_rec e c).
Proof.
  pose proof (cadenceSafe_stable options) as Hst.
  unfold wrappedEmit_body.
  apply avoids_bind; [done|apply avoids_gets
                     |apply preserves_gets|intros doResume].
  apply avoids_bind; [done| | |intros _].
  { destruct doResume; [|apply avoids_ret].
    apply avoids_forEachBuffer; [done| |by intros; apply preserves_unfreeze].
    apply noThrow_unfreeze. }
  { destruct doResume; [|apply preserves_ret].
    by apply preserves_forEachBuffer, preserves_unfreeze. }
  apply avoids_bind; [done|apply avoids_perform
                     |apply preserves_onEmit|intros _].
  apply noThrow_checkoutBookkeeping.
Qed.

End Bodies.

Lemma wrappedEmit_bufferEmit_noThrow fuel :
  (∀ e c, avoids ThrowsError (cadenceSafe options)
            (wrappedEmit host options fuel e c)) ∧
  (∀ i, avoids ThrowsError (cadenceSafe options)
          (bufferEmit host options fuel i)).
Proof.
  induction fuel as [|f [IHw IHb]].
  - split; intros; intros w _; exact id.
  - pose proof (preserves_wrappedEmit host options f) as Hpw.
    pose proof (preserves_bufferEmit host options f) as Hpb.
    split; intros; simpl.
    + by apply noThrow_wrappedEmit_body.
    + by apply noThrow_bufferEmit_body.
Qed.

(** Where the time-based cadence can be evaluated, the emit pipeline
    throws nothing. *)
Lemma wrappedEmit_noThrow fuel e c w err w' :
  cadenceSafe options w → wrappedEmit host options fuel e c w ≠ Throws err w'.
Proof.
  intros Hw Hr.
  apply (proj1 (wrappedEmit_bufferEmit_noThrow fuel) e c w Hw).
  by rewrite Hr.
Qed.

Lemma bufferEmit_noThrow fuel i w err w' :
  cadenceSafe options w → bufferEmit host options fuel i w ≠ Throws err w'.
Proof.
  intros Hw Hr.
  apply (proj2 (wrappedEmit_bufferEmit_noThrow fuel) i w Hw).
  by rewrite Hr.
Qed.

Lemma takeFullSnapshot_noThrow fuel c w err w' :
  cadenceSafe options w → takeFullSnapshot host options fuel c w ≠ Throws err w'.
Proof.
  intros Hw Hr.
  destruct (wrappedEmit_bufferEmit_noThrow fuel) as [Hnw Hnb].
  apply (noThrow_takeFullSnapshot_body _ _
           (preserves_wrappedEmit host options fuel)
           (preserves_bufferEmit host options fuel) Hnw Hnb c w Hw).
  unfold takeFullSnapshot in Hr. by rewrite Hr.
Qed.

(** So with enough fuel the pipeline returns. *)
Lemma wrappedEmit_returns fuel e c w :
  cadenceSafe options w → (enoughFuel w ≤ fuel)%nat →
  ∃ w', wrappedEmit host options fuel e c w = Done tt w'.
Proof.
  intros Hs Hf.
  destruct (wrappedEmit host options fuel e c w) as [[] w'|err w'|] eqn:Hr.
  - by exists w'.
  - by apply wrappedEmit_noThrow in Hr.
  - by apply wrappedEmit_terminates in Hr.
Qed.

Lemma takeFullSnapshot_returns fuel c w :
  cadenceSafe options w → (enoughFuel w ≤ fuel)%nat →
  ∃ w', takeFullSnapshot host options fuel c w = Done tt w'.
Proof.
  intros Hs Hf.
  destruct (takeFullSnapshot host options fuel c w) as [[] w'|err w'|] eqn:Hr.
  - by exists w'.
  - by apply takeFullSnapshot_noThrow in Hr.
  - by apply takeFullSnapshot_terminates in Hr.
Qed.

End NoThrow.

(** * The constructor: which inputs are masked *)

Lemma maskEveryInput_lookup kind :
  kind ∈ inputKinds → maskEveryInput !! kind = Some true.
Proof.
  unfold inputKinds. rewrite !elem_of_cons, elem_of_nil.
  intros H. repeat (destruct H as [->|H]; [by vm_compute|]). done.
Qed.

(** C10.  When [maskAllInputs] is exactly [true], the effective mask
    configuration enables masking for every input kind, whatever
    [maskInputOptions] was supplied; otherwise the supplied
    [maskInputOptions] is used unchanged, and when that is undefined too
    no input kind is masked. *)
Theorem maskInputOptions_effective (o : recordOptions) :
  (maskAllInputs o = Some true →
   ∀ kind, kind ∈ inputKinds →
           Recorder_maskInputOptions o !! kind = Some true ∧
           masks (Recorder_maskInputOptions o) kind = true) ∧
  (maskAllInputs o ≠ Some true →
   ∀ given, maskInputOptions o = Some given →
            Recorder_maskInputOptions o = given) ∧
  (maskAllInputs o ≠ Some true → maskInputOptions o = None →
   ∀ kind, masks (Recorder_maskInputOptions o) kind = false).
Proof.
  unfold Recorder_maskInputOptions, masks. repeat split.
  - rewrite decide_True by done. by apply maskEveryInput_lookup.
  - rewrite decide_True by done. by rewrite maskEveryInput_lookup.
  - intros Hne given ->. by rewrite decide_False.
  - intros Hne -> kind. rewrite decide_False by done.
    by rewrite lookup_empty.
Qed.

Lemma maskInputOptions_effective_witness :
  Recorder_maskInputOptions
    (mkOptions (Some (HostFunction "emit")) None None (Some true)
       (Some {[ "text" := false ]}) None) !! "text" = Some true.
Proof.
  apply (proj1 (maskInputOptions_effective _)).
  - reflexivity.
  - apply (list_elem_of_lookup_2 _ 9). reflexivity.
Defined.

(** * The disposer *)

Lemma forEach_callHandler hs w :
  forEach callHandler hs w = Done tt (detach hs w).
Proof.
  revert w. induction hs as [|h hs IH]; intros w.
  - simpl. f_equal. unfold detach, set_observed, set_listeners.
    destruct w; simpl. by rewrite !difference_empty_L.
  - simpl. rewrite bind_unfold. destruct h as [n|d]; simpl; rewrite IH;
      f_equal; unfold detach, set_observed, set_listeners; simpl;
      by rewrite difference_difference_l_L.
Qed.

Lemma disposer_detaches w : disposer w = Done tt (detach (handlers w) w).
Proof. unfold disposer. rewrite bind_unfold. simpl. apply forEach_callHandler. Qed.

Lemma detach_idempotent hs w : detach hs (detach hs w) = detach hs w.
Proof.
  unfold detach, set_observed, set_listeners. simpl.
  by rewrite !difference_difference_l_L, !union_idemp_L.
Qed.

Lemma disposer_again w : disposer (detach (handlers w) w) = Done tt (detach (handlers w) w).
Proof.
  rewrite disposer_detaches. simpl. by rewrite detach_idempotent.
Qed.

Lemma callTimes_fixed k (m : M unit) w :
  m w = Done tt w → callTimes k m w = Done tt w.
Proof.
  intros Hm. unfold callTimes. generalize 0. induction k as [|k IH]; intros s.
  - done.
  - simpl. rewrite bind_unfold, Hm. apply IH.
Qed.

(** * Starting a recording *)

Section Start.

Variable host : Host.
Variable options : recordOptions.

Lemma Recorder_record_unfold fuel w :
  Recorder_record host options fuel w =
  if documentReady host then
    match takeFullSnapshot host options fuel false (startWorld w) with
    | Done _ w2 => Done (Some disposer) (observedWorld w2)
    | Throws error w2 =>
        Done None (set_trace (trace w2 ++ [EWarn (errorMessage error)]) w2)
    | OutOfFuel => OutOfFuel
    end
  else Done (Some disposer) (loadingWorld (startWorld w)).
Proof.
  unfold Recorder_record, documentReady.
  destruct (readyState host); [reflexivity| |].
  all: cbv beta iota delta [tryCatch mbind M_bind mret M_ret modify on
                              pushHandler init observe initObservers perform].
  all: set (r := takeFullSnapshot host options fuel false _).
  all: change (takeFullSnapshot host options fuel false (startWorld w)) with r.
  all: by destruct r.
Qed.

Lemma enoughFuel_startWorld w : enoughFuel (startWorld w) = enoughFuel w.
Proof. reflexivity. Qed.

(** [Recorder.record] catches what its body throws. *)
Lemma Recorder_record_noThrow fuel w err w' :
  Recorder_record host options fuel w ≠ Throws err w'.
Proof.
  rewrite Recorder_record_unfold. destruct (documentReady host); [|done].
  by destruct (takeFullSnapshot host options fuel false (startWorld w)).
Qed.

Lemma Recorder_record_returns fuel w :
  (enoughFuel w ≤ fuel)%nat →
  ∃ r w', Recorder_record host options fuel w = Done r w'.
Proof.
  intros Hf. rewrite Recorder_record_unfold.
  destruct (documentReady host); [|eauto].
  destruct (takeFullSnapshot host options fuel false (startWorld w)) eqn:Hr;
    [eauto|eauto|].
  by apply takeFullSnapshot_terminates in Hr.
Qed.

(** [Recorder.record] assigns neither [recorder] nor [this.recording],
    and leaves the [DOMContentLoaded] listener registered. *)
Lemma Recorder_record_frame fuel w r w' :
  Recorder_record host options fuel w = Done r w' →
  recorder w' = recorder w ∧ recording w' = recording w ∧
  "DOMContentLoaded" ∈ listeners w'.
Proof.
  rewrite Recorder_record_unfold. destruct (documentReady host).
  - destruct (takeFullSnapshot host options fuel false (startWorld w))
      as [[] w2|err w2|] eqn:Hr; [| |done].
    + apply (preserves_Done _ _ _ _ (preserves_takeFullSnapshot _ _ _ _)) in Hr.
      intros [= <- <-]. simpl.
      rewrite (ext_recorder _ _ Hr), (ext_recording _ _ Hr),
        (ext_listeners _ _ Hr). simpl.
      repeat split. apply elem_of_union_l. by apply elem_of_singleton.
    + apply (preserves_Throws _ _ _ _ (preserves_takeFullSnapshot _ _ _ _)) in Hr.
      intros [= <- <-]. simpl.
      rewrite (ext_recorder _ _ Hr), (ext_recording _ _ Hr),
        (ext_listeners _ _ Hr). simpl.
      repeat split. apply elem_of_union_l. by apply elem_of_singleton.
  - intros [= <- <-]. simpl. repeat split.
    apply elem_of_union_r, elem_of_union_l. by apply elem_of_singleton.
Qed.

End Start.

(** * Starting, and adding custom events *)

(** C8.  [record] throws (synchronously, the configuration error) if and
    only if the [emit] callback is absent from the options; when [emit]
    is present it installs the recorder and begins capture: with enough
    fuel it returns, with the recorder set and the [DOMContentLoaded]
    listener registered. *)
Theorem record_throws_iff_emit_absent host fuel options w :
  ((∃ err w', record host fuel options w = Throws err w') ↔ emit options = None) ∧
  (emit options = None →
   record host fuel options w = Throws (Error "emit function is required") w) ∧
  (is_Some (emit options) → (enoughFuel w ≤ fuel)%nat →
   ∃ r w', record host fuel options w = Done r w' ∧
           recorder w' = Some options ∧ "DOMContentLoaded" ∈ listeners w').
Proof.
  unfold record. destruct (emit options) as [cb|] eqn:Hemit.
  - split; [|split].
    + split; [|done]. intros (err & w' & Hr). exfalso.
      rewrite bind_unfold in Hr. simpl in Hr.
      by apply Recorder_record_noThrow in Hr.
    + done.
    + intros _ Hf. rewrite bind_unfold. simpl.
      destruct (Recorder_record_returns host options fuel (set_newRecorder options w))
        as (r & w' & Hr); [done|].
      exists r, w'. split; [done|].
      apply Recorder_record_frame in Hr as (Hrec & _ & Hl). by rewrite Hrec.
  - split; [|split].
    + split; [done|]. intros _. by eexists _, _.
    + done.
    + by intros [? ?].
Qed.

Lemma record_throws_iff_emit_absent_witness :
  record (page serializerWorks complete) 4
    (mkOptions None None None None None None) freshWorld =
  Throws (Error "emit function is required") freshWorld.
Proof.
  apply (proj1 (proj2 (record_throws_iff_emit_absent _ _ _ _))).
  reflexivity.
Defined.

(** C2, as the code has it.  [this.recording] starts [false] and nothing
    assigns it, so once [record] has returned every call of
    [record.addCustomEvent] throws the illegal-state error and emits
    nothing. *)
Theorem addCustomEvent_after_start_throws host fuel options w r w' :
  record host fuel options w = Done r w' →
  ∀ fuel' tag payload,
    record_addCustomEvent host fuel' tag payload w' =
    Throws (Error "please add custom event after start recording") w'.
Proof.
  unfold record. destruct (emit options) as [cb|]; [|done].
  rewrite bind_unfold. simpl. intros Hr fuel' tag payload.
  apply Recorder_record_frame in Hr as (Hrec & Hrecording & _).
  simpl in Hrec, Hrecording.
  unfold record_addCustomEvent. rewrite bind_unfold. simpl. rewrite Hrec.
  unfold Recorder_addCustomEvent. rewrite bind_unfold. simpl.
  by rewrite Hrecording.
Qed.

Lemma addCustomEvent_after_start_throws_witness :
  record_addCustomEvent (page serializerWorks complete) 4 "checkout" "{}"
    (worldOf (record (page serializerWorks complete) 4 plainOptions freshWorld)
       freshWorld) =
  Throws (Error "please add custom event after start recording")
    (worldOf (record (page serializerWorks complete) 4 plainOptions freshWorld)
       freshWorld).
Proof.
  apply (addCustomEvent_after_start_throws
           (page serializerWorks complete) 4 plainOptions freshWorld
           (Some disposer)).
  vm_compute. reflexivity.
Defined.

(** Before [record] was ever called, [record.addCustomEvent] throws as
    well. *)
Lemma addCustomEvent_before_start_throws host fuel tag payload w :
  recorder w = None →
  record_addCustomEvent host fuel tag payload w =
  Throws (Error "please add custom event after start recording") w.
Proof.
  intros Hr. unfold record_addCustomEvent. rewrite bind_unfold. simpl.
  by rewrite Hr.
Qed.

(** What [Recorder.addCustomEvent] would do if [this.recording] were
    set: wrap a [Custom] event and hand it to the emit pipeline. *)
Lemma Recorder_addCustomEvent_recording host options fuel tag payload w :
  recording w = true →
  Recorder_addCustomEvent host options fuel tag payload w =
  wrappedEmit host options fuel
    {| event_of := {| type := Custom; data := customData tag payload |};
       timestamp := dateNow host (clockReads w) |} None
    (set_clockReads (S (clockReads w)) w).
Proof.
  intros Hr. unfold Recorder_addCustomEvent. rewrite bind_unfold. simpl.
  by rewrite Hr.
Qed.

(** * Stopping *)

(** C7.  The disposer returned by [record] is idempotent: the first call
    returns, and calling it again, any number of times, returns without
    changing anything. *)
Theorem disposer_idempotent host fuel options w d w' :
  record host fuel options w = Done (Some d) w' →
  ∀ w0, ∃ w1, d w0 = Done tt w1 ∧ d w1 = Done tt w1 ∧
              ∀ k, callTimes k d w1 = Done tt w1.
Proof.
  intros Hr w0.
  assert (d = disposer) as ->.
  { unfold record in Hr. destruct (emit options); [|done].
    rewrite bind_unfold in Hr. simpl in Hr.
    rewrite Recorder_record_unfold in Hr.
    destruct (documentReady host); [|congruence].
    destruct (takeFullSnapshot _ _ _ _ _); congruence. }
  exists (detach (handlers w0) w0).
  split; [apply disposer_detaches|].
  split; [apply disposer_again|].
  intros k. apply callTimes_fixed, disposer_again.
Qed.

Lemma disposer_idempotent_witness :
  ∃ w1, disposer (worldOf (record (page serializerWorks complete) 4
                              plainOptions freshWorld) freshWorld) = Done tt w1 ∧
        disposer w1 = Done tt w1 ∧ ∀ k, callTimes k disposer w1 = Done tt w1.
Proof.
  apply (disposer_idempotent (page serializerWorks complete) 4 plainOptions
           freshWorld disposer
           (worldOf (record (page serializerWorks complete) 4
                       plainOptions freshWorld) freshWorld)).
  vm_compute. reflexivity.
Defined.

(** * The emit pipeline, step by step *)

Lemma forEach_lock_from (rest pre : list MutationBuffer) w :
  mutationBuffers w = pre ++ rest →
  forEach lock (seq (length pre) (length rest)) w =
  Done tt (set_trace (trace w ++ (ELock <$> seq (length pre) (length rest)))
             (set_mutationBuffers (pre ++ (setLocked true <$> rest)) w)).
Proof.
  revert pre w. induction rest as [|b rest IH]; intros pre w Hw.
  - simpl. f_equal. destruct w; simpl in *. subst. by rewrite !app_nil_r.
  - simpl. rewrite bind_unfold. simpl.
    set (w1 := set_trace _ _).
    assert (mutationBuffers w1 = (pre ++ [setLocked true b]) ++ rest) as Hw1.
    { simpl. rewrite Hw, alter_app_r_alt by done.
      rewrite Nat.sub_diag. simpl. by rewrite <- app_assoc. }
    specialize (IH _ _ Hw1). rewrite length_app in IH. simpl in IH.
    rewrite Nat.add_1_r in IH. rewrite IH. f_equal.
    unfold w1. destruct w; simpl in *.
    by rewrite <- !app_assoc.
Qed.

Lemma forEachBuffer_lock w : forEachBuffer lock w = Done tt (lockedWorld w).
Proof.
  unfold forEachBuffer.
  exact (forEach_lock_from (mutationBuffers w) [] w eq_refl).
Qed.

Section Pipeline.

Variable host : Host.
Variable options : recordOptions.

Lemma wrappedEmit_unfold f e c w :
  wrappedEmit host options (S f) e c w =
  match (if resumes e w
         then forEachBuffer (unfreeze (bufferEmit host options f)) w
         else Done tt w) with
  | Done _ w1 =>
      checkoutBookkeeping host options (wrappedEmit host options f)
        (bufferEmit host options f) e (emittedWorld options e c w1)
  | Throws err w1 => Throws err w1
  | OutOfFuel => OutOfFuel
  end.
Proof.
  change (wrappedEmit host options (S f)) with
    (wrappedEmit_body host options (wrappedEmit host options f)
       (bufferEmit host options f)).
  unfold wrappedEmit_body. mstep.
  rewrite bind_unfold. destruct (resumes e w).
  - by destruct (forEachBuffer _ w).
  - reflexivity.
Qed.

Lemma exceedTime_unfold e w :
  exceedTime options e w =
  match checkoutEveryNms options with
  | Some ms =>
      if decide (ms = 0%Z) then Done false w
      else match lastFullSnapshotEvent w with
           | Some l => Done (bool_decide (ms < timestamp e - timestamp l)%Z) w
           | None =>
               Throws (TypeError "Cannot read property 'timestamp' of undefined") w
           end
  | None => Done false w
  end.
Proof.
  unfold exceedTime. destruct (checkoutEveryNms options) as [ms|]; [|done].
  destruct (decide (ms = 0%Z)); [done|].
  rewrite bind_unfold. simpl. by destruct (lastFullSnapshotEvent w).
Qed.

Section Bookkeeping.

Variable we : eventWithTime → option bool → M unit.
Variable be : nat → M unit.

Lemma checkoutBookkeeping_fullSnapshot (e : eventWithTime) w :
  type e = FullSnapshot →
  checkoutBookkeeping host options we be e w =
  Done tt (set_incrementalSnapshotCount 0
             (set_lastFullSnapshotEvent (Some e) w)).
Proof. intros He. unfold checkoutBookkeeping. by rewrite decide_True. Qed.

Lemma checkoutBookkeeping_other (e : eventWithTime) w :
  type e ≠ FullSnapshot → type e ≠ IncrementalSnapshot →
  checkoutBookkeeping host options we be e w = Done tt w.
Proof.
  intros H1 H2. unfold checkoutBookkeeping. by rewrite !decide_False.
Qed.

Lemma checkoutBookkeeping_incremental (e : eventWithTime) w :
  type e = IncrementalSnapshot →
  checkoutBookkeeping host options we be e w =
  let count := (incrementalSnapshotCount w + 1)%Z in
  let w2 := set_incrementalSnapshotCount count w in
  match exceedTime options e w2 with
  | Done exceedT _ =>
      if exceedCount options count || exceedT
      then takeFullSnapshot_body host we be true w2
      else Done tt w2
  | Throws err w' => Throws err w'
  | OutOfFuel => OutOfFuel
  end.
Proof.
  intros He. unfold checkoutBookkeeping.
  rewrite decide_False by (rewrite He; done). rewrite decide_True by done.
  do 2 mstep. rewrite bind_unfold, exceedTime_unfold. cbv zeta.
  cbn [incrementalSnapshotCount set_incrementalSnapshotCount lastFullSnapshotEvent].
  destruct (checkoutEveryNms options) as [ms|];
    [|by destruct (exceedCount _ _)].
  destruct (decide (ms = 0%Z)); [by destruct (exceedCount _ _)|].
  destruct (lastFullSnapshotEvent w); [|done].
  by destruct (exceedCount _ _ || _).
Qed.

End Bookkeeping.

(** The resume test only looks at the main buffer. *)
Lemma resumes_mainBufferFrozen e w :
  mainBufferFrozen w = false → resumes e w = false.
Proof. intros H. unfold resumes. by rewrite H. Qed.

(** Emitting an event that is neither a full nor an incremental snapshot
    while the main buffer is active is a single call of [onEmit]. *)
Lemma wrappedEmit_plain f (e : eventWithTime) c w :
  resumes e w = false →
  type e ≠ FullSnapshot → type e ≠ IncrementalSnapshot →
  wrappedEmit host options (S f) e c w = Done tt (emittedWorld options e c w).
Proof.
  intros Hr H1 H2. rewrite wrappedEmit_unfold, Hr.
  by apply checkoutBookkeeping_other.
Qed.

(** Emitting a full snapshot stores it and resets the counter. *)
Lemma wrappedEmit_fullSnapshot f (e : eventWithTime) c w :
  type e = FullSnapshot →
  wrappedEmit host options (S f) e c w =
  Done tt (set_incrementalSnapshotCount 0
             (set_lastFullSnapshotEvent (Some e) (emittedWorld options e c w))).
Proof.
  intros He. rewrite wrappedEmit_unfold.
  assert (resumes e w = false) as ->.
  { unfold resumes. rewrite He. rewrite bool_decide_true by done.
    simpl. by rewrite andb_false_r. }
  by apply checkoutBookkeeping_fullSnapshot.
Qed.

(** The steps of [takeFullSnapshot] after its [Meta] event. *)
Lemma takeFullSnapshot_steps f c w :
  takeFullSnapshot host options (S f) c w =
  match wrappedEmit host options (S f)
          (metaEvent host (dateNow host (clockReads w))) (Some c)
          (set_clockReads (S (clockReads w)) w) with
  | Done _ w1 =>
      match snapshotResult host (snapshotCalls w1) with
      | (None, _) =>
          Done tt (set_trace (trace (serializingWorld w1)
                                ++ [EWarn "Failed to snapshot the document"])
                     (serializingWorld w1))
      | (Some node, idNodeMap) =>
          forEachBuffer (unlock (bufferEmit host options (S f)))
            (snapshotEmittedWorld host options node idNodeMap w1)
      end
  | Throws err w1 => Throws err w1
  | OutOfFuel => OutOfFuel
  end.
Proof.
  unfold takeFullSnapshot, takeFullSnapshot_body.
  rewrite wrapEvent_bind, bind_unfold. fold (metaEvent host (dateNow host (clockReads w))).
  destruct (wrappedEmit host options (S f) _ (Some c) _) as [[] w1|err w1|];
    [|done|done].
  rewrite bind_unfold, forEachBuffer_lock.
  rewrite bind_unfold. unfold snapshot at 1. cbv beta iota zeta.
  change (snapshotCalls (lockedWorld w1)) with (snapshotCalls w1).
  destruct (snapshotResult host (snapshotCalls w1)) as [[node|] m] eqn:Hs.
  - do 2 mstep.
    rewrite wrapEvent_bind, bind_unfold.
    rewrite wrappedEmit_fullSnapshot by done.
    reflexivity.
  - reflexivity.
Qed.

(** While the main buffer is active, the [Meta] event is emitted at
    once. *)
Lemma takeFullSnapshot_unfold f c w :
  mainBufferFrozen w = false →
  takeFullSnapshot host options (S f) c w =
  match snapshotResult host (snapshotCalls w) with
  | (None, _) =>
      Done tt (set_trace (trace (serializingWorld (metaEmittedWorld host options c w))
                            ++ [EWarn "Failed to snapshot the document"])
                 (serializingWorld (metaEmittedWorld host options c w)))
  | (Some node, idNodeMap) =>
      forEachBuffer (unlock (bufferEmit host options (S f)))
        (snapshotEmittedWorld host options node idNodeMap (metaEmittedWorld host options c w))
  end.
Proof.
  intros Hmain. rewrite takeFullSnapshot_steps.
  rewrite wrappedEmit_plain;
    [|by apply resumes_mainBufferFrozen|done|done].
  reflexivity.
Qed.

End Pipeline.

(** ** Effects of a loop over the buffers *)

(** Every iteration of a loop leaves its own effect in the trace. *)
Lemma forEach_effects (f : nat → M unit) (eff : nat → Effect) xs w w' :
  (∀ i w w', f i w = Done tt w' → ∃ t, trace w' = trace w ++ t ∧ eff i ∈ t) →
  forEach f xs w = Done tt w' →
  ∃ t, trace w' = trace w ++ t ∧ ∀ i, i ∈ xs → eff i ∈ t.
Proof.
  intros Hf. revert w. induction xs as [|x xs IH]; intros w Hr.
  - simpl in Hr. injection Hr as <-. exists []. split; [by rewrite app_nil_r|].
    intros i Hi. by apply elem_of_nil in Hi.
  - simpl in Hr. apply bind_Done in Hr as ([] & w1 & Hx & Hr).
    apply Hf in Hx as (t1 & Ht1 & Hin1).
    apply IH in Hr as (t2 & Ht2 & Hin2).
    exists (t1 ++ t2). split; [by rewrite Ht2, Ht1, app_assoc|].
    intros i [->|Hi]%elem_of_cons; apply elem_of_app; auto.
Qed.

Lemma forEachBuffer_effects (f : nat → M unit) (eff : nat → Effect) w w' :
  (∀ i w w', f i w = Done tt w' → ∃ t, trace w' = trace w ++ t ∧ eff i ∈ t) →
  forEachBuffer f w = Done tt w' →
  ∃ t, trace w' = trace w ++ t ∧
       ∀ i, i < length (mutationBuffers w) → eff i ∈ t.
Proof.
  intros Hf Hr. unfold forEachBuffer in Hr.
  destruct (forEach_effects f eff _ _ _ Hf Hr) as (t & Ht & Hin).
  exists t. split; [done|]. intros i Hi. apply Hin, elem_of_seq. lia.
Qed.

Lemma unlock_effect (be : nat → M unit) i w w' :
  preserves (be i) →
  unlock be i w = Done tt w' → ∃ t, trace w' = trace w ++ t ∧ EUnlock i ∈ t.
Proof.
  intros Hp Hr. unfold unlock, updateBuffer in Hr. do 2 (mstep in Hr).
  apply (preserves_Done _ _ _ _ Hp) in Hr.
  destruct (ext_trace _ _ Hr) as [t Ht]. simpl in Ht.
  exists (EUnlock i :: t). split.
  - by rewrite Ht, <- app_assoc.
  - apply elem_of_cons. by left.
Qed.

Lemma unfreeze_effect (be : nat → M unit) i w w' :
  preserves (be i) →
  unfreeze be i w = Done tt w' → ∃ t, trace w' = trace w ++ t ∧ EUnfreeze i ∈ t.
Proof.
  intros Hp Hr. unfold unfreeze, updateBuffer in Hr. do 2 (mstep in Hr).
  apply (preserves_Done _ _ _ _ Hp) in Hr.
  destruct (ext_trace _ _ Hr) as [t Ht]. simpl in Ht.
  exists (EUnfreeze i :: t). split.
  - by rewrite Ht, <- app_assoc.
  - apply elem_of_cons. by left.
Qed.

(** * The checkpoint sequence *)

Section Checkpoint.

Variable host : Host.
Variable options : recordOptions.

Lemma preserves_unlockAll f :
  preserves (forEachBuffer (unlock (bufferEmit host options f))).
Proof.
  apply preserves_forEachBuffer, preserves_unlock, preserves_bufferEmit.
Qed.

Lemma preserves_unfreezeAll f :
  preserves (forEachBuffer (unfreeze (bufferEmit host options f))).
Proof.
  apply preserves_forEachBuffer, preserves_unfreeze, preserves_bufferEmit.
Qed.

Lemma unlockAll_terminates f w :
  fuelCovers 1 f w →
  forEachBuffer (unlock (bufferEmit host options f)) w ≠ OutOfFuel.
Proof.
  intros Hw Hr.
  destruct (wrappedEmit_bufferEmit_terminate host options f) as (_ & _ & H1).
  apply (avoids_forEachBuffer RunsOutOfFuel _ (fuelCovers_stable 1 f)
           (unlock (bufferEmit host options f))
           (terminates_unlock f _ H1)
           (preserves_unlock _ (preserves_bufferEmit host options f)) w Hw).
  by rewrite Hr.
Qed.

Lemma unfreezeAll_terminates f w :
  fuelCovers 1 f w →
  forEachBuffer (unfreeze (bufferEmit host options f)) w ≠ OutOfFuel.
Proof.
  intros Hw Hr.
  destruct (wrappedEmit_bufferEmit_terminate host options f) as (_ & _ & H1).
  apply (avoids_forEachBuffer RunsOutOfFuel _ (fuelCovers_stable 1 f)
           (unfreeze (bufferEmit host options f))
           (terminates_unfreeze f _ H1)
           (preserves_unfreeze _ (preserves_bufferEmit host options f)) w Hw).
  by rewrite Hr.
Qed.

Lemma unlockAll_noThrow f w err w' :
  cadenceSafe options w →
  forEachBuffer (unlock (bufferEmit host options f)) w ≠ Throws err w'.
Proof.
  intros Hw Hr.
  destruct (wrappedEmit_bufferEmit_noThrow host options f) as (_ & H1).
  apply (avoids_forEachBuffer ThrowsError _ (cadenceSafe_stable options)
           (unlock (bufferEmit host options f))
           (noThrow_unlock options _ H1)
           (preserves_unlock _ (preserves_bufferEmit host options f)) w Hw).
  by rewrite Hr.
Qed.

Lemma unfreezeAll_noThrow f w err w' :
  cadenceSafe options w →
  forEachBuffer (unfreeze (bufferEmit host options f)) w ≠ Throws err w'.
Proof.
  intros Hw Hr.
  destruct (wrappedEmit_bufferEmit_noThrow host options f) as (_ & H1).
  apply (avoids_forEachBuffer ThrowsError _ (cadenceSafe_stable options)
           (unfreeze (bufferEmit host options f))
           (noThrow_unfreeze options _ H1)
           (preserves_unfreeze _ (preserves_bufferEmit host options f)) w Hw).
  by rewrite Hr.
Qed.

Lemma totalPending_locked bs :
  sum_list ((λ b, length (pending b)) <$> (setLocked true <$> bs)) =
  sum_list ((λ b, length (pending b)) <$> bs).
Proof. induction bs as [|b bs IH]; csimpl; [done|]. by rewrite IH. Qed.

(** A checkpoint whose serializer call returns a node tree, started while
    the main buffer is active. *)
Lemma takeFullSnapshot_success fuel c w node idNodeMap :
  mainBufferFrozen w = false →
  snapshotResult host (snapshotCalls w) = (Some node, idNodeMap) →
  fuelCovers 1 fuel w →
  ∃ w' flushed,
    takeFullSnapshot host options fuel c w = Done tt w' ∧
    trace w' =
      trace w ++
      [EOnEmit (delivered options (metaEvent host (dateNow host (clockReads w))))
         (Some c)] ++
      (ELock <$> seq 0 (length (mutationBuffers w))) ++
      [ESnapshot (snapshotCalls w);
       ESetMirror idNodeMap;
       EOnEmit (delivered options
                  (fullSnapshotEvent host node (dateNow host (S (clockReads w)))))
         None] ++
      flushed ∧
    (∀ i, i < length (mutationBuffers w) → EUnlock i ∈ flushed).
Proof.
  intros Hmain Hs Hfuel.
  destruct fuel as [|f]; [unfold fuelCovers in Hfuel; lia|].
  rewrite takeFullSnapshot_unfold by done. rewrite Hs.
  set (w5 := snapshotEmittedWorld host options node idNodeMap _).
  assert (cadenceSafe options w5) as Hsafe by (right; right; by eexists).
  assert (fuelCovers 1 (S f) w5) as Hcov.
  { unfold fuelCovers, totalPending in *. simpl.
    rewrite totalPending_locked. lia. }
  destruct (forEachBuffer (unlock (bufferEmit host options (S f))) w5)
    as [[] w'|err w'|] eqn:Hr.
  - destruct (forEachBuffer_effects _ EUnlock _ _
                (λ i w0 w1, unlock_effect _ i w0 w1
                              (preserves_bufferEmit host options (S f) i)) Hr)
      as (flushed & Ht & Hin).
    exists w', flushed. split; [done|]. split.
    + rewrite Ht. simpl. rewrite <- !app_assoc. simpl. by rewrite ?length_fmap.
    + intros i Hi. apply Hin. simpl. by rewrite ?length_fmap.
  - by apply unlockAll_noThrow in Hr.
  - by apply unlockAll_terminates in Hr.
Qed.

(** A checkpoint whose serializer call returns no node, started while the
    main buffer is active. *)
Lemma takeFullSnapshot_failure f c w :
  mainBufferFrozen w = false →
  (snapshotResult host (snapshotCalls w)).1 = None →
  ∃ w',
    takeFullSnapshot host options (S f) c w = Done tt w' ∧
    trace w' =
      trace w ++
      [EOnEmit (delivered options (metaEvent host (dateNow host (clockReads w))))
         (Some c)] ++
      (ELock <$> seq 0 (length (mutationBuffers w))) ++
      [ESnapshot (snapshotCalls w); EWarn "Failed to snapshot the document"] ∧
    mutationBuffers w' = (setLocked true <$> mutationBuffers w) ∧
    lastFullSnapshotEvent w' = lastFullSnapshotEvent w ∧
    mirror_map w' = mirror_map w.
Proof.
  intros Hmain Hs. rewrite takeFullSnapshot_unfold by done.
  destruct (snapshotResult host (snapshotCalls w)) as [[node|] m]; [done|].
  eexists. split; [done|]. simpl. repeat split.
  by rewrite <- !app_assoc.
Qed.

(** After such a checkpoint a buffer withholds what its detector finds:
    the mutation is queued and nothing is emitted. *)
Lemma failed_checkpoint_withholds_mutations f c w w' i b m fuel :
  mainBufferFrozen w = false →
  (snapshotResult host (snapshotCalls w)).1 = None →
  takeFullSnapshot host options (S f) c w = Done tt w' →
  mutationBuffers w !! i = Some b →
  ∃ w'', detectMutation host options (S fuel) i m w' = Done tt w'' ∧
         trace w'' = trace w' ∧
         mutationBuffers w'' !! i =
           Some (mkBuffer (frozen b) true (pending b ++ [m])).
Proof.
  intros Hmain Hs Hr Hb.
  destruct (takeFullSnapshot_failure f c w Hmain Hs)
    as (w1 & Hr1 & _ & Hbs & _).
  rewrite Hr in Hr1. injection Hr1 as <-.
  unfold detectMutation, updateBuffer. mstep.
  assert (mutationBuffers w' !! i = Some (setLocked true b)) as Hb'.
  { rewrite Hbs, list_lookup_fmap, Hb. reflexivity. }
  set (w2 := set_mutationBuffers _ w').
  assert (mutationBuffers w2 !! i =
          Some (mkBuffer (frozen b) true (pending b ++ [m]))) as Hb2.
  { simpl. rewrite list_lookup_alter, decide_True, Hb' by done. reflexivity. }
  exists w2. split; [|done].
  change (bufferEmit host options (S fuel) i w2) with
    (bufferEmit_body host (wrappedEmit host options fuel)
       (bufferEmit host options fuel) i w2).
  unfold bufferEmit_body. rewrite Hb2. simpl. by rewrite orb_true_r.
Qed.

End Checkpoint.

(** * Resuming a paused capture *)

(** What every iteration of a loop establishes and extensions keep holds
    for all iterations at the end. *)
Lemma forEach_establishes (f : nat → M unit) (Q : nat → World → Prop) xs w w' :
  (∀ i, preserves (f i)) →
  (∀ i w w', f i w = Done tt w' → Q i w') →
  (∀ i w w', extends w w' → Q i w → Q i w') →
  forEach f xs w = Done tt w' → ∀ i, i ∈ xs → Q i w'.
Proof.
  intros Hp Hf HQ. revert w. induction xs as [|x xs IH]; intros w Hr i Hi.
  - by apply elem_of_nil in Hi.
  - simpl in Hr. apply bind_Done in Hr as ([] & w1 & Hx & Hr).
    apply elem_of_cons in Hi as [->|Hi]; [|by eapply IH].
    eapply HQ; [|by eapply Hf].
    apply (preserves_Done _ _ _ _ (preserves_forEach f xs Hp) Hr).
Qed.

Lemma activeAt_extends i w w' : extends w w' → activeAt i w → activeAt i w'.
Proof.
  intros Hext Hw b' Hb'.
  destruct (Forall2_lookup_r _ _ _ _ _ (ext_buffers _ _ Hext) Hb')
    as (b & Hb & Hfrozen & _).
  specialize (Hw b Hb). destruct (frozen b'); [|done].
  rewrite Hfrozen in Hw; done.
Qed.

Lemma unfreeze_activeAt (be : nat → M unit) i w w' :
  preserves (be i) → unfreeze be i w = Done tt w' → activeAt i w'.
Proof.
  intros Hp Hr. unfold unfreeze, updateBuffer in Hr. do 2 (mstep in Hr).
  apply (preserves_Done _ _ _ _ Hp) in Hr.
  eapply activeAt_extends; [exact Hr|].
  intros b. simpl. rewrite list_lookup_alter, decide_True by done.
  destruct (mutationBuffers w !! i); intros [= <-]. done.
Qed.

Section Resume.

Variable host : Host.
Variable options : recordOptions.

Lemma unfreezeAll_active f w w' :
  forEachBuffer (unfreeze (bufferEmit host options f)) w = Done tt w' →
  Forall (λ b, frozen b = false) (mutationBuffers w').
Proof.
  intros Hr.
  pose proof (extends_length _ _ (preserves_Done _ _ _ _ (preserves_unfreezeAll host options f) Hr))
    as Hlen.
  apply Forall_lookup. intros i b Hb.
  assert (activeAt i w') as Hact; [|by apply Hact].
  unfold forEachBuffer in Hr.
  eapply (forEach_establishes _ activeAt _ _ _ _ _ _ Hr).
  apply elem_of_seq. apply lookup_lt_Some in Hb. lia.
  Unshelve.
  - intros j. apply preserves_unfreeze, preserves_bufferEmit.
  - intros j w0 w1. apply unfreeze_activeAt, preserves_bufferEmit.
  - intros j w0 w1. apply activeAt_extends.
Qed.

Lemma active_extends w w' :
  extends w w' →
  Forall (λ b, frozen b = false) (mutationBuffers w) →
  Forall (λ b, frozen b = false) (mutationBuffers w').
Proof.
  intros Hext Hw. apply Forall_lookup. intros i b' Hb'.
  apply (activeAt_extends i w w' Hext); [|done].
  intros b Hb. by eapply (proj1 (Forall_lookup _ _) Hw).
Qed.

(** The resume test of [wrappedEmit], in words. *)
Lemma resumes_true_iff (e : eventWithTime) w :
  resumes e w = true ↔
  mainBufferFrozen w = true ∧ type e ≠ FullSnapshot ∧
  ¬ (type e = IncrementalSnapshot ∧ source (data e) = Some Mutation).
Proof.
  unfold resumes. rewrite !andb_true_iff, !negb_true_iff.
  rewrite bool_decide_eq_false, andb_false_iff, !bool_decide_eq_false.
  split.
  - intros [[? ?] Hm]. repeat split; try done. intros [? ?]. by destruct Hm.
  - intros (? & ? & Hm). repeat split; try done.
    destruct (decide (type e = IncrementalSnapshot)); [|by left].
    right. intros ?. by apply Hm.
Qed.

(** An emission that resumes: every buffer is unfrozen before the event
    reaches the consumer. *)
Lemma wrappedEmit_resumes f (e : eventWithTime) c w w' :
  resumes e w = true →
  wrappedEmit host options (S f) e c w = Done tt w' →
  ∃ resumed rest,
    trace w' = trace w ++ resumed ++ EOnEmit (delivered options e) c :: rest ∧
    (∀ i, i < length (mutationBuffers w) → EUnfreeze i ∈ resumed) ∧
    Forall (λ b, frozen b = false) (mutationBuffers w').
Proof.
  intros Hres Hr. rewrite wrappedEmit_unfold, Hres in Hr.
  destruct (forEachBuffer (unfreeze (bufferEmit host options f)) w)
    as [[] w1|err w1|] eqn:Hun; [|done|done].
  destruct (forEachBuffer_effects _ EUnfreeze _ _
              (λ i w0 w2, unfreeze_effect _ i w0 w2
                            (preserves_bufferEmit host options f i)) Hun)
    as (resumed & Ht & Hin).
  pose proof (preserves_Done _ _ _ _
                (preserves_checkoutBookkeeping host options _ _
                   (preserves_wrappedEmit host options f)
                   (preserves_bufferEmit host options f) e) Hr) as Hext.
  destruct (ext_trace _ _ Hext) as [rest Hrest]. simpl in Hrest.
  exists resumed, rest. split; [|split].
  - rewrite Hrest, Ht, <- !app_assoc. done.
  - done.
  - apply (active_extends _ _ Hext). simpl. by eapply unfreezeAll_active.
Qed.

End Resume.

(** * The checkout cadence *)

Section Cadence.

Variable host : Host.
Variable options : recordOptions.

Lemma takeFullSnapshot_terminates_tight f c w :
  fuelCovers 2 f w → takeFullSnapshot host options f c w ≠ OutOfFuel.
Proof.
  intros Hf Ht.
  destruct (wrappedEmit_bufferEmit_terminate host options f) as (H3 & H2 & H1).
  apply (terminates_takeFullSnapshot_body host f _ _
           (preserves_wrappedEmit host options f)
           (preserves_bufferEmit host options f) H2 H1 c w Hf).
  unfold takeFullSnapshot in Ht. by rewrite Ht.
Qed.

(** An event that is neither a full nor an incremental snapshot reaches
    the consumer last, after whatever its emission resumed. *)
Lemma wrappedEmit_plain_trace f (e : eventWithTime) c w w' :
  type e ≠ FullSnapshot → type e ≠ IncrementalSnapshot →
  wrappedEmit host options f e c w = Done tt w' →
  ∃ resumed, trace w' = trace w ++ resumed ++ [EOnEmit (delivered options e) c].
Proof.
  intros H1 H2 Hr. destruct f as [|f]; [done|].
  rewrite wrappedEmit_unfold in Hr. destruct (resumes e w).
  - destruct (forEachBuffer (unfreeze (bufferEmit host options f)) w)
      as [[] w1|err w1|] eqn:Hun; [|done|done].
    rewrite checkoutBookkeeping_other in Hr by done. injection Hr as <-.
    apply (preserves_Done _ _ _ _ (preserves_unfreezeAll host options f)) in Hun.
    destruct (ext_trace _ _ Hun) as [resumed Ht].
    exists resumed. simpl. by rewrite Ht, <- app_assoc.
  - rewrite checkoutBookkeeping_other in Hr by done. injection Hr as <-.
    by exists [].
Qed.

(** A checkpoint that returns has emitted its [Meta] event, with the
    [isCheckout] flag it was called with. *)
Lemma takeFullSnapshot_emits_meta f c w w' :
  takeFullSnapshot host options f c w = Done tt w' →
  ∃ resumed rest,
    trace w' =
      trace w ++ resumed ++
      EOnEmit (delivered options (metaEvent host (dateNow host (clockReads w))))
        (Some c) :: rest.
Proof.
  intros Hr. unfold takeFullSnapshot, takeFullSnapshot_body in Hr.
  rewrite wrapEvent_bind in Hr.
  apply bind_Done in Hr as ([] & w1 & Hmeta & Hr).
  apply wrappedEmit_plain_trace in Hmeta as (resumed & Ht1); [|done|done].
  assert (extends w1 w') as Hext.
  { apply bind_Done in Hr as ([] & w2 & Hlock & Hr).
    apply (preserves_Done _ _ _ _
             (preserves_forEachBuffer _ preserves_lock)) in Hlock.
    apply bind_Done in Hr as ([[node|] m] & w3 & Hsnap & Hr);
      apply (preserves_Done _ _ _ _ (preserves_snapshot host)) in Hsnap.
    - apply bind_Done in Hr as ([] & w4 & Hmir & Hr).
      apply (preserves_Done _ _ _ _ (preserves_set_mirror_map m)) in Hmir.
      apply bind_Done in Hr as ([] & w5 & Hperf & Hr).
      apply (preserves_Done _ _ _ _ (preserves_perform _)) in Hperf.
      rewrite wrapEvent_bind in Hr.
      apply bind_Done in Hr as ([] & w6 & Hfs & Hr).
      apply (preserves_Done _ _ _ _ (preserves_wrappedEmit host options f _ _))
        in Hfs.
      apply (preserves_Done _ _ _ _ (preserves_unlockAll host options f)) in Hr.
      pose proof (extends_tick w5).
      repeat (etrans; [eassumption|]). done.
    - apply (preserves_Done _ _ _ _ (preserves_perform _)) in Hr.
      repeat (etrans; [eassumption|]). done. }
  destruct (ext_trace _ _ Hext) as [rest Ht2].
  exists resumed, rest. rewrite Ht2, Ht1. simpl. by rewrite <- !app_assoc.
Qed.

Lemma wrappedEmit_incremental f (e : eventWithTime) c w :
  type e = IncrementalSnapshot → resumes e w = false →
  wrappedEmit host options (S f) e c w =
  match exceedTime options e (countedWorld options e c w) with
  | Done exceedT _ =>
      if exceedCount options (incrementalSnapshotCount w + 1) || exceedT
      then takeFullSnapshot host options f true (countedWorld options e c w)
      else Done tt (countedWorld options e c w)
  | Throws err w' => Throws err w'
  | OutOfFuel => OutOfFuel
  end.
Proof.
  intros He Hres. rewrite wrappedEmit_unfold, Hres.
  by rewrite checkoutBookkeeping_incremental.
Qed.

(** [exceedTime] reads nothing but the stored last full snapshot. *)
Lemma exceedTime_frame e w w2 b :
  lastFullSnapshotEvent w2 = lastFullSnapshotEvent w →
  exceedTime options e w = Done b w → exceedTime options e w2 = Done b w2.
Proof.
  intros Hl. rewrite !exceedTime_unfold, Hl.
  destruct (checkoutEveryNms options) as [ms|]; [|congruence].
  destruct (decide (ms = 0%Z)); [congruence|].
  destruct (lastFullSnapshotEvent w); congruence.
Qed.

(** An incremental snapshot that trips neither cadence is handed to the
    consumer and counted, nothing else. *)
Lemma wrappedEmit_incremental_quiet f (e : eventWithTime) c w :
  type e = IncrementalSnapshot → resumes e w = false →
  exceedCount options (incrementalSnapshotCount w + 1) = false →
  exceedTime options e w = Done false w →
  wrappedEmit host options (S f) e c w = Done tt (countedWorld options e c w).
Proof.
  intros He Hres Hc Ht. rewrite wrappedEmit_incremental by done.
  rewrite (exceedTime_frame e w (countedWorld options e c w) false) by done.
  by rewrite Hc.
Qed.

(** An incremental snapshot that trips a cadence is followed by a
    checkpoint with [isCheckout = true]. *)
Lemma wrappedEmit_incremental_checkout f (e : eventWithTime) c w exceedT :
  type e = IncrementalSnapshot → resumes e w = false →
  exceedTime options e w = Done exceedT w →
  exceedCount options (incrementalSnapshotCount w + 1) || exceedT = true →
  wrappedEmit host options (S f) e c w =
  takeFullSnapshot host options f true (countedWorld options e c w).
Proof.
  intros He Hres Ht Hc. rewrite wrappedEmit_incremental by done.
  rewrite (exceedTime_frame e w (countedWorld options e c w) exceedT) by done.
  by rewrite Hc.
Qed.

(** Without a stored full snapshot, evaluating the time-based cadence
    throws. *)
Lemma wrappedEmit_incremental_throws f (e : eventWithTime) c w ms :
  type e = IncrementalSnapshot → resumes e w = false →
  checkoutEveryNms options = Some ms → ms ≠ 0%Z →
  lastFullSnapshotEvent w = None →
  wrappedEmit host options (S f) e c w =
  Throws (TypeError "Cannot read property 'timestamp' of undefined")
    (countedWorld options e c w).
Proof.
  intros He Hres Hms Hne Hl. rewrite wrappedEmit_incremental by done.
  rewrite exceedTime_unfold, Hms, decide_False by done.
  simpl. by rewrite Hl.
Qed.

(** A run of incremental snapshots none of which trips a cadence. *)
Lemma quiet_run f (es : list eventWithTime) w :
  mainBufferFrozen w = false →
  (∀ e : eventWithTime, e ∈ es →
        type e = IncrementalSnapshot ∧ exceedTime options e w = Done false w) →
  (∀ k, k < length es →
        exceedCount options (incrementalSnapshotCount w + Z.of_nat (S k)) = false) →
  ∃ w',
    forEach (λ e, wrappedEmit host options (S f) e None) es w = Done tt w' ∧
    trace w' = trace w ++ ((λ e, EOnEmit (delivered options e) None) <$> es) ∧
    incrementalSnapshotCount w' =
      (incrementalSnapshotCount w + Z.of_nat (length es))%Z ∧
    mutationBuffers w' = mutationBuffers w ∧
    lastFullSnapshotEvent w' = lastFullSnapshotEvent w ∧
    snapshotCalls w' = snapshotCalls w ∧
    clockReads w' = clockReads w.
Proof.
  revert w. induction es as [|e es IH]; intros w Hmain Hes Hcount.
  - exists w. simpl. rewrite app_nil_r, Z.add_0_r. done.
  - destruct (Hes e) as [He Ht]; [by left|].
    rewrite forEach_cons.
    rewrite wrappedEmit_incremental_quiet;
      [|done|by apply resumes_mainBufferFrozen| |done].
    2: { specialize (Hcount 0). simpl in Hcount.
         rewrite <- (Hcount ltac:(lia)). f_equal. }
    destruct (IH (countedWorld options e None w)) as (w' & Hr & Htr & Hc & Hb & Hl & Hs & Hk).
    + done.
    + intros e' He'. destruct (Hes e') as [? ?]; [by right|].
      split; [done|]. by apply (exceedTime_frame e' w).
    + intros k Hk. simpl.
      specialize (Hcount (S k)). simpl in Hcount.
      rewrite <- (Hcount ltac:(lia)). f_equal. lia.
    + exists w'. rewrite Hr. split; [done|].
      rewrite Htr, Hc, Hb, Hl, Hs, Hk. simpl.
      rewrite <- app_assoc. repeat split. lia.
Qed.

End Cadence.

(** * The trace of a checkpoint *)

(** A checkpoint that returned, step by step: what its [Meta] emission
    resumed, the [Meta] event, the locks, the serializer call, and then
    either the warning or the registry, the [FullSnapshot] event and the
    unlocks with what they flush. *)
Lemma takeFullSnapshot_trace host options fuel c w w' :
  takeFullSnapshot host options fuel c w = Done tt w' →
  ∃ resumed k tail,
    trace w' =
      trace w ++ resumed ++
      [EOnEmit (delivered options (metaEvent host (dateNow host (clockReads w))))
         (Some c)] ++
      (ELock <$> seq 0 (length (mutationBuffers w))) ++
      [ESnapshot k] ++ tail ∧
    (mainBufferFrozen w = false → resumed = [] ∧ k = snapshotCalls w) ∧
    match snapshotResult host k with
    | (Some node, idNodeMap) =>
        ∃ t flushed,
          tail = [ESetMirror idNodeMap;
                  EOnEmit (delivered options (fullSnapshotEvent host node t)) None]
                 ++ flushed ∧
          (∀ i, i < length (mutationBuffers w) → EUnlock i ∈ flushed)
    | (None, _) => tail = [EWarn "Failed to snapshot the document"]
    end.
Proof.
  intros Hr. destruct fuel as [|f]; [done|].
  rewrite takeFullSnapshot_steps in Hr.
  destruct (wrappedEmit host options (S f) _ (Some c) _)
    as [[] w1|err w1|] eqn:Hmeta; [|done|done].
  pose proof (preserves_Done _ _ _ _ (preserves_wrappedEmit host options _ _ _)
                Hmeta) as Hext.
  apply extends_length in Hext. simpl in Hext.
  assert (∃ resumed,
            trace w1 = trace w ++ resumed ++
              [EOnEmit (delivered options
                          (metaEvent host (dateNow host (clockReads w)))) (Some c)] ∧
            (mainBufferFrozen w = false →
             resumed = [] ∧ snapshotCalls w1 = snapshotCalls w))
    as (resumed & Ht1 & Hactive).
  { destruct (mainBufferFrozen w) eqn:Hmain.
    - apply wrappedEmit_plain_trace in Hmeta as (resumed & Ht1); [|done|done].
      by exists resumed.
    - rewrite wrappedEmit_plain in Hmeta;
        [|by apply resumes_mainBufferFrozen|done|done].
      injection Hmeta as <-. by exists []. }
  exists resumed, (snapshotCalls w1).
  destruct (snapshotResult host (snapshotCalls w1)) as [[node|] m] eqn:Hs.
  - destruct (forEachBuffer_effects _ EUnlock _ _
                (λ i w0 w2, unlock_effect _ i w0 w2
                              (preserves_bufferEmit host options (S f) i)) Hr)
      as (flushed & Ht & Hin).
    eexists. split; [|split].
    + rewrite Ht. simpl. rewrite Ht1, Hext, <- !app_assoc. simpl. reflexivity.
    + intros Hmain. destruct (Hactive Hmain) as [-> ->]. done.
    + exists (dateNow host (clockReads w1)), flushed. split; [done|].
      intros i Hi. apply Hin. simpl. rewrite length_fmap. lia.
  - injection Hr as <-. eexists. split; [|split].
    + simpl. rewrite Ht1, Hext, <- !app_assoc. simpl. reflexivity.
    + intros Hmain. destruct (Hactive Hmain) as [-> ->]. done.
    + done.
Qed.

(** * The order of a checkpoint, and its failure *)



(** C1, as the code has it.  A checkpoint that starts while the main
    buffer is active and whose serializer call returns no node emits
    [Meta], locks every buffer, reports the warning and returns: no
    [FullSnapshot] is emitted and the identity registry and the stored
    last full snapshot stay as they were, but no lock is released: every
    buffer is left locked and withholds the mutations detected from then
    on. *)
Theorem failed_checkpoint_keeps_locks host options f c w :
  mainBufferFrozen w = false →
  (snapshotResult host (snapshotCalls w)).1 = None →
  ∃ w',
    takeFullSnapshot host options (S f) c w = Done tt w' ∧
    trace w' =
      trace w ++
      [EOnEmit (delivered options (metaEvent host (dateNow host (clockReads w))))
         (Some c)] ++
      (ELock <$> seq 0 (length (mutationBuffers w))) ++
      [ESnapshot (snapshotCalls w); EWarn "Failed to snapshot the document"] ∧
    lastFullSnapshotEvent w' = lastFullSnapshotEvent w ∧
    mirror_map w' = mirror_map w ∧
    length (mutationBuffers w') = length (mutationBuffers w) ∧
    Forall (λ b, locked b = true) (mutationBuffers w') ∧
    ∀ i b m fuel,
      mutationBuffers w !! i = Some b →
      ∃ w'', detectMutation host options (S fuel) i m w' = Done tt w'' ∧
             trace w'' = trace w' ∧
             mutationBuffers w'' !! i =
               Some (mkBuffer (frozen b) true (pending b ++ [m])).
Proof.
  intros Hmain Hs.
  destruct (takeFullSnapshot_failure host options f c w Hmain Hs)
    as (w' & Hr & Ht & Hb & Hl & Hm).
  exists w'. repeat split; try done.
  - by rewrite Hb, length_fmap.
  - rewrite Hb. apply Forall_fmap, Forall_forall. done.
  - intros i b m fuel Hi.
    by eapply failed_checkpoint_withholds_mutations.
Qed.

Lemma failed_checkpoint_keeps_locks_witness :
  ∃ w', takeFullSnapshot (page serializerFails complete) plainOptions 4 true
          observing = Done tt w' ∧
        outline <$> trace w' =
          [Emits Meta (Some true); Locks 0; Serializes; Warns] ∧
        Forall (λ b, locked b = true) (mutationBuffers w').
Proof.
  destruct (failed_checkpoint_keeps_locks (page serializerFails complete)
              plainOptions 3 true observing)
    as (w' & Hr & Ht & _ & _ & _ & Hb & _).
  - reflexivity.
  - reflexivity.
  - exists w'. split; [exact Hr|]. rewrite Ht. split; [reflexivity|exact Hb].
Defined.

(** * Activity during a pause *)

(** C3, as the code has it.  When the main (first) mutation buffer is
    paused and an outgoing event is neither a [FullSnapshot] nor a
    tree-mutation [IncrementalSnapshot], the emit pipeline unfreezes all
    mutation buffers, the main one and every embedded document's, before
    the event is handed to the consumer: the call does not run out of
    fuel, it returns wherever the time-based cadence can be evaluated,
    and whenever it returns every buffer has been resumed before the
    event and is active. *)
Theorem resume_when_main_buffer_paused host options fuel (e : eventWithTime) c w :
  mainBufferFrozen w = true →
  type e ≠ FullSnapshot →
  ¬ (type e = IncrementalSnapshot ∧ source (data e) = Some Mutation) →
  enoughFuel w ≤ fuel →
  wrappedEmit host options fuel e c w ≠ OutOfFuel ∧
  (cadenceSafe options w →
   ∃ w', wrappedEmit host options fuel e c w = Done tt w') ∧
  (∀ w', wrappedEmit host options fuel e c w = Done tt w' →
     ∃ resumed rest,
       trace w' = trace w ++ resumed ++ EOnEmit (delivered options e) c :: rest ∧
       (∀ i, i < length (mutationBuffers w) → EUnfreeze i ∈ resumed) ∧
       Forall (λ b, isFrozen b = false) (mutationBuffers w')).
Proof.
  intros Hmain Hfs Hmut Hfuel. split; [|split].
  - by apply wrappedEmit_terminates.
  - intros Hsafe. by apply wrappedEmit_returns.
  - intros w' Hr. destruct fuel as [|f]; [done|].
    eapply wrappedEmit_resumes; [|exact Hr].
    by apply resumes_true_iff.
Qed.

Lemma resume_when_main_buffer_paused_witness :
  ∃ w', wrappedEmit (page serializerWorks complete) plainOptions 7
          (inputEvent 5) None pausedWorld = Done tt w' ∧
        outline <$> trace w' =
          [Resumes 0; Emits IncrementalSnapshot None; Resumes 1;
           Emits IncrementalSnapshot None] ∧
        Forall (λ b, isFrozen b = false) (mutationBuffers w').
Proof.
  destruct (resume_when_main_buffer_paused (page serializerWorks complete)
              plainOptions 7 (inputEvent 5) None pausedWorld)
    as (_ & Hret & Hres).
  - reflexivity.
  - discriminate.
  - intros [_ H]. discriminate H.
  - vm_compute. lia.
  - destruct Hret as [w' Hr]; [by left|].
    exists w'. split; [exact Hr|].
    destruct (Hres w' Hr) as (_ & _ & _ & _ & Hact).
    split; [|exact Hact].
    revert Hr. vm_compute. intros [= <-]. reflexivity.
Defined.

(** C3 as stated fails.  With the main buffer active and the buffer of
    an embedded document paused, an input event is handed to the
    consumer and nothing is resumed.  Such a state arises in the middle
    of a resume: when the flush of the main buffer triggers a checkpoint,
    its [Meta] event reaches the consumer while the second buffer is
    still paused. *)
Lemma resume_skipped_when_main_buffer_active :
  (∃ b, b ∈ mutationBuffers embeddedPausedWorld ∧ isFrozen b = true) ∧
  (∃ w', wrappedEmit (page serializerWorks complete) plainOptions 4
           (inputEvent 5) None embeddedPausedWorld = Done tt w' ∧
         trace w' = [EOnEmit (Plain (inputEvent 5)) None] ∧
         mutationBuffers w' = mutationBuffers embeddedPausedWorld) ∧
  (∃ w', pausedSession freshWorld = Done tt w' ∧
         take 9 (outline <$> trace w') =
           [Emits Meta (Some false); Serializes; InstallsRegistry;
            Emits FullSnapshot None;
            Pauses 0; Pauses 1; Resumes 0;
            Emits IncrementalSnapshot None; Emits Meta (Some true)] ∧
         Resumes 1 ∈ drop 9 (outline <$> trace w')).
Proof.
  split; [|split].
  - exists (mkBuffer true false ["childList"]). split; [|reflexivity].
    apply (list_elem_of_lookup_2 _ 1). reflexivity.
  - eexists. split; [vm_compute; reflexivity|]. split; reflexivity.
  - eexists. split; [vm_compute; reflexivity|]. split; [reflexivity|].
    apply (list_elem_of_lookup_2 _ 7). reflexivity.
Qed.

(** * When checkpoints are taken *)






(** C9, as the code has it.  With a time-based cadence configured, a
    session whose initial structural snapshot failed stores no last full
    snapshot, and the first incremental snapshot that the emit pipeline
    processes throws on reading its timestamp. *)
Theorem incremental_after_failed_initial_snapshot_throws :
  ∃ w1 w2,
    record (page serializerFails complete) 4 everySecond freshWorld =
      Done (Some disposer) w1 ∧
    outline <$> trace w1 = [Emits Meta (Some false); Serializes; Warns] ∧
    lastFullSnapshotEvent w1 = None ∧
    detectorCb (page serializerFails complete) everySecond 4 Input "{}" w1 =
      Throws (TypeError "Cannot read property 'timestamp' of undefined") w2 ∧
    outline <$> trace w2 =
      [Emits Meta (Some false); Serializes; Warns;
       Emits IncrementalSnapshot None].
Proof.
  eexists _, _. split; [vm_compute; reflexivity|].
  split; [reflexivity|]. split; [reflexivity|].
  split; [vm_compute; reflexivity|reflexivity].
Qed.

(** In general: no stored full snapshot and a time-based cadence make
    every incremental snapshot that resumes nothing throw, after it has
    reached the consumer. *)
Lemma incremental_without_snapshot_throws host options f (e : eventWithTime) c w ms :
  type e = IncrementalSnapshot → resumes e w = false →
  checkoutEveryNms options = Some ms → ms ≠ 0%Z →
  lastFullSnapshotEvent w = None →
  ∃ w', wrappedEmit host options (S f) e c w =
          Throws (TypeError "Cannot read property 'timestamp' of undefined") w' ∧
        trace w' = trace w ++ [EOnEmit (delivered options e) c].
Proof.
  intros He Hres Hms Hne Hl. eexists. split.
  - by eapply wrappedEmit_incremental_throws.
  - reflexivity.
Qed.

(** * The constructor: the remaining options *)

Lemma slimLiteral_lookup all kind :
  slimLiteral all !! kind =
  if bool_decide (kind ∈ slimmedKinds) then Some true
  else if bool_decide (kind ∈ hiddenInfoKinds) then Some all
  else None.
Proof.
  unfold slimLiteral. simpl.
  repeat (rewrite lookup_insert; destruct (decide (_ = kind)) as [<-|?];
          [by vm_compute|]).
  rewrite lookup_empty.
  rewrite bool_decide_false.
  2: { unfold slimmedKinds. rewrite !elem_of_cons, elem_of_nil.
       intros H. repeat (destruct H as [->|H]; [congruence|]). done. }
  rewrite bool_decide_false; [done|].
  unfold hiddenInfoKinds. rewrite !elem_of_cons, elem_of_nil.
  intros H. repeat (destruct H as [->|H]; [congruence|]). done.
Qed.

(** X1.  Which kinds of node the constructor's [slimDOMOptions] drops:
    for the option [true] exactly the eight kinds [script], [comment],
    [headFavicon], [headWhitespace], [headMetaSocial], [headMetaRobots],
    [headMetaHttpEquiv] and [headMetaVerification], so that
    [headMetaAuthorship] and [headMetaDescKeywords] are kept; for ['all']
    these two as well; a supplied object is used as it is; and when the
    option is absent or falsy nothing is dropped. *)
Theorem slimDOMOptions_effective (c : captureOptions) (kind : string) :
  slims (Recorder_slimDOMOptions c) kind =
  match slimDOMOptions c with
  | Some slimTrue => bool_decide (kind ∈ slimmedKinds)
  | Some slimAll => bool_decide (kind ∈ slimmedKinds ++ hiddenInfoKinds)
  | Some (slimObject given) => slims given kind
  | Some slimFalse | None => false
  end.
Proof.
  unfold Recorder_slimDOMOptions, slims.
  destruct (slimDOMOptions c) as [[| |given|]|]; try done.
  - rewrite slimLiteral_lookup.
    destruct (bool_decide (kind ∈ slimmedKinds)); [done|].
    by destruct (bool_decide (kind ∈ hiddenInfoKinds)).
  - rewrite slimLiteral_lookup.
    destruct (bool_decide (kind ∈ slimmedKinds)) eqn:H1.
    + apply bool_decide_eq_true in H1. symmetry. apply bool_decide_eq_true.
      apply elem_of_app. by left.
    + apply bool_decide_eq_false in H1.
      destruct (bool_decide (kind ∈ hiddenInfoKinds)) eqn:H2.
      * apply bool_decide_eq_true in H2. symmetry. apply bool_decide_eq_true.
        apply elem_of_app. by right.
      * apply bool_decide_eq_false in H2. symmetry. apply bool_decide_eq_false.
        rewrite elem_of_app. tauto.
Qed.

(** X2.  The deprecated option [mousemoveWait] is moved into
    [sampling.mousemove] only when [sampling] has no defined [mousemove]
    of its own: then [sampling.mousemove] reads as [mousemoveWait];
    an explicit [sampling.mousemove] wins over [mousemoveWait]; without
    [mousemoveWait] nothing changes; and no other key of [sampling] is
    ever touched. *)
Theorem sampling_mousemove_moved (c : captureOptions) :
  readKey (Recorder_sampling c) "mousemove" =
    match readKey (default ∅ (sampling c)) "mousemove", mousemoveWait c with
    | SUndefined, Some wait => SNumber wait
    | given, _ => given
    end ∧
  ∀ key, key ≠ "mousemove" →
         Recorder_sampling c !! key = default ∅ (sampling c) !! key.
Proof.
  unfold Recorder_sampling. set (s := default ∅ (sampling c)).
  destruct (mousemoveWait c) as [wait|]; simpl.
  - destruct (decide (readKey s "mousemove" = SUndefined)) as [Hnone|Hsome].
    + split.
      * rewrite Hnone. unfold readKey. by rewrite lookup_insert_eq.
      * intros key Hne. by rewrite lookup_insert_ne.
    + split; [|done]. by destruct (readKey s "mousemove").
  - split; [|done]. by destruct (readKey s "mousemove").
Qed.

Lemma objectAssign_lookup target source key :
  objectAssign target source !! key =
  match source !! key with
  | Some v => Some v
  | None => target !! key
  end.
Proof.
  unfold objectAssign. destruct (source !! key) as [v|] eqn:Hs.
  - by apply lookup_union_Some_l.
  - by rewrite lookup_union_r.
Qed.

(** X3.  The log options of the constructor: for a [recordLog] object
    every key it has is used with the value it has there, and every key
    it leaves out takes the default (all nineteen console levels, a
    length threshold of 1000, the console as logger), so that each of
    the three keys is present; [recordLog: true] gives the same options
    as an empty object; when [recordLog] is [false] or absent the options
    are empty. *)
Theorem logOptions_effective (c : captureOptions) :
  (∀ key,
     Recorder_logOptions c !! key =
     match recordLog c with
     | Some (logObject given) =>
         match given !! key with
         | Some v => Some v
         | None => defaultLogOptions !! key
         end
     | Some (logBool true) => defaultLogOptions !! key
     | Some (logBool false) | None => None
     end) ∧
  (∀ given key,
     recordLog c = Some (logObject given) → key ∈ logKeys →
     is_Some (Recorder_logOptions c !! key)) ∧
  Recorder_logOptions (onlyRecordLog (logBool true)) =
    Recorder_logOptions (onlyRecordLog (logObject ∅)).
Proof.
  assert (∀ key,
            Recorder_logOptions c !! key =
            match recordLog c with
            | Some (logObject given) =>
                match given !! key with
                | Some v => Some v
                | None => defaultLogOptions !! key
                end
            | Some (logBool true) => defaultLogOptions !! key
            | Some (logBool false) | None => None
            end) as Hlookup.
  { intros key. unfold Recorder_logOptions.
    destruct (recordLog c) as [[[|]|given]|]; simpl; try done.
    rewrite !objectAssign_lookup, lookup_empty.
    destruct (given !! key); [done|]. by destruct (defaultLogOptions !! key). }
  split; [exact Hlookup|]. split.
  - intros given key Hc Hkey. rewrite Hlookup, Hc.
    destruct (given !! key); [by eexists|].
    unfold logKeys in Hkey. rewrite !elem_of_cons, elem_of_nil in Hkey.
    destruct Hkey as [->|[->|[->|[]]]]; by eexists.
  - unfold Recorder_logOptions, objectAssign. simpl.
    by rewrite (left_id_L ∅ (∪)), (right_id_L ∅ (∪)).
Qed.

(** X4.  The serializer and the observers are configured alike for
    blocking, inlining, canvas recording and slimming, but not for
    masking: the serializer is handed the option [maskAllInputs] as it
    was supplied, so two configurations that differ in
    [maskInputOptions] alone give the serializer the same options,
    while the observers mask, unless [maskAllInputs] is [true], exactly
    the kinds that [maskInputOptions] names. *)
Theorem snapshotOptions_ignore_maskInputOptions
    (o : recordOptions) (c : captureOptions) (given : MaskInputOptions) :
  Recorder_snapshotOptions
    (mkOptions (emit o) (checkoutEveryNms o) (checkoutEveryNth o)
       (maskAllInputs o) (Some given) (packFn o)) c =
    Recorder_snapshotOptions o c ∧
  snapshot_maskAllInputs (Recorder_snapshotOptions o c) = maskAllInputs o ∧
  (∀ kind,
     masks (observer_maskInputOptions
              (Recorder_observerOptions
                 (mkOptions (emit o) (checkoutEveryNms o) (checkoutEveryNth o)
                    (maskAllInputs o) (Some given) (packFn o)) c)) kind =
     if decide (maskAllInputs o = Some true) then masks maskEveryInput kind
     else masks given kind) ∧
  snapshot_blockClass (Recorder_snapshotOptions o c) =
    observer_blockClass (Recorder_observerOptions o c) ∧
  snapshot_blockSelector (Recorder_snapshotOptions o c) =
    observer_blockSelector (Recorder_observerOptions o c) ∧
  snapshot_inlineStylesheet (Recorder_snapshotOptions o c) =
    observer_inlineStylesheet (Recorder_observerOptions o c) ∧
  snapshot_recordCanvas (Recorder_snapshotOptions o c) =
    observer_recordCanvas (Recorder_observerOptions o c) ∧
  snapshot_slimDOM (Recorder_snapshotOptions o c) =
    observer_slimDOMOptions (Recorder_observerOptions o c).
Proof.
  repeat split. intros kind. simpl. unfold Recorder_maskInputOptions. simpl.
  by destruct (decide (maskAllInputs o = Some true)).
Qed.

(** * Invariants of the emit pipeline *)

Section Relates.

Variable R : World → World → Prop.
Hypothesis R_refl : ∀ w, R w w.
Hypothesis R_trans : ∀ w1 w2 w3, R w1 w2 → R w2 w3 → R w1 w3.

Lemma relates_ret {A : Type} (a : A) : relates R (mret a).
Proof. intros w. apply R_refl. Qed.

Lemma relates_gets {A : Type} (f : World → A) : relates R (gets f).
Proof. intros w. apply R_refl. Qed.

Lemma relates_outOfFuel {A : Type} : relates R (λ _ : World, @OutOfFuel A).
Proof. by intros w. Qed.

Lemma relates_modify f : (∀ w, R w (f w)) → relates R (modify f).
Proof. intros Hf w. apply Hf. Qed.

Lemma relates_bind {A B : Type} (m : M A) (k : A → M B) :
  relates R m → (∀ a, relates R (k a)) → relates R (m ≫= k).
Proof.
  intros Hm Hk w. rewrite bind_unfold. specialize (Hm w).
  destruct (m w) as [a w1|err w1|]; simpl in *; [|done|done].
  specialize (Hk a w1). destruct (k a w1); simpl in *; eauto.
Qed.

Lemma relates_forEach {A : Type} (f : A → M unit) (xs : list A) :
  (∀ x, relates R (f x)) → relates R (forEach f xs).
Proof.
  intros Hf. induction xs as [|x xs IH]; simpl.
  - apply relates_ret.
  - apply relates_bind; auto.
Qed.

Lemma relates_forEachBuffer (f : nat → M unit) :
  (∀ i, relates R (f i)) → relates R (forEachBuffer f).
Proof. intros Hf w. unfold forEachBuffer. by apply relates_forEach. Qed.

End Relates.

Section Invariant.

Variable host : Host.
Variable options : recordOptions.
Variable R : World → World → Prop.
Variable allowed : eventWithTime → option bool → Prop.
Hypothesis inv : emitInvariant host options R allowed.

Let R_refl := inv_refl _ _ _ _ inv.
Let R_trans := inv_trans _ _ _ _ inv.

Lemma invariant_wrapEvent_bind {B : Type} ev (k : eventWithTime → M B) :
  (∀ t, relates R (k {| event_of := ev; timestamp := t |})) →
  relates R (wrapEvent host ev ≫= k).
Proof.
  intros Hk w. rewrite wrapEvent_bind.
  specialize (Hk (dateNow host (clockReads w))
                (set_clockReads (S (clockReads w)) w)).
  destruct (k _ _); simpl in *; [| |done].
  all: eapply R_trans; [apply (inv_clock _ _ _ _ inv)|done].
Qed.

Lemma invariant_updateBuffer i f : relates R (updateBuffer i f).
Proof. intros w. apply (inv_buffers _ _ _ _ inv). Qed.

Lemma invariant_perform eff :
  (∀ p c, eff ≠ EOnEmit p c) → relates R (perform eff).
Proof. intros Heff w. by apply (inv_effect _ _ _ _ inv). Qed.

Lemma invariant_lock i : relates R (lock i).
Proof.
  apply relates_bind; auto using invariant_updateBuffer.
  intros _. by apply invariant_perform.
Qed.

Lemma invariant_snapshot : relates R (snapshot host).
Proof.
  intros w.
  change (R w (set_trace (trace w ++ [ESnapshot (snapshotCalls w)])
                 (set_snapshotCalls (S (snapshotCalls w)) w))).
  eapply R_trans; [apply (inv_snapshot _ _ _ _ inv w (S (snapshotCalls w)))|].
  by apply (inv_effect _ _ _ _ inv (set_snapshotCalls _ w) (ESnapshot _)).
Qed.

Section Bodies.

Variable wrappedEmit_rec : eventWithTime → option bool → M unit.
Variable bufferEmit_rec : nat → M unit.
Hypothesis wrappedEmit_rec_relates :
  ∀ e c, allowed e c → relates R (wrappedEmit_rec e c).
Hypothesis bufferEmit_rec_relates : ∀ i, relates R (bufferEmit_rec i).

Lemma invariant_mutationCb m : relates R (mutationCb host wrappedEmit_rec m).
Proof.
  apply invariant_wrapEvent_bind. intros t.
  apply wrappedEmit_rec_relates, (inv_mutation _ _ _ _ inv).
Qed.

Lemma invariant_bufferEmit_body i :
  relates R (bufferEmit_body host wrappedEmit_rec bufferEmit_rec i).
Proof.
  intros w. unfold bufferEmit_body.
  destruct (mutationBuffers w !! i) as [b|]; [|apply R_refl].
  destruct (frozen b || locked b); [apply R_refl|].
  destruct (pending b) as [|m q]; [apply R_refl|].
  apply (relates_bind R R_trans); [apply invariant_updateBuffer|intros _].
  apply (relates_bind R R_trans); [apply invariant_mutationCb|intros _].
  apply bufferEmit_rec_relates.
Qed.

Lemma invariant_unfreeze i : relates R (unfreeze bufferEmit_rec i).
Proof.
  apply (relates_bind R R_trans); [apply invariant_updateBuffer|intros _].
  apply (relates_bind R R_trans); [by apply invariant_perform|intros _].
  apply bufferEmit_rec_relates.
Qed.

Lemma invariant_unlock i : relates R (unlock bufferEmit_rec i).
Proof.
  apply (relates_bind R R_trans); [apply invariant_updateBuffer|intros _].
  apply (relates_bind R R_trans); [by apply invariant_perform|intros _].
  apply bufferEmit_rec_relates.
Qed.

Lemma invariant_takeFullSnapshot_body c :
  (∀ t, allowed (metaEvent host t) (Some c)) →
  relates R (takeFullSnapshot_body host wrappedEmit_rec bufferEmit_rec c).
Proof.
  intros Hc. unfold takeFullSnapshot_body.
  apply invariant_wrapEvent_bind. intros t.
  apply (relates_bind R R_trans);
    [apply wrappedEmit_rec_relates, Hc|intros _].
  apply (relates_bind R R_trans);
    [apply (relates_forEachBuffer R R_refl R_trans), invariant_lock|intros _].
  apply (relates_bind R R_trans); [apply invariant_snapshot|intros [[node|] m]].
  - apply (relates_bind R R_trans);
      [apply relates_modify; intros w0; apply (inv_mirror _ _ _ _ inv)|intros _].
    apply (relates_bind R R_trans); [by apply invariant_perform|intros _].
    apply invariant_wrapEvent_bind. intros t'.
    apply (relates_bind R R_trans);
      [apply wrappedEmit_rec_relates, (inv_full _ _ _ _ inv)|intros _].
    apply (relates_forEachBuffer R R_refl R_trans), invariant_unlock.
  - by apply invariant_perform.
Qed.

Lemma invariant_emission (e : eventWithTime) c :
  allowed e c →
  relates R (onEmit options e c ;;
             checkoutBookkeeping host options wrappedEmit_rec bufferEmit_rec e).
Proof.
  intros Hallowed w. unfold onEmit. mstep.
  fold (emittedWorld options e c w).
  pose proof (inv_emit _ _ _ _ inv e c w Hallowed) as Hemit.
  unfold bookkeptWorld in Hemit.
  destruct (decide (type e = FullSnapshot)) as [Hfull|Hfull].
  { by rewrite checkoutBookkeeping_fullSnapshot. }
  destruct (decide (type e = IncrementalSnapshot)) as [Hincr|Hincr].
  2: { by rewrite checkoutBookkeeping_other. }
  rewrite checkoutBookkeeping_incremental by done. cbv zeta.
  fold (countedWorld options e c w).
  rewrite exceedTime_unfold.
  assert (∀ b : bool,
            match finalWorld
                    (if exceedCount options
                          (incrementalSnapshotCount (emittedWorld options e c w) + 1)
                        || b
                     then takeFullSnapshot_body host wrappedEmit_rec
                            bufferEmit_rec true (countedWorld options e c w)
                     else Done tt (countedWorld options e c w))
            with Some w' => R w w' | None => True end) as Hbranch.
  { intros b. destruct (_ || b); [|done].
    pose proof (invariant_takeFullSnapshot_body true (inv_meta _ _ _ _ inv)
                  (countedWorld options e c w)) as Htake.
    destruct (takeFullSnapshot_body _ _ _ _ _); simpl in *; eauto. }
  destruct (checkoutEveryNms options) as [ms|]; [|apply Hbranch].
  destruct (decide (ms = 0%Z)); [apply Hbranch|].
  destruct (lastFullSnapshotEvent _) as [l|]; [apply Hbranch|exact Hemit].
Qed.

Lemma invariant_wrappedEmit_body e c :
  allowed e c →
  relates R (wrappedEmit_body host options wrappedEmit_rec bufferEmit_rec e c).
Proof.
  intros Hallowed. unfold wrappedEmit_body.
  apply (relates_bind R R_trans); [apply (relates_gets R R_refl)|intros doResume].
  apply (relates_bind R R_trans).
  { destruct doResume; [|apply (relates_ret R R_refl)].
    apply (relates_forEachBuffer R R_refl R_trans), invariant_unfreeze. }
  intros _. by apply invariant_emission.
Qed.

End Bodies.

(** The emit pipeline and the flush of a buffer keep an invariant of its
    steps, whatever the fuel and however they end. *)
Lemma invariant_wrappedEmit_bufferEmit fuel :
  (∀ e c, allowed e c → relates R (wrappedEmit host options fuel e c)) ∧
  (∀ i, relates R (bufferEmit host options fuel i)).
Proof.
  induction fuel as [|f [IHw IHb]]; simpl.
  - split; intros; apply relates_outOfFuel.
  - split; intros.
    + by apply invariant_wrappedEmit_body.
    + by apply invariant_bufferEmit_body.
Qed.

Lemma invariant_wrappedEmit fuel e c :
  allowed e c → relates R (wrappedEmit host options fuel e c).
Proof. apply invariant_wrappedEmit_bufferEmit. Qed.

Lemma invariant_bufferEmit fuel i : relates R (bufferEmit host options fuel i).
Proof. apply invariant_wrappedEmit_bufferEmit. Qed.

Lemma invariant_takeFullSnapshot fuel c :
  (∀ t, allowed (metaEvent host t) (Some c)) →
  relates R (takeFullSnapshot host options fuel c).
Proof.
  intros Hc. apply invariant_takeFullSnapshot_body;
    auto using invariant_wrappedEmit, invariant_bufferEmit.
Qed.

End Invariant.

(** ** The counter follows the events handed over *)

Lemma bookkept_refl w : bookkept w w.
Proof. exists []. by rewrite app_nil_r. Qed.

Lemma bookkept_trans w1 w2 w3 : bookkept w1 w2 → bookkept w2 w3 → bookkept w1 w3.
Proof.
  intros (t1 & Ht1 & Hc1 & Hl1) (t2 & Ht2 & Hc2 & Hl2).
  exists (t1 ++ t2). rewrite Ht2, Ht1, Hc2, Hc1, Hl2, Hl1, !foldl_app.
  by rewrite app_assoc.
Qed.

Lemma bookkept_silent w w' :
  trace w' = trace w →
  incrementalSnapshotCount w' = incrementalSnapshotCount w →
  lastFullSnapshotEvent w' = lastFullSnapshotEvent w →
  bookkept w w'.
Proof. intros Ht Hc Hl. exists []. by rewrite app_nil_r. Qed.

Lemma bookkept_invariant host options :
  packFn options = None →
  emitInvariant host options bookkept (λ _ _, True).
Proof.
  intros Hpack. split; try done.
  - apply bookkept_refl.
  - apply bookkept_trans.
  - intros w n. by apply bookkept_silent.
  - intros w bs. by apply bookkept_silent.
  - intros w m. by apply bookkept_silent.
  - intros w n. by apply bookkept_silent.
  - intros w eff Heff. exists [eff]. split; [done|].
    destruct eff as [p c| | | | | | |]; try done. by destruct (Heff p c).
  - intros e c w _. exists [EOnEmit (Plain e) c].
    unfold bookkeptWorld, countedWorld, emittedWorld, delivered.
    rewrite Hpack. simpl.
    destruct (decide (type e = FullSnapshot)); [done|].
    by destruct (decide (type e = IncrementalSnapshot)).
Qed.

(** X5.  Without [packFn], whatever the emit pipeline does and however
    it ends (it returns or throws), the counter of incremental snapshots
    and the stored last full snapshot follow the events handed to the
    consumer: each [FullSnapshot] handed over resets the counter and
    becomes the stored one, each [IncrementalSnapshot] handed over adds
    one, and nothing else changes either of them.  In particular the
    counter is the number of incremental snapshots handed over since the
    last full snapshot. *)
Theorem counter_follows_emitted_events host options fuel e c w w' :
  packFn options = None →
  finalWorld (wrappedEmit host options fuel e c w) = Some w' →
  ∃ t, trace w' = trace w ++ t ∧
       incrementalSnapshotCount w' =
         foldl countStep (incrementalSnapshotCount w) t ∧
       lastFullSnapshotEvent w' = foldl lastStep (lastFullSnapshotEvent w) t.
Proof.
  intros Hpack Hr.
  pose proof (invariant_wrappedEmit host options bookkept _
                (bookkept_invariant host options Hpack) fuel e c I w) as H.
  by rewrite Hr in H.
Qed.

Lemma counter_follows_emitted_events_witness :
  ∃ t, trace (worldOf (wrappedEmit (page serializerWorks complete) (everyNth 2) 7
                         (inputEvent 20) None pausedWorld) pausedWorld) =
         trace pausedWorld ++ t ∧
       incrementalSnapshotCount
         (worldOf (wrappedEmit (page serializerWorks complete) (everyNth 2) 7
                     (inputEvent 20) None pausedWorld) pausedWorld) =
         foldl countStep (incrementalSnapshotCount pausedWorld) t ∧
       lastFullSnapshotEvent
         (worldOf (wrappedEmit (page serializerWorks complete) (everyNth 2) 7
                     (inputEvent 20) None pausedWorld) pausedWorld) =
         foldl lastStep (lastFullSnapshotEvent pausedWorld) t.
Proof.
  apply (counter_follows_emitted_events (page serializerWorks complete)
           (everyNth 2) 7 (inputEvent 20) None pausedWorld).
  - reflexivity.
  - vm_compute. reflexivity.
Defined.

(** ** The checkout flag *)

Lemma appends_refl P w : appends P w w.
Proof. exists []. by rewrite app_nil_r. Qed.

Lemma appends_trans P w1 w2 w3 :
  appends P w1 w2 → appends P w2 w3 → appends P w1 w3.
Proof.
  intros (t1 & Ht1 & H1) (t2 & Ht2 & H2). exists (t1 ++ t2).
  split; [by rewrite Ht2, Ht1, app_assoc|]. by apply Forall_app.
Qed.

Lemma appends_silent P w w' : trace w' = trace w → appends P w w'.
Proof. intros Ht. exists []. by rewrite app_nil_r. Qed.

Lemma flagOnlyOnMeta_invariant host options :
  emitInvariant host options (appends (flagOnlyOnMeta host options))
    (unflaggedOrMeta host).
Proof.
  split.
  - apply appends_refl.
  - apply appends_trans.
  - intros w n. by apply appends_silent.
  - intros w bs. by apply appends_silent.
  - intros w m. by apply appends_silent.
  - intros w n. by apply appends_silent.
  - intros w eff Heff. exists [eff]. split; [done|].
    apply Forall_singleton.
    destruct eff as [p c| | | | | | |]; try done. by destruct (Heff p c).
  - intros e c w Hallowed. exists [EOnEmit (delivered options e) c]. split.
    + unfold bookkeptWorld.
      destruct (decide (type e = FullSnapshot)); [done|].
      by destruct (decide (type e = IncrementalSnapshot)).
    + apply Forall_singleton.
      destruct Hallowed as [->|(-> & t & ->)]; [done|]. simpl. eauto.
  - intros m t. by left.
  - intros t. right. eauto.
  - intros node t. by left.
Qed.

(** X6.  Whatever an emission sets off (resumed buffers, their flushes,
    checkpoints tripped by the cadence, the flushes on unlocking), the
    consumer is handed an [isCheckout] flag only with the [Meta] event
    of a checkpoint, and then the flag is [true]: a [FullSnapshot] event
    and every incremental snapshot reach it with the flag undefined. *)
Theorem isCheckout_only_with_meta host options fuel (e : eventWithTime) w w' :
  finalWorld (wrappedEmit host options fuel e None w) = Some w' →
  ∃ t, trace w' = trace w ++ t ∧
       ∀ p c, EOnEmit p (Some c) ∈ t →
              c = true ∧ ∃ time, p = delivered options (metaEvent host time).
Proof.
  intros Hr.
  pose proof (invariant_wrappedEmit host options _ _
                (flagOnlyOnMeta_invariant host options) fuel e None
                (or_introl eq_refl) w) as H.
  rewrite Hr in H. destruct H as (t & Ht & HP).
  exists t. split; [done|]. intros p c Hin.
  by apply (proj1 (Forall_forall _ _) HP _ Hin).
Qed.

Lemma isCheckout_only_with_meta_witness :
  ∃ t, trace (worldOf (wrappedEmit (page serializerWorks complete) (everyNth 1) 7
                         (inputEvent 20) None pausedWorld) pausedWorld) =
         trace pausedWorld ++ t ∧
       ∀ p c, EOnEmit p (Some c) ∈ t →
              c = true ∧
              ∃ time, p = delivered (everyNth 1)
                            (metaEvent (page serializerWorks complete) time).
Proof.
  apply (isCheckout_only_with_meta (page serializerWorks complete)
           (everyNth 1) 7 (inputEvent 20) pausedWorld).
  vm_compute. reflexivity.
Defined.

(** * Checkpoints that are not taken, and locks that are given back *)

(** ** With both cadences off *)

Lemma uncheckpointed_refl w : uncheckpointed w w.
Proof. by repeat split. Qed.

Lemma uncheckpointed_trans w1 w2 w3 :
  uncheckpointed w1 w2 → uncheckpointed w2 w3 → uncheckpointed w1 w3.
Proof. intros (? & ? & ?) (? & ? & ?). repeat split; congruence. Qed.

Section CadenceOff.

Variable host : Host.
Variable options : recordOptions.
Hypothesis off : cadenceOff options.

Lemma exceedCount_off count : exceedCount options count = false.
Proof.
  unfold exceedCount. by destruct off as [_ [-> | ->]].
Qed.

Lemma exceedTime_off e w : exceedTime options e w = Done false w.
Proof.
  rewrite exceedTime_unfold. by destruct off as [[-> | ->] _].
Qed.

Section Bodies.

Variable wrappedEmit_rec : eventWithTime → option bool → M unit.
Variable bufferEmit_rec : nat → M unit.
Hypothesis wrappedEmit_rec_uncheckpointed :
  ∀ (e : eventWithTime) c, type e ≠ FullSnapshot →
    relates uncheckpointed (wrappedEmit_rec e c).
Hypothesis bufferEmit_rec_uncheckpointed :
  ∀ i, relates uncheckpointed (bufferEmit_rec i).

Lemma off_bufferEmit_body i :
  relates uncheckpointed (bufferEmit_body host wrappedEmit_rec bufferEmit_rec i).
Proof.
  intros w. unfold bufferEmit_body.
  destruct (mutationBuffers w !! i) as [b|]; [|apply uncheckpointed_refl].
  destruct (frozen b || locked b); [apply uncheckpointed_refl|].
  destruct (pending b) as [|m q]; [apply uncheckpointed_refl|].
  apply (relates_bind _ uncheckpointed_trans); [by intros w0|intros _].
  apply (relates_bind _ uncheckpointed_trans);
    [|intros _; apply bufferEmit_rec_uncheckpointed].
  intros w0. unfold mutationCb. rewrite wrapEvent_bind.
  pose proof (wrappedEmit_rec_uncheckpointed
                {| event_of := mutationEvent m;
                   timestamp := dateNow host (clockReads w0) |} None
                ltac:(done) (set_clockReads (S (clockReads w0)) w0)) as H.
  by destruct (wrappedEmit_rec _ _ _).
Qed.

Lemma off_unfreeze i : relates uncheckpointed (unfreeze bufferEmit_rec i).
Proof.
  apply (relates_bind _ uncheckpointed_trans); [by intros w0|intros _].
  apply (relates_bind _ uncheckpointed_trans); [by intros w0|intros _].
  apply bufferEmit_rec_uncheckpointed.
Qed.

Lemma off_wrappedEmit_body (e : eventWithTime) c :
  type e ≠ FullSnapshot →
  relates uncheckpointed
    (wrappedEmit_body host options wrappedEmit_rec bufferEmit_rec e c).
Proof.
  intros Hfull. unfold wrappedEmit_body.
  apply (relates_bind _ uncheckpointed_trans);
    [apply (relates_gets _ uncheckpointed_refl)|intros doResume].
  apply (relates_bind _ uncheckpointed_trans).
  { destruct doResume; [|apply (relates_ret _ uncheckpointed_refl)].
    apply (relates_forEachBuffer _ uncheckpointed_refl uncheckpointed_trans).
    apply off_unfreeze. }
  intros _ w. unfold onEmit. mstep.
  destruct (decide (type e = IncrementalSnapshot)) as [Hincr|Hincr].
  - rewrite checkoutBookkeeping_incremental by done. cbv zeta.
    by rewrite exceedTime_off, exceedCount_off.
  - by rewrite checkoutBookkeeping_other.
Qed.

End Bodies.

Lemma off_wrappedEmit_bufferEmit fuel :
  (∀ (e : eventWithTime) c, type e ≠ FullSnapshot →
     relates uncheckpointed (wrappedEmit host options fuel e c)) ∧
  (∀ i, relates uncheckpointed (bufferEmit host options fuel i)).
Proof.
  induction fuel as [|f [IHw IHb]]; simpl.
  - split; intros; apply relates_outOfFuel.
  - split; intros.
    + by apply off_wrappedEmit_body.
    + by apply off_bufferEmit_body.
Qed.

End CadenceOff.

(** X7.  With both cadences switched off (each of [checkoutEveryNms] and
    [checkoutEveryNth] absent or [0]) no emission ever takes a
    checkpoint: whatever event other than a [FullSnapshot] enters the
    pipeline, whatever the buffers withhold, the serializer is not
    called and the identity registry and the stored full snapshot stay
    as they are. *)
Theorem no_cadence_no_checkpoint host options fuel (e : eventWithTime) c w w' :
  cadenceOff options → type e ≠ FullSnapshot →
  finalWorld (wrappedEmit host options fuel e c w) = Some w' →
  snapshotCalls w' = snapshotCalls w ∧
  mirror_map w' = mirror_map w ∧
  lastFullSnapshotEvent w' = lastFullSnapshotEvent w.
Proof.
  intros Hoff He Hr.
  pose proof (proj1 (off_wrappedEmit_bufferEmit host options Hoff fuel) e c He w)
    as H.
  by rewrite Hr in H.
Qed.

Lemma no_cadence_no_checkpoint_witness :
  snapshotCalls (worldOf (wrappedEmit (page serializerWorks complete) plainOptions
                            7 (inputEvent 20) None pausedWorld) pausedWorld) =
    snapshotCalls pausedWorld ∧
  mirror_map (worldOf (wrappedEmit (page serializerWorks complete) plainOptions
                         7 (inputEvent 20) None pausedWorld) pausedWorld) =
    mirror_map pausedWorld ∧
  lastFullSnapshotEvent
    (worldOf (wrappedEmit (page serializerWorks complete) plainOptions
                7 (inputEvent 20) None pausedWorld) pausedWorld) =
    lastFullSnapshotEvent pausedWorld.
Proof.
  apply (no_cadence_no_checkpoint (page serializerWorks complete) plainOptions
           7 (inputEvent 20) None pausedWorld).
  - split; left; reflexivity.
  - discriminate.
  - vm_compute. reflexivity.
Defined.

(** ** Locks *)

Lemma lockShrinks_refl b : lockShrinks b b.
Proof. by intros ?. Qed.

Lemma locksShrink_refl w : locksShrink w w.
Proof.
  apply Forall_Forall2_diag, Forall_forall. intros. apply lockShrinks_refl.
Qed.

Lemma locksShrink_trans w1 w2 w3 :
  locksShrink w1 w2 → locksShrink w2 w3 → locksShrink w1 w3.
Proof.
  unfold locksShrink. generalize (mutationBuffers w1) (mutationBuffers w2)
                                 (mutationBuffers w3).
  intros l1 l2 l3 H12. revert l3.
  induction H12 as [|b1 b2 l1 l2 Hb _ IH]; intros l3 H23.
  - by inversion H23.
  - inversion H23 as [|? b3 ? l3' Hb' Hl']; subst. constructor.
    + intros H. by apply Hb, Hb'.
    + by apply IH.
Qed.

Lemma locksShrink_silent w w' :
  mutationBuffers w' = mutationBuffers w → locksShrink w w'.
Proof. intros H. unfold locksShrink. rewrite H. apply locksShrink_refl. Qed.

Lemma locksShrink_alter w i f :
  (∀ b, lockShrinks b (f b)) →
  locksShrink w (set_mutationBuffers (alter f i (mutationBuffers w)) w).
Proof.
  intros Hf. unfold locksShrink. simpl.
  apply Forall2_alter_r; [apply (locksShrink_refl w)|].
  intros b b' H1 H2 _. assert (b = b') as -> by congruence. apply Hf.
Qed.

Lemma unlockedAt_shrink i w w' :
  locksShrink w w' → unlockedAt i w → unlockedAt i w'.
Proof.
  intros Hs Hw b' Hb'.
  destruct (Forall2_lookup_r _ _ _ _ _ Hs Hb') as (b & Hb & Hlock).
  specialize (Hw b Hb). destruct (locked b') eqn:Hl; [|done].
  rewrite Hlock in Hw; done.
Qed.

Lemma unlocked_locksShrink w w' :
  length (mutationBuffers w') = length (mutationBuffers w) →
  Forall (λ b, locked b = false) (mutationBuffers w') →
  locksShrink w w'.
Proof.
  unfold locksShrink.
  generalize (mutationBuffers w) (mutationBuffers w'). intros l l'.
  revert l'. induction l as [|b l IH]; intros [|b' l'] Hlen Hall;
    simplify_eq/=; constructor.
  - intros Hl. apply Forall_cons in Hall as [Hb _]. congruence.
  - apply IH; [done|]. by apply Forall_cons in Hall as [_ ?].
Qed.

Section ReturnRelates.

Variable R : World → World → Prop.
Hypothesis R_refl : ∀ w, R w w.
Hypothesis R_trans : ∀ w1 w2 w3, R w1 w2 → R w2 w3 → R w1 w3.

Lemma relatesReturn_ret {A : Type} (a : A) : relatesReturn R (mret a).
Proof. intros w a' w' [= _ <-]. apply R_refl. Qed.

Lemma relatesReturn_modify f : (∀ w, R w (f w)) → relatesReturn R (modify f).
Proof. intros Hf w a w' [= _ <-]. apply Hf. Qed.

Lemma relatesReturn_bind {A B : Type} (m : M A) (k : A → M B) :
  relatesReturn R m → (∀ a, relatesReturn R (k a)) → relatesReturn R (m ≫= k).
Proof.
  intros Hm Hk w b w' Hr. apply bind_Done in Hr as (a & w1 & H1 & H2).
  eapply R_trans; [by eapply Hm|by eapply Hk].
Qed.

Lemma relatesReturn_forEach {A : Type} (f : A → M unit) (xs : list A) :
  (∀ x, relatesReturn R (f x)) → relatesReturn R (forEach f xs).
Proof.
  intros Hf. induction xs as [|x xs IH]; simpl.
  - apply relatesReturn_ret.
  - apply relatesReturn_bind; auto.
Qed.

Lemma relatesReturn_forEachBuffer (f : nat → M unit) :
  (∀ i, relatesReturn R (f i)) → relatesReturn R (forEachBuffer f).
Proof. intros Hf w a w'. unfold forEachBuffer. by apply relatesReturn_forEach. Qed.

(** What every iteration of a loop establishes and related worlds keep
    holds for all iterations when the loop returns. *)
Lemma forEach_establishes_return (f : nat → M unit) (Q : nat → World → Prop)
    xs w w' :
  (∀ i, relatesReturn R (f i)) →
  (∀ i w w', f i w = Done tt w' → Q i w') →
  (∀ i w w', R w w' → Q i w → Q i w') →
  forEach f xs w = Done tt w' → ∀ i, i ∈ xs → Q i w'.
Proof.
  intros Hp Hf HQ. revert w. induction xs as [|x xs IH]; intros w Hr i Hi.
  - by apply elem_of_nil in Hi.
  - simpl in Hr. apply bind_Done in Hr as ([] & w1 & Hx & Hr).
    apply elem_of_cons in Hi as [->|Hi]; [|by eapply IH].
    eapply HQ; [|by eapply Hf].
    by apply (relatesReturn_forEach f xs Hp) in Hr.
Qed.

End ReturnRelates.

Section Locks.

Variable host : Host.
Variable options : recordOptions.
Hypothesis total : serializerTotal host.

Section Bodies.

Variable wrappedEmit_rec : eventWithTime → option bool → M unit.
Variable bufferEmit_rec : nat → M unit.
Hypothesis wrappedEmit_rec_preserves : ∀ e c, preserves (wrappedEmit_rec e c).
Hypothesis bufferEmit_rec_preserves : ∀ i, preserves (bufferEmit_rec i).
Hypothesis wrappedEmit_rec_locks :
  ∀ e c, relatesReturn locksShrink (wrappedEmit_rec e c).
Hypothesis bufferEmit_rec_locks :
  ∀ i, relatesReturn locksShrink (bufferEmit_rec i).

Lemma locks_mutationCb m :
  relatesReturn locksShrink (mutationCb host wrappedEmit_rec m).
Proof.
  intros w a w'. unfold mutationCb. rewrite wrapEvent_bind. intros Hr.
  by apply wrappedEmit_rec_locks in Hr.
Qed.

Lemma locks_bufferEmit_body i :
  relatesReturn locksShrink
    (bufferEmit_body host wrappedEmit_rec bufferEmit_rec i).
Proof.
  intros w a w'. unfold bufferEmit_body.
  destruct (mutationBuffers w !! i) as [b|];
    [|intros [= _ <-]; apply locksShrink_refl].
  destruct (frozen b || locked b); [intros [= _ <-]; apply locksShrink_refl|].
  destruct (pending b) as [|m q]; [intros [= _ <-]; apply locksShrink_refl|].
  apply (relatesReturn_bind _ locksShrink_trans).
  { apply relatesReturn_modify. intros w0. apply locksShrink_alter. by intros b0 H. }
  intros _. apply (relatesReturn_bind _ locksShrink_trans);
    [apply locks_mutationCb|intros _; apply bufferEmit_rec_locks].
Qed.

Lemma locks_unfreeze i :
  relatesReturn locksShrink (unfreeze bufferEmit_rec i).
Proof.
  apply (relatesReturn_bind _ locksShrink_trans).
  { apply relatesReturn_modify. intros w0. apply locksShrink_alter. by intros b0 H. }
  intros _. apply (relatesReturn_bind _ locksShrink_trans);
    [|intros _; apply bufferEmit_rec_locks].
  apply relatesReturn_modify. intros w0. by apply locksShrink_silent.
Qed.

Lemma locks_unlock i :
  relatesReturn locksShrink (unlock bufferEmit_rec i).
Proof.
  apply (relatesReturn_bind _ locksShrink_trans).
  { apply relatesReturn_modify. intros w0. apply locksShrink_alter. by intros b0 H. }
  intros _. apply (relatesReturn_bind _ locksShrink_trans);
    [|intros _; apply bufferEmit_rec_locks].
  apply relatesReturn_modify. intros w0. by apply locksShrink_silent.
Qed.

Lemma unlock_unlockedAt i w w' :
  unlock bufferEmit_rec i w = Done tt w' → unlockedAt i w'.
Proof.
  intros Hr. unfold unlock, updateBuffer in Hr. do 2 (mstep in Hr).
  apply bufferEmit_rec_locks in Hr.
  eapply unlockedAt_shrink; [exact Hr|].
  intros b. simpl. rewrite list_lookup_alter, decide_True by done.
  destruct (mutationBuffers w !! i); intros [= <-]. done.
Qed.

(** A checkpoint that returns has released every lock. *)
Lemma unlocked_takeFullSnapshot_body c w w' :
  takeFullSnapshot_body host wrappedEmit_rec bufferEmit_rec c w = Done tt w' →
  Forall (λ b, locked b = false) (mutationBuffers w').
Proof.
  intros Hr. unfold takeFullSnapshot_body in Hr.
  rewrite wrapEvent_bind in Hr.
  apply bind_Done in Hr as ([] & w1 & _ & Hr).
  apply bind_Done in Hr as ([] & w2 & _ & Hr).
  apply bind_Done in Hr as ([[node|] m] & w3 & Hsnap & Hr).
  2: { unfold snapshot in Hsnap. injection Hsnap as Hs _.
       destruct (total (snapshotCalls w2)) as [x Hx]. rewrite Hs in Hx. done. }
  clear Hsnap.
  apply bind_Done in Hr as ([] & w4 & _ & Hr).
  apply bind_Done in Hr as ([] & w5 & _ & Hr).
  rewrite wrapEvent_bind in Hr.
  apply bind_Done in Hr as ([] & w6 & _ & Hr).
  pose proof (preserves_Done _ _ _ _
                (preserves_forEachBuffer _
                   (λ i, preserves_unlock _ bufferEmit_rec_preserves i)) Hr)
    as Hext.
  apply extends_length in Hext.
  apply Forall_lookup. intros i b Hb.
  assert (unlockedAt i w') as Hun; [|by apply Hun].
  unfold forEachBuffer in Hr.
  eapply (forEach_establishes_return locksShrink locksShrink_refl locksShrink_trans _ unlockedAt
            _ _ _ locks_unlock unlock_unlockedAt _ Hr).
  apply elem_of_seq. apply lookup_lt_Some in Hb. lia.
  Unshelve. intros j w7 w8. apply unlockedAt_shrink.
Qed.

Lemma locks_takeFullSnapshot_body c :
  relatesReturn locksShrink
    (takeFullSnapshot_body host wrappedEmit_rec bufferEmit_rec c).
Proof.
  intros w [] w' Hr. apply unlocked_locksShrink.
  - apply extends_length.
    exact (preserves_Done _ _ _ _
             (preserves_takeFullSnapshot_body host _ _
                wrappedEmit_rec_preserves bufferEmit_rec_preserves c) Hr).
  - by eapply unlocked_takeFullSnapshot_body.
Qed.

Lemma locks_wrappedEmit_body e c :
  relatesReturn locksShrink
    (wrappedEmit_body host options wrappedEmit_rec bufferEmit_rec e c).
Proof.
  unfold wrappedEmit_body.
  apply (relatesReturn_bind _ locksShrink_trans);
    [intros w a w' [= _ <-]; apply locksShrink_refl|intros doResume].
  apply (relatesReturn_bind _ locksShrink_trans).
  { destruct doResume; [|apply (relatesReturn_ret _ locksShrink_refl)].
    apply (relatesReturn_forEachBuffer _ locksShrink_refl locksShrink_trans).
    apply locks_unfreeze. }
  intros _. apply (relatesReturn_bind _ locksShrink_trans).
  { apply relatesReturn_modify. intros w0. by apply locksShrink_silent. }
  intros _. unfold checkoutBookkeeping.
  destruct (decide (type e = FullSnapshot)).
  { apply (relatesReturn_bind _ locksShrink_trans);
      [|intros _]; apply relatesReturn_modify; intros w0;
      by apply locksShrink_silent. }
  destruct (decide (type e = IncrementalSnapshot));
    [|apply (relatesReturn_ret _ locksShrink_refl)].
  apply (relatesReturn_bind _ locksShrink_trans).
  { apply relatesReturn_modify. intros w0. by apply locksShrink_silent. }
  intros _. apply (relatesReturn_bind _ locksShrink_trans);
    [intros w a w' [= _ <-]; apply locksShrink_refl|intros count].
  apply (relatesReturn_bind _ locksShrink_trans).
  { intros w a w'. rewrite exceedTime_unfold.
    destruct (checkoutEveryNms options) as [ms|];
      [|intros [= _ <-]; apply locksShrink_refl].
    destruct (decide (ms = 0%Z)); [intros [= _ <-]; apply locksShrink_refl|].
    destruct (lastFullSnapshotEvent w); [|done].
    intros [= _ <-]; apply locksShrink_refl. }
  intros exceedT. destruct (exceedCount options count || exceedT);
    [apply locks_takeFullSnapshot_body|apply (relatesReturn_ret _ locksShrink_refl)].
Qed.

End Bodies.

Lemma relatesReturn_outOfFuel {A : Type} R :
  relatesReturn R (λ _ : World, @OutOfFuel A).
Proof. by intros w a w'. Qed.

Lemma locks_wrappedEmit_bufferEmit fuel :
  (∀ e c, relatesReturn locksShrink (wrappedEmit host options fuel e c)) ∧
  (∀ i, relatesReturn locksShrink (bufferEmit host options fuel i)).
Proof.
  induction fuel as [|f [IHw IHb]]; simpl.
  - split; intros; apply relatesReturn_outOfFuel.
  - pose proof (preserves_wrappedEmit host options f) as Hpw.
    pose proof (preserves_bufferEmit host options f) as Hpb.
    split; intros.
    + by apply locks_wrappedEmit_body.
    + by apply locks_bufferEmit_body.
Qed.

End Locks.

(** X8.  When the serializer returns a node tree whenever it is called,
    locks are always given back: a checkpoint that returns leaves every
    buffer unlocked, whatever its flushes set off, and an emission that
    returns leaves no buffer locked that was not locked before it. *)
Theorem locks_are_released host options fuel :
  serializerTotal host →
  (∀ c w w', takeFullSnapshot host options fuel c w = Done tt w' →
             Forall (λ b, locked b = false) (mutationBuffers w')) ∧
  (∀ e c w w', wrappedEmit host options fuel e c w = Done tt w' →
               Forall2 (λ b b', locked b' = true → locked b = true)
                 (mutationBuffers w) (mutationBuffers w')).
Proof.
  intros Htotal.
  destruct (locks_wrappedEmit_bufferEmit host options Htotal fuel) as [Hw Hb].
  split.
  - intros c w w' Hr.
    eapply (unlocked_takeFullSnapshot_body host Htotal _ _
              (preserves_bufferEmit host options fuel) Hb c w w' Hr).
  - intros e c w w' Hr. by apply Hw in Hr.
Qed.

Lemma locks_are_released_witness :
  Forall (λ b, locked b = false)
    (mutationBuffers
       (worldOf (takeFullSnapshot (page serializerWorks complete) (everyNth 1) 9
                   true lockedPendingWorld) lockedPendingWorld)).
Proof.
  apply (proj1 (locks_are_released (page serializerWorks complete) (everyNth 1) 9
                  (λ k, ex_intro _ (SNode 1 "html" []) eq_refl))
           true lockedPendingWorld).
  vm_compute. reflexivity.
Defined.

(** * Pausing, starting, and what the pipeline throws *)

(** ** Pausing *)

Lemma forEach_freeze_from (rest pre : list MutationBuffer) w :
  mutationBuffers w = pre ++ rest →
  forEach freeze (seq (length pre) (length rest)) w =
  Done tt (set_trace (trace w ++ (EFreeze <$> seq (length pre) (length rest)))
             (set_mutationBuffers (pre ++ (setFrozen true <$> rest)) w)).
Proof.
  revert pre w. induction rest as [|b rest IH]; intros pre w Hw.
  - simpl. f_equal. destruct w; simpl in *. subst. by rewrite !app_nil_r.
  - simpl. rewrite bind_unfold. simpl.
    set (w1 := set_trace _ _).
    assert (mutationBuffers w1 = (pre ++ [setFrozen true b]) ++ rest) as Hw1.
    { simpl. rewrite Hw, alter_app_r_alt by done.
      rewrite Nat.sub_diag. simpl. by rewrite <- app_assoc. }
    specialize (IH _ _ Hw1). rewrite length_app in IH. simpl in IH.
    rewrite Nat.add_1_r in IH. rewrite IH. f_equal.
    unfold w1. destruct w; simpl in *.
    by rewrite <- !app_assoc.
Qed.

Lemma Recorder_freezePage_frozenWorld w :
  Recorder_freezePage w = Done tt (frozenWorld w).
Proof.
  unfold Recorder_freezePage, forEachBuffer.
  exact (forEach_freeze_from (mutationBuffers w) [] w eq_refl).
Qed.

(** X9.  [freezePage] pauses every mutation buffer and does nothing
    else: it returns, each buffer is paused with its lock and its queue
    as they were, nothing is handed to the consumer, pausing again
    changes no buffer, and while no document is observed (no buffer
    exists yet) the call has no effect at all, so that a pause requested
    before the observers are attached is lost.  The module-level
    [record.freezePage] does the same once a recorder exists, and throws
    a [TypeError] before the first call of [record]. *)
Theorem freezePage_pauses_every_buffer w :
  ∃ w', Recorder_freezePage w = Done tt w' ∧
        mutationBuffers w' = (setFrozen true <$> mutationBuffers w) ∧
        Forall (λ b, isFrozen b = true) (mutationBuffers w') ∧
        trace w' = trace w ++ (EFreeze <$> seq 0 (length (mutationBuffers w))) ∧
        (∀ w'', Recorder_freezePage w' = Done tt w'' →
                mutationBuffers w'' = mutationBuffers w') ∧
        (mutationBuffers w = [] → w' = w) ∧
        (is_Some (recorder w) → record_freezePage w = Done tt w') ∧
        (recorder w = None →
         record_freezePage w =
         Throws (TypeError "Cannot read property 'freezePage' of undefined") w).
Proof.
  exists (frozenWorld w). split; [apply Recorder_freezePage_frozenWorld|].
  split; [done|]. split; [|split; [done|split; [|split; [|split]]]].
  - simpl. apply Forall_fmap, Forall_forall. done.
  - intros w''. rewrite Recorder_freezePage_frozenWorld. intros [= <-].
    simpl. rewrite <- list_fmap_compose. apply list_fmap_ext. intros i b0 Hb0. by destruct b0.
  - intros Hw. unfold frozenWorld. destruct w; simpl in *. subst. simpl.
    by rewrite app_nil_r.
  - intros [o Ho]. unfold record_freezePage. rewrite bind_unfold. simpl.
    rewrite Ho. apply Recorder_freezePage_frozenWorld.
  - intros Ho. unfold record_freezePage. rewrite bind_unfold. simpl.
    by rewrite Ho.
Qed.

(** X10.  A pause made by [freezePage] lasts until the next event that
    is neither a tree mutation nor a [FullSnapshot]: when such an event
    is emitted after [freezePage], be it a user interaction, a custom
    event, a page lifecycle event or the [Meta] event of a checkpoint,
    and the emission returns, every buffer has been resumed before the
    event reached the consumer and no buffer is paused any more. *)
Theorem pause_ends_at_next_event host options fuel (e : eventWithTime) c w w' :
  type e ≠ FullSnapshot →
  ¬ (type e = IncrementalSnapshot ∧ source (data e) = Some Mutation) →
  (Recorder_freezePage ;; wrappedEmit host options fuel e c) w = Done tt w' →
  Forall (λ b, isFrozen b = false) (mutationBuffers w') ∧
  ∃ resumed rest,
    trace w' =
      trace w ++ (EFreeze <$> seq 0 (length (mutationBuffers w))) ++
      resumed ++ EOnEmit (delivered options e) c :: rest ∧
    ∀ i, i < length (mutationBuffers w) → EUnfreeze i ∈ resumed.
Proof.
  intros Hfull Hmut Hr. rewrite bind_unfold, Recorder_freezePage_frozenWorld in Hr.
  destruct fuel as [|f]; [done|].
  destruct (mutationBuffers w) as [|b0 bs] eqn:Hbs.
  - assert (resumes e (frozenWorld w) = false) as Hres.
    { apply resumes_mainBufferFrozen. unfold mainBufferFrozen. simpl.
      by rewrite Hbs. }
    pose proof (preserves_Done _ _ _ _ (preserves_wrappedEmit host options _ e c)
                  Hr) as Hext.
    split.
    + apply (active_extends _ _ Hext). simpl. rewrite Hbs. constructor.
    + rewrite wrappedEmit_unfold, Hres in Hr.
      pose proof (preserves_Done _ _ _ _
                    (preserves_checkoutBookkeeping host options _ _
                       (preserves_wrappedEmit host options f)
                       (preserves_bufferEmit host options f) e) Hr) as Hext2.
      destruct (ext_trace _ _ Hext2) as [rest Hrest]. simpl in Hrest.
      exists [], rest. split; [|simpl; lia].
      rewrite Hrest, Hbs. simpl. by rewrite <- !app_assoc.
  - assert (resumes e (frozenWorld w) = true) as Hres.
    { apply resumes_true_iff. repeat split; try done.
      unfold mainBufferFrozen. simpl. by rewrite Hbs. }
    destruct (wrappedEmit_resumes host options f e c _ _ Hres Hr)
      as (resumed & rest & Ht & Hin & Hact).
    split; [done|]. exists resumed, rest. split.
    + rewrite Ht. simpl. by rewrite Hbs, <- !app_assoc.
    + intros i Hi. apply Hin. simpl. by rewrite length_fmap, Hbs.
Qed.

Lemma pause_ends_at_next_event_witness :
  Forall (λ b, isFrozen b = false)
    (mutationBuffers
       (worldOf ((Recorder_freezePage ;;
                  wrappedEmit (page serializerWorks complete) plainOptions 7
                    (customEvent 5) None) embeddedPausedWorld)
          embeddedPausedWorld)).
Proof.
  apply (pause_ends_at_next_event (page serializerWorks complete) plainOptions 7
           (customEvent 5) None embeddedPausedWorld).
  - discriminate.
  - intros [H _]. discriminate H.
  - vm_compute. reflexivity.
Defined.

(** ** The first checkpoint of a session *)

Section FirstCheckpoint.

Variable host : Host.
Variable options : recordOptions.

Lemma forEachBuffer_nil (f : nat → M unit) w :
  mutationBuffers w = [] → forEachBuffer f w = Done tt w.
Proof. intros Hw. unfold forEachBuffer. by rewrite Hw. Qed.

(** [init] while nothing is observed yet: the checkpoint has no buffer
    to lock, and the main document is observed afterwards. *)
Lemma init_without_buffers f w :
  mutationBuffers w = [] →
  ∃ w', init host options (S f) w = Done tt w' ∧
        trace w' =
          trace w ++ firstCheckpoint host options (clockReads w) (snapshotCalls w) ∧
        mutationBuffers w' = [mkBuffer false false []] ∧
        handlers w' = handlers w ++ [detachObservers document] ∧
        observed w' = {[document]} ∪ observed w ∧
        listeners w' = listeners w ∧
        recorder w' = recorder w ∧
        match snapshotResult host (snapshotCalls w) with
        | (Some node, idNodeMap) =>
            mirror_map w' = idNodeMap ∧
            lastFullSnapshotEvent w' =
              Some (fullSnapshotEvent host node (dateNow host (S (clockReads w)))) ∧
            incrementalSnapshotCount w' = 0%Z
        | (None, _) =>
            mirror_map w' = mirror_map w ∧
            lastFullSnapshotEvent w' = lastFullSnapshotEvent w ∧
            incrementalSnapshotCount w' = incrementalSnapshotCount w
        end.
Proof.
  intros Hw. unfold init. rewrite bind_unfold.
  rewrite takeFullSnapshot_unfold
    by (unfold mainBufferFrozen; by rewrite Hw).
  unfold firstCheckpoint.
  destruct (snapshotResult host (snapshotCalls w)) as [[node|] m].
  - rewrite forEachBuffer_nil by (simpl; by rewrite Hw).
    eexists. split; [reflexivity|]. simpl. rewrite Hw. simpl.
    rewrite <- !app_assoc. simpl. done.
  - eexists. split; [reflexivity|]. simpl. rewrite Hw. simpl.
    rewrite <- !app_assoc. simpl. done.
Qed.

End FirstCheckpoint.

(** X11.  A session that starts on a document that is already parsed,
    while nothing is observed yet, begins with exactly one checkpoint:
    [record] returns the disposer, the first events handed to the
    consumer are [Meta], with [isCheckout = false], and [FullSnapshot],
    no buffer is locked on the way because the observers are attached
    only afterwards, and then the main document has one active buffer.
    When the serializer returns no node the [FullSnapshot] is missing
    but the observers are attached all the same, with no full snapshot
    stored. *)
Theorem record_starts_with_one_checkpoint host fuel options w :
  is_Some (emit options) → documentReady host = true →
  mutationBuffers w = [] →
  ∃ w', record host (S fuel) options w = Done (Some disposer) w' ∧
        trace w' =
          trace w ++ firstCheckpoint host options (clockReads w) (snapshotCalls w) ∧
        mutationBuffers w' = [mkBuffer false false []] ∧
        handlers w' =
          [removeListener "DOMContentLoaded"; detachObservers document] ∧
        lastFullSnapshotEvent w' =
          match snapshotResult host (snapshotCalls w) with
          | (Some node, _) =>
              Some (fullSnapshotEvent host node (dateNow host (S (clockReads w))))
          | (None, _) => None
          end ∧
        incrementalSnapshotCount w' = 0%Z.
Proof.
  intros [cb Hemit] Hready Hw. unfold record. rewrite Hemit.
  rewrite bind_unfold. cbv beta iota delta [modify].
  rewrite Recorder_record_unfold, Hready.
  destruct (init_without_buffers host options fuel
              (startWorld (set_newRecorder options w)) Hw)
    as (w' & Hinit & Ht & Hb & Hh & _ & _ & _ & Hs).
  unfold init in Hinit. apply bind_Done in Hinit as ([] & w2 & Htake & Hobs).
  rewrite Htake. injection Hobs as <-.
  eexists. split; [reflexivity|].
  repeat split; try done.
  - simpl in Hs. by destruct (snapshotResult host (snapshotCalls w)) as [[node|] m];
      destruct Hs as (_ & ? & _).
  - simpl in Hs. by destruct (snapshotResult host (snapshotCalls w)) as [[node|] m];
      destruct Hs as (_ & _ & ?).
Qed.

Lemma record_starts_with_one_checkpoint_witness :
  ∃ w', record (page serializerWorks complete) 1 plainOptions freshWorld =
          Done (Some disposer) w' ∧
        trace w' =
          trace freshWorld ++
          firstCheckpoint (page serializerWorks complete) plainOptions
            (clockReads freshWorld) (snapshotCalls freshWorld) ∧
        mutationBuffers w' = [mkBuffer false false []] ∧
        handlers w' =
          [removeListener "DOMContentLoaded"; detachObservers document] ∧
        lastFullSnapshotEvent w' =
          match snapshotResult (page serializerWorks complete)
                  (snapshotCalls freshWorld) with
          | (Some node, _) =>
              Some (fullSnapshotEvent (page serializerWorks complete) node
                      (dateNow (page serializerWorks complete)
                         (S (clockReads freshWorld))))
          | (None, _) => None
          end ∧
        incrementalSnapshotCount w' = 0%Z.
Proof.
  apply (record_starts_with_one_checkpoint (page serializerWorks complete) 0
           plainOptions freshWorld).
  - by eexists.
  - reflexivity.
  - reflexivity.
Defined.

(** X12.  A session that starts while the document is still loading
    takes no checkpoint at once: [record] returns the disposer, hands
    nothing to the consumer, observes nothing, and registers the [load]
    listener next to the [DOMContentLoaded] one.  When the document is
    then parsed and the window loads, the [DomContentLoaded] event and
    the [Load] event reach the consumer first, the first checkpoint
    follows them, and only then the main document is observed. *)
Theorem record_while_loading_waits_for_load host fuel options w :
  is_Some (emit options) → readyState host = loading →
  ∃ w1, record host fuel options w = Done (Some disposer) w1 ∧
        trace w1 = trace w ∧
        mutationBuffers w1 = mutationBuffers w ∧
        observed w1 = observed w ∧
        listeners w1 = {["load"]} ∪ ({["DOMContentLoaded"]} ∪ listeners w) ∧
        handlers w1 = [removeListener "DOMContentLoaded"; removeListener "load"] ∧
        (mutationBuffers w = [] →
         ∀ f, ∃ w2,
           (domContentLoadedListener host options (S f) ;;
            loadListener host options (S f)) w1 = Done tt w2 ∧
           trace w2 =
             trace w ++
             EOnEmit (delivered options
                        (domContentLoadedEvent (dateNow host (clockReads w))))
               None ::
             EOnEmit (delivered options
                        (loadEvent (dateNow host (S (clockReads w)))))
               None ::
             firstCheckpoint host options (S (S (clockReads w)))
               (snapshotCalls w) ∧
           mutationBuffers w2 = [mkBuffer false false []] ∧
           observed w2 = {[document]} ∪ observed w).
Proof.
  intros [cb Hemit] Hloading. unfold record. rewrite Hemit.
  rewrite bind_unfold. cbv beta iota delta [modify].
  rewrite Recorder_record_unfold. unfold documentReady. rewrite Hloading.
  eexists. split; [reflexivity|]. repeat split.
  intros Hw f. rewrite bind_unfold. unfold domContentLoadedListener.
  rewrite wrapEvent_bind.
  rewrite wrappedEmit_plain;
    [|apply resumes_mainBufferFrozen; unfold mainBufferFrozen; simpl;
      by rewrite Hw|done|done].
  unfold loadListener. rewrite wrapEvent_bind, bind_unfold.
  rewrite wrappedEmit_plain;
    [|apply resumes_mainBufferFrozen; unfold mainBufferFrozen; simpl;
      by rewrite Hw|done|done].
  set (w1 := emittedWorld _ _ _ _).
  destruct (init_without_buffers host options f w1 Hw)
    as (w2 & Hinit & Ht & Hb & _ & Ho & _).
  exists w2. split; [done|]. split; [|by split].
  rewrite Ht. simpl. by rewrite <- !app_assoc.
Qed.

Lemma record_while_loading_waits_for_load_witness :
  ∃ w1, record (page serializerWorks loading) 0 plainOptions freshWorld =
          Done (Some disposer) w1 ∧
        trace w1 = trace freshWorld ∧
        mutationBuffers w1 = mutationBuffers freshWorld ∧
        observed w1 = observed freshWorld ∧
        listeners w1 =
          {["load"]} ∪ ({["DOMContentLoaded"]} ∪ listeners freshWorld) ∧
        handlers w1 =
          [removeListener "DOMContentLoaded"; removeListener "load"] ∧
        (mutationBuffers freshWorld = [] →
         ∀ f, ∃ w2,
           (domContentLoadedListener (page serializerWorks loading)
              plainOptions (S f) ;;
            loadListener (page serializerWorks loading) plainOptions (S f)) w1 =
             Done tt w2 ∧
           trace w2 =
             trace freshWorld ++
             EOnEmit (delivered plainOptions
                        (domContentLoadedEvent
                           (dateNow (page serializerWorks loading)
                              (clockReads freshWorld))))
               None ::
             EOnEmit (delivered plainOptions
                        (loadEvent (dateNow (page serializerWorks loading)
                                      (S (clockReads freshWorld)))))
               None ::
             firstCheckpoint (page serializerWorks loading) plainOptions
               (S (S (clockReads freshWorld))) (snapshotCalls freshWorld) ∧
           mutationBuffers w2 = [mkBuffer false false []] ∧
           observed w2 = {[document]} ∪ observed freshWorld).
Proof.
  apply (record_while_loading_waits_for_load (page serializerWorks loading) 0
           plainOptions freshWorld).
  - by eexists.
  - reflexivity.
Defined.

(** ** Exceptions *)

Lemma throwsOnly_bind {A B : Type} P (m : M A) (k : A → M B) :
  throwsOnly P m → (∀ a, throwsOnly P (k a)) → throwsOnly P (m ≫= k).
Proof.
  intros Hm Hk w err w'. rewrite bind_unfold.
  destruct (m w) as [a w1|err1 w1|] eqn:Hmw; [|intros [= <- <-]|done].
  - apply Hk.
  - by eapply Hm.
Qed.

Lemma throwsOnly_ret {A : Type} P (a : A) : throwsOnly P (mret a).
Proof. by intros w err w'. Qed.

Lemma throwsOnly_gets {A : Type} P (f : World → A) : throwsOnly P (gets f).
Proof. by intros w err w'. Qed.

Lemma throwsOnly_modify P f : throwsOnly P (modify f).
Proof. by intros w err w'. Qed.

Lemma throwsOnly_forEach {A : Type} P (f : A → M unit) (xs : list A) :
  (∀ x, throwsOnly P (f x)) → throwsOnly P (forEach f xs).
Proof.
  intros Hf. induction xs as [|x xs IH]; simpl.
  - apply throwsOnly_ret.
  - apply throwsOnly_bind; auto.
Qed.

Lemma throwsOnly_forEachBuffer P (f : nat → M unit) :
  (∀ i, throwsOnly P (f i)) → throwsOnly P (forEachBuffer f).
Proof. intros Hf w err w'. unfold forEachBuffer. by apply throwsOnly_forEach. Qed.

Section Throws.

Variable host : Host.
Variable options : recordOptions.

Let P := missingSnapshotError.

Lemma throwsOnly_exceedTime e : throwsOnly P (exceedTime options e).
Proof.
  intros w err w'. rewrite exceedTime_unfold.
  destruct (checkoutEveryNms options) as [ms|]; [|done].
  destruct (decide (ms = 0%Z)); [done|].
  destruct (lastFullSnapshotEvent w) eqn:Hl; [done|].
  intros [= <- <-]. by split.
Qed.

Section Bodies.

Variable wrappedEmit_rec : eventWithTime → option bool → M unit.
Variable bufferEmit_rec : nat → M unit.
Hypothesis wrappedEmit_rec_throwsOnly : ∀ e c, throwsOnly P (wrappedEmit_rec e c).
Hypothesis bufferEmit_rec_throwsOnly : ∀ i, throwsOnly P (bufferEmit_rec i).

Lemma throwsOnly_mutationCb m : throwsOnly P (mutationCb host wrappedEmit_rec m).
Proof.
  intros w err w'. unfold mutationCb. rewrite wrapEvent_bind.
  apply wrappedEmit_rec_throwsOnly.
Qed.

Lemma throwsOnly_bufferEmit_body i :
  throwsOnly P (bufferEmit_body host wrappedEmit_rec bufferEmit_rec i).
Proof.
  intros w err w'. unfold bufferEmit_body.
  destruct (mutationBuffers w !! i) as [b|]; [|done].
  destruct (frozen b || locked b); [done|].
  destruct (pending b) as [|m q]; [done|].
  apply throwsOnly_bind; [apply throwsOnly_modify|intros _].
  apply throwsOnly_bind; [apply throwsOnly_mutationCb|intros _].
  apply bufferEmit_rec_throwsOnly.
Qed.

Lemma throwsOnly_unfreeze i : throwsOnly P (unfreeze bufferEmit_rec i).
Proof.
  apply throwsOnly_bind; [apply throwsOnly_modify|intros _].
  apply throwsOnly_bind; [apply throwsOnly_modify|intros _].
  apply bufferEmit_rec_throwsOnly.
Qed.

Lemma throwsOnly_unlock i : throwsOnly P (unlock bufferEmit_rec i).
Proof.
  apply throwsOnly_bind; [apply throwsOnly_modify|intros _].
  apply throwsOnly_bind; [apply throwsOnly_modify|intros _].
  apply bufferEmit_rec_throwsOnly.
Qed.

Lemma throwsOnly_takeFullSnapshot_body c :
  throwsOnly P (takeFullSnapshot_body host wrappedEmit_rec bufferEmit_rec c).
Proof.
  unfold takeFullSnapshot_body. intros w err w'. rewrite wrapEvent_bind.
  revert err w'. generalize (set_clockReads (S (clockReads w)) w).
  apply throwsOnly_bind; [apply wrappedEmit_rec_throwsOnly|intros _].
  apply throwsOnly_bind.
  { apply throwsOnly_forEachBuffer. intros i.
    apply throwsOnly_bind; [apply throwsOnly_modify|intros _].
    apply throwsOnly_modify. }
  intros _. apply throwsOnly_bind; [by intros w0 err w0'|intros [[node|] m]].
  - apply throwsOnly_bind; [apply throwsOnly_modify|intros _].
    apply throwsOnly_bind; [apply throwsOnly_modify|intros _].
    intros w0 err w0'. rewrite wrapEvent_bind.
    revert err w0'. generalize (set_clockReads (S (clockReads w0)) w0).
    apply throwsOnly_bind; [apply wrappedEmit_rec_throwsOnly|intros _].
    apply throwsOnly_forEachBuffer, throwsOnly_unlock.
  - apply throwsOnly_modify.
Qed.

Lemma throwsOnly_wrappedEmit_body e c :
  throwsOnly P (wrappedEmit_body host options wrappedEmit_rec bufferEmit_rec e c).
Proof.
  unfold wrappedEmit_body.
  apply throwsOnly_bind; [apply throwsOnly_gets|intros doResume].
  apply throwsOnly_bind.
  { destruct doResume; [|apply throwsOnly_ret].
    apply throwsOnly_forEachBuffer, throwsOnly_unfreeze. }
  intros _. apply throwsOnly_bind; [apply throwsOnly_modify|intros _].
  unfold checkoutBookkeeping.
  destruct (decide (type e = FullSnapshot)).
  { apply throwsOnly_bind; [|intros _]; apply throwsOnly_modify. }
  destruct (decide (type e = IncrementalSnapshot)); [|apply throwsOnly_ret].
  apply throwsOnly_bind; [apply throwsOnly_modify|intros _].
  apply throwsOnly_bind; [apply throwsOnly_gets|intros count].
  apply throwsOnly_bind; [apply throwsOnly_exceedTime|intros exceedT].
  destruct (exceedCount options count || exceedT); [|apply throwsOnly_ret].
  apply throwsOnly_takeFullSnapshot_body.
Qed.

End Bodies.

Lemma throwsOnly_wrappedEmit_bufferEmit fuel :
  (∀ e c, throwsOnly P (wrappedEmit host options fuel e c)) ∧
  (∀ i, throwsOnly P (bufferEmit host options fuel i)).
Proof.
  induction fuel as [|f [IHw IHb]]; simpl.
  - by split; intros; intros w err w'.
  - split; intros.
    + by apply throwsOnly_wrappedEmit_body.
    + by apply throwsOnly_bufferEmit_body.
Qed.

End Throws.





(** ** The scroll offset of a full snapshot *)

Lemma orZ_firstNonZero a (xs : list Z) :
  orZ a (firstNonZero xs) = firstNonZero (a :: xs).
Proof.
  unfold orZ, firstNonZero. rewrite filter_cons.
  by destruct (decide (a = 0%Z)); destruct (decide (a ≠ 0%Z)).
Qed.

(** X17.  The scroll offset that a [FullSnapshot] event carries: each
    coordinate is the window's page offset whenever that is defined,
    even when it is [0]; otherwise it is the first non-zero scroll
    position among the document element, the parent element of the body
    (if there is one) and the body, and [0] when all of them are [0]. *)
Theorem initialOffset_first_nonzero host node t :
  data (fullSnapshotEvent host node t) =
  fullSnapshotData node
    (match pageXOffset host with
     | Some x => x
     | None =>
         firstNonZero [documentElement_scrollLeft host;
                       default 0%Z (body_parentElement_scrollLeft host);
                       body_scrollLeft host]
     end)
    (match pageYOffset host with
     | Some y => y
     | None =>
         firstNonZero [documentElement_scrollTop host;
                       default 0%Z (body_parentElement_scrollTop host);
                       body_scrollTop host]
     end).
Proof.
  unfold fullSnapshotEvent, initialOffset_left, initialOffset_top. simpl.
  f_equal.
  - destruct (pageXOffset host); [done|].
    by rewrite <- !orZ_firstNonZero.
  - destruct (pageYOffset host); [done|].
    by rewrite <- !orZ_firstNonZero.
Qed.

(** * Sessions that fail to start, and what the disposer detaches *)

Lemma throwsOnly_takeFullSnapshot host options fuel c :
  throwsOnly missingSnapshotError (takeFullSnapshot host options fuel c).
Proof.
  destruct (throwsOnly_wrappedEmit_bufferEmit host options fuel) as [Hw Hb].
  by apply throwsOnly_takeFullSnapshot_body.
Qed.



(** ** What the disposer detaches *)

Lemma forEach_iframeLoadListener docs w :
  ∃ w', forEach iframeLoadListener docs w = Done tt w' ∧
        handlers w' = handlers w ++ (detachObservers <$> docs) ∧
        listeners w' = listeners w ∧
        trace w' = trace w.
Proof.
  revert w. induction docs as [|doc docs IH]; intros w.
  - exists w. csimpl. rewrite app_nil_r. by repeat split.
  - rewrite forEach_cons.
    unfold iframeLoadListener at 1, observe, initObservers, pushHandler.
    cbv beta iota delta [mbind M_bind modify mret M_ret].
    destruct (IH (set_handlers
                    (handlers w ++ [detachObservers doc])
                    (set_observed ({[doc]} ∪ observed w)
                       (set_mutationBuffers
                          (mutationBuffers w ++ [mkBuffer false false []]) w))))
      as (w' & Hr & Hh & Hl & Ht).
    exists w'. split; [exact Hr|]. rewrite Hh, Hl, Ht. simpl.
    by rewrite <- app_assoc.
Qed.

Lemma removedNames_elem n hs : removeListener n ∈ hs → n ∈ removedNames hs.
Proof.
  induction hs as [|[n'|d'] hs IH]; intros Hin.
  - by apply elem_of_nil in Hin.
  - simpl. apply elem_of_cons in Hin as [[= ->]|Hin].
    + apply elem_of_union_l. by apply elem_of_singleton.
    + apply elem_of_union_r. by apply IH.
  - simpl. apply elem_of_cons in Hin as [[=]|Hin]. by apply IH.
Qed.

Lemma detachedDocs_elem d hs : detachObservers d ∈ hs → d ∈ detachedDocs hs.
Proof.
  induction hs as [|[n'|d'] hs IH]; intros Hin.
  - by apply elem_of_nil in Hin.
  - simpl. apply elem_of_cons in Hin as [[=]|Hin]. by apply IH.
  - simpl. apply elem_of_cons in Hin as [[= ->]|Hin].
    + apply elem_of_union_l. by apply elem_of_singleton.
    + apply elem_of_union_r. by apply IH.
Qed.

Lemma detach_listeners n hs w :
  removeListener n ∈ hs → n ∉ listeners (detach hs w).
Proof.
  intros Hin Hl. simpl in Hl. apply elem_of_difference in Hl as [_ Hnot].
  by apply Hnot, removedNames_elem.
Qed.

Lemma detach_observed d hs w :
  detachObservers d ∈ hs → d ∉ observed (detach hs w).
Proof.
  intros Hin Hl. simpl in Hl. apply elem_of_difference in Hl as [_ Hnot].
  by apply Hnot, detachedDocs_elem.
Qed.



